(** * torchqrnn/forget_mult.py: the forget-mult recurrence

    A shallow embedding of [src/torchqrnn/forget_mult.py]:
    - the two CUDA kernels of the [kernel] string ([recurrent_forget_mult]
      and [bwd_recurrent_forget_mult]), as programs over flat buffers with
      32-bit [int] index arithmetic;
    - [CPUForgetMult.forward], as a program over contiguous tensors with the
      tensor library's shape rules (broadcasting, [split], [view], [stack]);
    - [ForgetMult.forward], the backend selector.

    Scalars are kept abstract: every result holds in any commutative ring
    (exact arithmetic).  Rounding of [float]/[double] is outside the model. *)

From Stdlib Require Import String ZArith Lia Bool PeanoNat.
From Stdlib Require Import Ring Ring_theory QArith Qcanon Qround Reals RealField.
From Stdlib Require Import Lra List Permutation.
Import ListNotations.

Close Scope Qc_scope.
Close Scope Q_scope.
Open Scope nat_scope.

(** * Scalars *)

(** The element type of tensors and kernel buffers, with the operations the
    source applies to it ([+], [-], [*], the literals [0] and [1]). *)
Class Scalar (A : Type) : Type := {
  s0 : A;
  s1 : A;
  sadd : A -> A -> A;
  smul : A -> A -> A;
  ssub : A -> A -> A;
  sopp : A -> A;
  scalar_ring : ring_theory s0 s1 sadd smul ssub sopp (@eq A)
}.

Declare Scope scalar_scope.
Delimit Scope scalar_scope with S.
Infix "+" := sadd : scalar_scope.
Infix "*" := smul : scalar_scope.
Infix "-" := ssub : scalar_scope.

#[global] Instance Z_Scalar : Scalar Z :=
  {| s0 := 0%Z; s1 := 1%Z; sadd := Z.add; smul := Z.mul; ssub := Z.sub;
     sopp := Z.opp; scalar_ring := Zth |}.

#[global] Instance R_Scalar : Scalar R :=
  {| s0 := 0%R; s1 := 1%R; sadd := Rplus; smul := Rmult; ssub := Rminus;
     sopp := Ropp; scalar_ring := RTheory |}.

#[global] Instance Qc_Scalar : Scalar Qc :=
  {| s0 := Q2Qc 0; s1 := Q2Qc 1; sadd := Qcplus; smul := Qcmult;
     ssub := Qcminus; sopp := Qcopp; scalar_ring := Qcrt |}.

(** * Python exceptions and the error monad *)

Inductive exn : Type :=
| NameError (name : string)
| AssertionError (msg : string)
| IndexError
| TypeError
| TorchError.  (* an error raised inside a tensor-library call *)

Inductive result (T : Type) : Type :=
| Ok (v : T)
| Raise (e : exn).
Arguments Ok {T} v.
Arguments Raise {T} e.

Definition rbind {T U : Type} (m : result T) (k : T -> result U) : result U :=
  match m with
  | Ok v => k v
  | Raise e => Raise e
  end.

Declare Scope py_scope.
Delimit Scope py_scope with py.
Notation "x <- m ;; k" := (rbind m (fun x => k))
  (at level 61, m at next level, right associativity) : py_scope.

(** * Tensors *)

Section Tensors.

Context {A : Type} {SA : Scalar A}.

(** A contiguous tensor: its [size()], its elements in row-major order, and
    the device flag read by [ForgetMult.forward]. *)
Record Tensor : Type := mkTensor {
  size : list nat;
  data : list A;
  is_cuda : bool
}.

Definition numel (s : list nat) : nat := fold_right Nat.mul 1 s.

(** Well-formed: as many elements as the shape announces. *)
Definition wf (t : Tensor) : Prop := length (data t) = numel (size t).

(** Row-major offset of a multi-index, and its inverse. *)
Fixpoint ravel (s idx : list nat) : nat :=
  match s, idx with
  | _ :: s', i :: idx' => i * numel s' + ravel s' idx'
  | _, _ => 0
  end.

Fixpoint unravel (s : list nat) (k : nat) : list nat :=
  match s with
  | [] => []
  | _ :: s' => k / numel s' :: unravel s' (k mod numel s')
  end.

(** [t[i0, i1, ...]] *)
Definition item (t : Tensor) (idx : list nat) : A :=
  nth (ravel (size t) idx) (data t) s0.

(** ** Broadcasting *)

(** Shapes are aligned on their last dimension; two extents are compatible
    when they are equal or one of them is 1. *)
Fixpoint bshape_rev (a b : list nat) : option (list nat) :=
  match a, b with
  | [], _ => Some b
  | _, [] => Some a
  | x :: a', y :: b' =>
      if x =? y then option_map (cons x) (bshape_rev a' b')
      else if x =? 1 then option_map (cons y) (bshape_rev a' b')
      else if y =? 1 then option_map (cons x) (bshape_rev a' b')
      else None
  end.

Definition broadcast_shapes (a b : list nat) : option (list nat) :=
  option_map (@rev nat) (bshape_rev (rev a) (rev b)).

Fixpoint clamp (so idx : list nat) : list nat :=
  match so, idx with
  | d :: so', i :: idx' => (if d =? 1 then 0 else i) :: clamp so' idx'
  | _, _ => []
  end.

(** The operand's multi-index for the result's multi-index [idx]: leading
    dimensions the operand lacks are dropped, extent-1 dimensions read
    index 0. *)
Definition bcast_index (so idx : list nat) : list nat :=
  clamp so (skipn (length idx - length so) idx).

Definition bcast_offset (so s : list nat) (k : nat) : nat :=
  ravel so (bcast_index so (unravel s k)).

(** Elementwise binary operator with broadcasting ([a * b], [a + b]). *)
Definition binop (op : A -> A -> A) (a b : Tensor) : result Tensor :=
  if negb (Bool.eqb (is_cuda a) (is_cuda b)) then Raise TorchError
  else match broadcast_shapes (size a) (size b) with
       | None => Raise TorchError
       | Some s =>
           Ok {| size := s;
                 data := map (fun k => op (nth (bcast_offset (size a) s k) (data a) s0)
                                          (nth (bcast_offset (size b) s k) (data b) s0))
                             (seq 0 (numel s));
                 is_cuda := is_cuda a |}
       end.

Definition tmul : Tensor -> Tensor -> result Tensor := binop smul.
Definition tadd : Tensor -> Tensor -> result Tensor := binop sadd.

(** [c - t] for a Python number [c]. *)
Definition rsub (c : A) (t : Tensor) : Tensor :=
  {| size := size t; data := map (fun v => (c - v)%S) (data t); is_cuda := is_cuda t |}.

(** ** [split], [view], [stack] *)

(** Rows [i .. i+len-1] along dimension 0 ([narrow]). *)
Definition narrow0 (t : Tensor) (i len : nat) : Tensor :=
  let n := numel (tl (size t)) in
  {| size := len :: tl (size t);
     data := firstn (len * n) (skipn (i * n) (data t));
     is_cuda := is_cuda t |}.

(** [t.split(1, dim=0)]: one chunk per row; a tensor with no row yields a
    single chunk with no row; a 0-dimensional tensor cannot be split. *)
Definition split1 (t : Tensor) : result (list Tensor) :=
  match size t with
  | [] => Raise TorchError
  | 0 :: _ => Ok [narrow0 t 0 0]
  | d :: _ => Ok (map (fun i => narrow0 t i 1) (seq 0 d))
  end.

(** [t.view(s)]: same elements, new shape with the same number of elements. *)
Definition view (t : Tensor) (s : list nat) : result Tensor :=
  if numel s =? numel (size t)
  then Ok {| size := s; data := data t; is_cuda := is_cuda t |}
  else Raise TorchError.

Definition same_size (a b : Tensor) : bool :=
  if list_eq_dec Nat.eq_dec (size a) (size b) then true else false.

(** [torch.stack(ts)]: a new leading dimension; rejects the empty list and
    tensors of different sizes or devices. *)
Definition stack (ts : list Tensor) : result Tensor :=
  match ts with
  | [] => Raise TorchError
  | t0 :: _ =>
      if forallb (fun t => same_size t0 t && Bool.eqb (is_cuda t0) (is_cuda t)) ts
      then Ok {| size := length ts :: size t0;
                 data := concat (map data ts);
                 is_cuda := is_cuda t0 |}
      else Raise TorchError
  end.

(** Indexing a Python tuple. *)
Definition tuple_get {T : Type} (l : list T) (i : nat) : result T :=
  match nth_error l i with
  | Some v => Ok v
  | None => Raise IndexError
  end.

(** * [CPUForgetMult.forward] *)

Local Open Scope py_scope.

(** One turn of the [for i, h in enumerate(...)] loop: the new
    [(prev_h, result)]. *)
Definition cpu_step (forgets : list Tensor) (i : nat) (h : Tensor)
    (st : option Tensor * list Tensor) : result (option Tensor * list Tensor) :=
  let '(prev_h, res) := st in
  h1 <- match prev_h with
        | Some p =>
            fi <- tuple_get forgets i ;;
            g <- tmul (rsub s1 fi) p ;;
            tadd h g
        | None => Ok h
        end ;;
  h2 <- view h1 (tl (size h1)) ;;
  Ok (Some h2, res ++ [h2]).

Fixpoint cpu_loop (forgets : list Tensor) (i : nat) (hs : list Tensor)
    (st : option Tensor * list Tensor) : result (option Tensor * list Tensor) :=
  match hs with
  | [] => Ok st
  | h :: hs' =>
      st' <- cpu_step forgets i h st ;;
      cpu_loop forgets (S i) hs' st'
  end.

Definition CPUForgetMult_forward (f x : Tensor) (hidden_init : option Tensor)
    : result Tensor :=
  forgets <- split1 f ;;
  fx <- tmul f x ;;
  hs <- split1 fx ;;
  st <- cpu_loop forgets 0 hs (hidden_init, []) ;;
  stack (snd st).

(** * [ForgetMult.forward] *)

(** The names bound at module level by the source file. *)
Definition module_names : list string :=
  ["math"; "torch"; "Variable"; "Program"; "namedtuple"; "kernel";
   "CPUForgetMult"; "ForgetMult"]%string.

Definition forward_fn : Type := Tensor -> Tensor -> option Tensor -> result Tensor.

(** Evaluating [Name()] for a module-level name and taking the instance's
    [forward]: an unbound name raises [NameError]; of the bound names only
    [CPUForgetMult] is a class whose instances this file calls. *)
Definition instantiate (name : string) : result forward_fn :=
  if existsb (String.eqb name) module_names
  then if String.eqb name "CPUForgetMult" then Ok CPUForgetMult_forward
       else Raise TypeError
  else Raise (NameError name).

Definition py_assert (c : bool) (msg : string) : result unit :=
  if c then Ok tt else Raise (AssertionError msg).

Definition placement_msg : string :=
  "GPU ForgetMult with fast element-wise CUDA kernel requested but tensors not on GPU".

(** [cuda_is_available] is the value of [torch.cuda.is_available()]. *)
Definition ForgetMult_forward (cuda_is_available : bool)
    (f x : Tensor) (hidden_init : option Tensor) (use_cuda : bool) : result Tensor :=
  let use_cuda := use_cuda && cuda_is_available in
  _ <- (if use_cuda then py_assert (is_cuda f && is_cuda x) placement_msg else Ok tt) ;;
  match hidden_init with
  | None =>
      if use_cuda
      then (fwd <- instantiate "GPUForgetMult" ;; fwd f x None)
      else (fwd <- instantiate "CPUForgetMult" ;; fwd f x None)
  | Some h0 =>
      if use_cuda
      then (fwd <- instantiate "GPUForgetMult" ;; fwd f x (Some h0))
      else (fwd <- instantiate "CPUForgetMult" ;; fwd f x (Some h0))
  end.

End Tensors.

Arguments Tensor A : clear implicits.

(** * The CUDA kernels *)

(** ** 32-bit [int] arithmetic *)

Definition wrap (z : Z) : Z := ((z + 2 ^ 31) mod 2 ^ 32 - 2 ^ 31)%Z.
Definition int_add (a b : Z) : Z := wrap (a + b).
Definition int_sub (a b : Z) : Z := wrap (a - b).
Definition int_mul (a b : Z) : Z := wrap (a * b).
Arguments wrap : simpl never.

(** The built-in coordinates of one thread of a launch. *)
Record thread : Type := mkThread {
  blockIdx_x : Z; blockDim_x : Z; threadIdx_x : Z;
  blockIdx_y : Z; blockDim_y : Z; threadIdx_y : Z
}.

(** [int hid = blockIdx.x * blockDim.x + threadIdx.x], and [bid] likewise. *)
Definition thread_hid (th : thread) : Z :=
  wrap (blockIdx_x th * blockDim_x th + threadIdx_x th).
Definition thread_bid (th : thread) : Z :=
  wrap (blockIdx_y th * blockDim_y th + threadIdx_y th).

(** Offset of timestep [ts] of lane [(bid, hid)]:
    [ts * HIDDEN * BATCH + bid * HIDDEN + hid]. *)
Definition lane_offset (ts HIDDEN BATCH bid hid : Z) : Z :=
  int_add (int_add (int_mul (int_mul ts HIDDEN) BATCH) (int_mul bid HIDDEN)) hid.

Declare Scope mem_scope.
Delimit Scope mem_scope with mem.
Notation "x <- m ;; k" := (match m with Some x => k | None => None end)
  (at level 61, m at next level, right associativity) : mem_scope.

Section Kernels.

Context {A : Type} {SA : Scalar A}.

(** ** Buffers *)

(** A device buffer is the list of its elements; an access outside it
    (undefined in C) is a fault, [None]. *)
Fixpoint upd (n : nat) (v : A) (l : list A) : list A :=
  match l, n with
  | [], _ => []
  | _ :: l', O => v :: l'
  | a :: l', S n' => a :: upd n' v l'
  end.

Definition ld (buf : list A) (i : Z) : option A :=
  if (i <? 0)%Z then None else nth_error buf (Z.to_nat i).

Definition st (buf : list A) (i : Z) (v : A) : option (list A) :=
  if ((0 <=? i) && (i <? Z.of_nat (length buf)))%Z
  then Some (upd (Z.to_nat i) v buf)
  else None.

(** The element at offset [i], for stating what a buffer holds. *)
Definition rd (buf : list A) (i : Z) : A := nth (Z.to_nat i) buf s0.

Local Open Scope mem_scope.

(** ** [recurrent_forget_mult] *)

(** The body of the [for] loop at timestep [ts]. *)
Definition fwd_body (f x : list A) (BATCH HIDDEN bid hid ts : Z) (dst : list A)
    : option (list A) :=
  let i := lane_offset (int_sub ts 1) HIDDEN BATCH bid hid in
  let dst_i := lane_offset (int_sub ts 0) HIDDEN BATCH bid hid in
  let dst_iminus1 := lane_offset (int_sub ts 1) HIDDEN BATCH bid hid in
  fi <- ld f i ;;
  xi <- ld x i ;;
  dst1 <- st dst dst_i (fi * xi)%S ;;
  d <- ld dst1 dst_i ;;
  fi' <- ld f i ;;
  p <- ld dst1 dst_iminus1 ;;
  st dst1 dst_i (d + (s1 - fi') * p)%S.

(** [for (int ts = 0 + 1; ts < SEQ + 1; ts++)], from the current [ts];
    [None] also when [fuel] turns do not reach the exit. *)
Fixpoint fwd_loop (fuel : nat) (f x : list A) (SEQ BATCH HIDDEN bid hid ts : Z)
    (dst : list A) : option (list A) :=
  match fuel with
  | O => None
  | S fuel' =>
      if (ts <? int_add SEQ 1)%Z
      then dst' <- fwd_body f x BATCH HIDDEN bid hid ts dst ;;
           fwd_loop fuel' f x SEQ BATCH HIDDEN bid hid (int_add ts 1) dst'
      else Some dst
  end.

(** One thread of the forward kernel. *)
Definition recurrent_forget_mult (f x : list A) (SEQ BATCH HIDDEN : Z)
    (th : thread) (dst : list A) : option (list A) :=
  let hid := thread_hid th in
  let bid := thread_bid th in
  if ((hid >=? HIDDEN) || (bid >=? BATCH))%Z then Some dst
  else fwd_loop (S (Z.to_nat SEQ)) f x SEQ BATCH HIDDEN bid hid (int_add 0 1) dst.

(** ** [bwd_recurrent_forget_mult] *)

(** The update of the accumulator that ends a turn of the backward loop:
    [running_f = running_f - f[i] * running_f]. *)
Definition attenuate (fi running_f : A) : A := (running_f - fi * running_f)%S.

(** State of a backward thread: the outputs [gf], [gx] and the local
    [running_f]. *)
Record bwd_state : Type := mkBwd {
  gf : list A;
  gx : list A;
  running_f : A
}.

Definition bwd_body (h f x gh : list A) (BATCH HIDDEN bid hid ts : Z)
    (s : bwd_state) : option bwd_state :=
  let i := lane_offset (int_sub ts 1) HIDDEN BATCH bid hid in
  let dst_iminus1 := lane_offset (int_sub ts 1) HIDDEN BATCH bid hid in
  g <- ld gh dst_iminus1 ;;
  let running_f1 := (running_f s + g)%S in
  fi <- ld f i ;;
  gx' <- st (gx s) i (fi * running_f1)%S ;;
  xi <- ld x i ;;
  hp <- ld h dst_iminus1 ;;
  gf' <- st (gf s) i ((xi - hp) * running_f1)%S ;;
  fi' <- ld f i ;;
  Some {| gf := gf'; gx := gx'; running_f := attenuate fi' running_f1 |}.

(** [for (int ts = SEQ - 1 + 1; ts >= 0 + 1; ts--)], from the current [ts]. *)
Fixpoint bwd_loop (fuel : nat) (h f x gh : list A) (BATCH HIDDEN bid hid ts : Z)
    (s : bwd_state) : option bwd_state :=
  match fuel with
  | O => None
  | S fuel' =>
      if (ts >=? int_add 0 1)%Z
      then s' <- bwd_body h f x gh BATCH HIDDEN bid hid ts s ;;
           bwd_loop fuel' h f x gh BATCH HIDDEN bid hid (int_sub ts 1) s'
      else Some s
  end.

(** One thread of the backward kernel, on the outputs [(gf, gx, ghinit)]. *)
Definition bwd_recurrent_forget_mult (h f x gh : list A) (SEQ BATCH HIDDEN : Z)
    (th : thread) (out : list A * list A * list A)
    : option (list A * list A * list A) :=
  let '(gf0, gx0, ghinit) := out in
  let hid := thread_hid th in
  let bid := thread_bid th in
  if ((hid >=? HIDDEN) || (bid >=? BATCH))%Z then Some out
  else
    s <- bwd_loop (S (Z.to_nat SEQ)) h f x gh BATCH HIDDEN bid hid
           (int_add (int_sub SEQ 1) 1)
           {| gf := gf0; gx := gx0; running_f := s0 |} ;;
    ghinit' <- st ghinit (int_add (int_mul bid HIDDEN) hid) (running_f s) ;;
    Some (gf s, gx s, ghinit').

(** ** Launches *)

(** The threads of a launch, run one after the other in the order of the
    list; the results below hold for every order. *)
Fixpoint launch {S : Type} (k : thread -> S -> option S) (ths : list thread) (s : S)
    : option S :=
  match ths with
  | [] => Some s
  | th :: ths' => s' <- k th s ;; launch k ths' s'
  end.

End Kernels.

(** A grid of [gx * gy] blocks of [bx * by] threads. *)
Definition grid_threads (gx gy bx by_ : nat) : list thread :=
  flat_map (fun by0 => flat_map (fun bx0 => flat_map (fun ty => map (fun tx =>
    {| blockIdx_x := Z.of_nat bx0; blockDim_x := Z.of_nat bx; threadIdx_x := Z.of_nat tx;
       blockIdx_y := Z.of_nat by0; blockDim_y := Z.of_nat by_; threadIdx_y := Z.of_nat ty |})
    (seq 0 bx)) (seq 0 by_)) (seq 0 gx)) (seq 0 gy).

(** The grid is small enough for the coordinates to fit an [int]. *)
Definition grid_fits (gx gy bx by_ : nat) : Prop :=
  (Z.of_nat gx * Z.of_nat bx < 2 ^ 31 /\ Z.of_nat gy * Z.of_nat by_ < 2 ^ 31)%Z.

(** * The spec's backward scan, for one lane *)

Section AdjointSpec.

Context {A : Type} {SA : Scalar A}.

(** What one lane holds at timestep [t]: [F[t]], [X[t]], [H[t-1]], [gH[t]]. *)
Record lane_step : Type := mkStep {
  step_F : A; step_X : A; step_Hprev : A; step_gH : A
}.

(** Follows the spec's words: the steps are listed for [t = 1 .. T]; [acc]
    starts at 0 and the steps are visited from [T] down to 1; a step adds
    [gH[t]] to [acc], emits [dX[t] = F[t] * acc] and
    [dF[t] = (X[t] - H[t-1]) * acc], and leaves [acc - F[t] * acc].
    Returns the [(dX[t], dF[t])] for [t = 1 .. T], and [dH0]. *)
Fixpoint adjoint_scan (steps : list lane_step) : list (A * A) * A :=
  match steps with
  | [] => ([], s0)
  | s :: later =>
      let '(outs, acc) := adjoint_scan later in
      let acc1 := (acc + step_gH s)%S in
      ((step_F s * acc1, (step_X s - step_Hprev s) * acc1)%S :: outs,
       (acc1 - step_F s * acc1)%S)
  end.

End AdjointSpec.

Arguments lane_step A : clear implicits.

(** * Concrete tensors *)

(** CPU tensors of rationals and of integers. *)
Definition tq (s : list nat) (d : list Q) : Tensor Qc :=
  {| size := s; data := map Q2Qc d; is_cuda := false |}.
Definition tz (s : list nat) (d : list Z) : Tensor Z :=
  {| size := s; data := d; is_cuda := false |}.

(** CPU tensors of real numbers. *)
Definition tr (s : list nat) (d : list R) : Tensor R :=
  {| size := s; data := d; is_cuda := false |}.

(** The same integers on a CUDA device. *)
Definition tz_cuda (s : list nat) (d : list Z) : Tensor Z :=
  {| size := s; data := d; is_cuda := true |}.

(** A tensor of zeros of shape [s] on the device [dev]. *)
Definition zeros {A : Type} {SA : Scalar A} (s : list nat) (dev : bool) : Tensor A :=
  {| size := s; data := repeat s0 (numel s); is_cuda := dev |}.

(** The scenario in the [__main__] block's comments. *)
Definition scenario_F : Tensor Qc := tq [4; 1; 1] [0.25; 0.25; 0.5; 0.4]%Q.
Definition scenario_X : Tensor Qc := tq [4; 1; 1] [0.75; 0.5; 0.9; 0.8]%Q.
Definition scenario_H0 : Tensor Qc := tq [1; 1] [0]%Q.

(** Rounding to 4 decimals, as the number of ten-thousandths. *)
Definition round4 (q : Qc) : Z := Qfloor (this q * 10000 + (1 # 2))%Q.

(** * Vocabulary for the kernels' properties *)

(** The offset the kernels mean, without wrap-around. *)
Definition off (HIDDEN BATCH bid hid ts : Z) : Z :=
  (ts * HIDDEN * BATCH + bid * HIDDEN + hid)%Z.

Section KernelVocabulary.

Context {A : Type} {SA : Scalar A}.

Local Open Scope Z_scope.

Variables (f x : list A) (SEQ BATCH HIDDEN : Z).

Local Abbreviation o := (off HIDDEN BATCH).

(** What the forward kernel stores at timestep [ts] of a lane, from the
    lane's previous element [p]. *)
Definition fwd_value (bid hid ts : Z) (p : A) : A :=
  (rd f (o bid hid (ts - 1)) * rd x (o bid hid (ts - 1))
   + (s1 - rd f (o bid hid (ts - 1))) * p)%S.

(** The lane's part of [dst] obeys the recurrence on timesteps [lo .. SEQ]. *)
Definition lane_recurrence (bid hid lo : Z) (dst : list A) : Prop :=
  forall t, lo <= t <= SEQ ->
    rd dst (o bid hid t) = fwd_value bid hid t (rd dst (o bid hid (t - 1))).

(** Cells that the lane's loop never stores to, from timestep [lo] on. *)
Definition off_lane (bid hid lo : Z) (k : nat) : Prop :=
  forall t, lo <= t <= SEQ -> k <> Z.to_nat (o bid hid t).

(** The coordinates of a thread that passes the kernels' guard. *)
Definition in_range (th : thread) : Prop :=
  0 <= thread_bid th < BATCH /\ 0 <= thread_hid th < HIDDEN.

(** Threads compute non-negative coordinates: the launch never has so many
    blocks or threads that the [int] conversion turns negative. *)
Definition nonneg (th : thread) : Prop :=
  0 <= thread_bid th /\ 0 <= thread_hid th.

(** What the lane [(bid, hid)] holds at each timestep, read from the
    buffers the backward kernel is given: row [r] of [f], [x], [gh] and of
    [h] is timestep [r + 1] of [F], [X], [gH] and timestep [r] of [H]. *)
Definition lane_steps (h gh : list A) (bid hid : Z) : list (lane_step A) :=
  map (fun r => {| step_F := rd f (o bid hid (Z.of_nat r));
                   step_X := rd x (o bid hid (Z.of_nat r));
                   step_Hprev := rd h (o bid hid (Z.of_nat r));
                   step_gH := rd gh (o bid hid (Z.of_nat r)) |})
      (seq 0 (Z.to_nat SEQ)).

(** The outputs [(gf, gx, ghinit)] hold, for lane [(bid, hid)], what the
    spec's scan computes. *)
Definition lane_adjoint (h gh : list A) (bid hid : Z)
    (out : list A * list A * list A) : Prop :=
  let '(gf', gx', ghinit') := out in
  let scan := adjoint_scan (lane_steps h gh bid hid) in
  (forall r, (r < Z.to_nat SEQ)%nat ->
     rd gx' (o bid hid (Z.of_nat r)) = fst (nth r (fst scan) (s0, s0)) /\
     rd gf' (o bid hid (Z.of_nat r)) = snd (nth r (fst scan) (s0, s0))) /\
  rd ghinit' (bid * HIDDEN + hid) = snd scan.

(** Buffers of the sizes the kernel is launched with. *)
Definition bwd_sized (out : list A * list A * list A) : Prop :=
  Z.of_nat (length (fst (fst out))) = SEQ * HIDDEN * BATCH /\
  Z.of_nat (length (snd (fst out))) = SEQ * HIDDEN * BATCH /\
  Z.of_nat (length (snd out)) = HIDDEN * BATCH.

(** Cells of the outputs that belong to another lane than [(bid, hid)]. *)
Definition bwd_same_elsewhere (bid hid : Z) (out out' : list A * list A * list A) : Prop :=
  (forall k, (forall r, 0 <= r < SEQ -> k <> Z.to_nat (o bid hid r)) ->
     nth k (fst (fst out')) s0 = nth k (fst (fst out)) s0 /\
     nth k (snd (fst out')) s0 = nth k (snd (fst out)) s0) /\
  (forall k, k <> Z.to_nat (bid * HIDDEN + hid) ->
     nth k (snd out') s0 = nth k (snd out) s0).

(** Some thread of the launch works on lane [(bid, hid)]. *)
Definition covered (ths : list thread) (bid hid : Z) : Prop :=
  exists th, In th ths /\ thread_bid th = bid /\ thread_hid th = hid.

End KernelVocabulary.

(** * The spec's forward recurrence *)

Section ForwardSpec.

Context {A : Type} {SA : Scalar A}.

(** Follows the spec's words, on row-major element lists with [n] lanes per
    timestep: [H[0] = H0] (zero where [h0] has no element) and
    [H[t] = F[t] * X[t] + (1 - F[t]) * H[t-1]], where [F[t]] and [X[t]] for
    [t = 1 .. T] are rows [t - 1] of [fd] and [xd]. *)
Fixpoint hidden_ref (n : nat) (fd xd h0 : list A) (t j : nat) : A :=
  match t with
  | O => nth j h0 s0
  | S t' =>
      (nth (t' * n + j) fd s0 * nth (t' * n + j) xd s0
       + (s1 - nth (t' * n + j) fd s0) * hidden_ref n fd xd h0 t' j)%S
  end.

End ForwardSpec.

(** * Vocabulary for [CPUForgetMult.forward] *)

Section CPUVocabulary.

Context {A : Type} {SA : Scalar A}.

(** A tensor with the shape [s] of one timestep, on device [dev]. *)
Definition row_like (s : list nat) (dev : bool) (p : Tensor A) : Prop :=
  size p = s /\ length (data p) = numel s /\ is_cuda p = dev.

(** Element [j] of the previous hidden state; zero when there is none. *)
Definition prev_value (prev : option (Tensor A)) (j : nat) : A :=
  match prev with
  | Some p => nth j (data p) s0
  | None => s0
  end.

(** [H0[b, h]], zero when no initial state is given. *)
Definition initial_value (H0 : option (Tensor A)) (b h : nat) : A :=
  match H0 with
  | Some p => item p [b; h]
  | None => s0
  end.

(** An initial state that one timestep of shape [s] absorbs: it is absent,
    or on device [d] and of a shape that broadcasts against [1 :: s] to
    [1 :: s] itself. *)
Definition absorbed (s : list nat) (d : bool) (prev : option (Tensor A)) : Prop :=
  match prev with
  | Some p => broadcast_shapes (1 :: s) (size p) = Some (1 :: s) /\ is_cuda p = d
  | None => True
  end.

End CPUVocabulary.

(** * Vocabulary for gradients *)

Section GradientVocabulary.

Context {A : Type} {SA : Scalar A}.

(** The sum of a list of scalars. *)
Fixpoint ssum (l : list A) : A :=
  match l with
  | [] => s0
  | a :: l' => (a + ssum l')%S
  end.

(** What lane [j] holds at each timestep, on row-major element lists with
    [n] lanes per timestep: row [r] of [f], [x], [gh] and of [h]. *)
Definition lane_rows (n T j : nat) (h f x gh : list A) : list (lane_step A) :=
  map (fun r => {| step_F := nth (r * n + j) f s0;
                   step_X := nth (r * n + j) x s0;
                   step_Hprev := nth (r * n + j) h s0;
                   step_gH := nth (r * n + j) gh s0 |})
      (seq 0 T).

(** The change, at lane [j], of the loss [sum over t of gH[t] * H[t]] when
    the hidden sequence [H[0 .. T]] goes from [hs] to [hs']. *)
Definition loss_change (n T j : nat) (gh hs hs' : list A) : A :=
  ssum (map (fun r => nth (r * n + j) gh s0
                      * (nth (S r * n + j) hs' s0 - nth (S r * n + j) hs s0))%S
            (seq 0 T)).

(** [sum over t of g[t] * (v'[t] - v[t])] at lane [j], for element lists of
    [T] timesteps. *)
Definition gradient_dot (n T j : nat) (g v v' : list A) : A :=
  ssum (map (fun r => nth (r * n + j) g s0
                      * (nth (r * n + j) v' s0 - nth (r * n + j) v s0))%S
            (seq 0 T)).

End GradientVocabulary.

(** * Vocabulary for sequences given in chunks *)

Section ChunkVocabulary.

Context {A : Type}.

(** [a] followed by [b] along the first dimension, for tensors of shapes
    [T1 :: s] and [T2 :: s]: the sequence of [T1 + T2] timesteps whose first
    [T1] are those of [a]. *)
Definition cat0 (a b : Tensor A) : Tensor A :=
  {| size := match size a, size b with
             | d :: s, d' :: _ => (d + d') :: s
             | sa, _ => sa
             end;
     data := data a ++ data b;
     is_cuda := is_cuda a |}.

(** The last timestep [out[-1]] of a tensor of shape [T :: s], [T >= 1]. *)
Definition last_timestep (out : Tensor A) : Tensor A :=
  match size out with
  | d :: s => {| size := s;
                 data := skipn ((d - 1) * numel s) (data out);
                 is_cuda := is_cuda out |}
  | [] => out
  end.

End ChunkVocabulary.

(** * Facts about [int] arithmetic and buffers *)

Section IntFacts.

Local Open Scope Z_scope.

Lemma wrap_small (z : Z) : (- 2 ^ 31 <= z < 2 ^ 31) -> wrap z = z.
Proof.
  intros Hz. unfold wrap. rewrite Z.mod_small by lia. lia.
Qed.

Lemma lane_offset_exact (SEQ BATCH HIDDEN bid hid ts : Z) :
  (0 <= ts <= SEQ) -> (0 <= bid < BATCH) -> (0 <= hid < HIDDEN) ->
  ((SEQ + 1) * HIDDEN * BATCH < 2 ^ 31) ->
  lane_offset ts HIDDEN BATCH bid hid = off HIDDEN BATCH bid hid ts.
Proof.
  intros Hts Hb Hh Hmax. unfold lane_offset, off, int_add, int_mul.
  assert (H1 : (0 <= ts * HIDDEN <= SEQ * HIDDEN)) by nia.
  assert (H2 : (0 <= ts * HIDDEN * BATCH <= SEQ * HIDDEN * BATCH)) by nia.
  assert (H3 : (0 <= bid * HIDDEN <= (BATCH - 1) * HIDDEN)) by nia.
  assert (H4 : (SEQ * HIDDEN <= SEQ * HIDDEN * BATCH)) by nia.
  rewrite (wrap_small (ts * HIDDEN)) by nia.
  rewrite (wrap_small (ts * HIDDEN * BATCH)) by nia.
  rewrite (wrap_small (bid * HIDDEN)) by nia.
  rewrite (wrap_small (ts * HIDDEN * BATCH + bid * HIDDEN)) by nia.
  apply wrap_small. nia.
Qed.

Lemma off_bounds (SEQ BATCH HIDDEN bid hid ts : Z) :
  (0 <= ts <= SEQ) -> (0 <= bid < BATCH) -> (0 <= hid < HIDDEN) ->
  (ts * (HIDDEN * BATCH) <= off HIDDEN BATCH bid hid ts < (ts + 1) * (HIDDEN * BATCH)).
Proof. intros. unfold off. nia. Qed.

(** Distinct cells have distinct offsets. *)
Lemma off_inj (BATCH HIDDEN b h t b' h' t' : Z) :
  (0 <= b < BATCH) -> (0 <= h < HIDDEN) ->
  (0 <= b' < BATCH) -> (0 <= h' < HIDDEN) ->
  off HIDDEN BATCH b h t = off HIDDEN BATCH b' h' t' ->
  t = t' /\ b = b' /\ h = h'.
Proof.
  intros Hb Hh Hb' Hh' E. unfold off in E.
  assert (Hr : 0 <= b * HIDDEN + h < HIDDEN * BATCH) by nia.
  assert (Hr' : 0 <= b' * HIDDEN + h' < HIDDEN * BATCH) by nia.
  assert (E' : t * (HIDDEN * BATCH) + (b * HIDDEN + h)
               = t' * (HIDDEN * BATCH) + (b' * HIDDEN + h')) by lia.
  clear E. revert Hr Hr' E'.
  generalize (HIDDEN * BATCH) as N. intros N Hr Hr' E.
  assert (Et : t = t') by nia.
  subst t'. split; [reflexivity |].
  assert (Eb : b = b') by nia.
  subst b'. split; [reflexivity | lia].
Qed.

Lemma off_nonneg (BATCH HIDDEN b h t : Z) :
  0 <= b < BATCH -> 0 <= h < HIDDEN -> 0 <= t -> 0 <= off HIDDEN BATCH b h t.
Proof.
  intros Hb Hh Ht. unfold off.
  assert (0 <= t * HIDDEN) by nia.
  assert (0 <= t * HIDDEN * BATCH) by nia.
  nia.
Qed.

Lemma off_to_nat_inj (BATCH HIDDEN b h t b' h' t' : Z) :
  0 <= b < BATCH -> 0 <= h < HIDDEN -> 0 <= t ->
  0 <= b' < BATCH -> 0 <= h' < HIDDEN -> 0 <= t' ->
  Z.to_nat (off HIDDEN BATCH b h t) = Z.to_nat (off HIDDEN BATCH b' h' t') ->
  t = t' /\ b = b' /\ h = h'.
Proof.
  intros Hb Hh Ht Hb' Hh' Ht' E.
  assert (N1 := @off_nonneg BATCH HIDDEN b h t Hb Hh Ht).
  assert (N2 := @off_nonneg BATCH HIDDEN b' h' t' Hb' Hh' Ht').
  apply (@off_inj BATCH HIDDEN); auto. lia.
Qed.

End IntFacts.

Lemma nth_map_seq {T : Type} (g : nat -> T) (a n r : nat) (d : T) :
  r < n -> nth r (map g (seq a n)) d = g (a + r).
Proof.
  intros Hr.
  rewrite (nth_indep _ d (g 0)) by (now rewrite length_map, length_seq).
  rewrite map_nth. now rewrite seq_nth.
Qed.

Section BufferFacts.

Context {A : Type} {SA : Scalar A}.

Lemma upd_length (n : nat) (v : A) (l : list A) : length (upd n v l) = length l.
Proof.
  revert n; induction l as [| a l IH]; intros [| n]; simpl; auto.
Qed.

Lemma nth_upd_same (n : nat) (v d : A) (l : list A) :
  n < length l -> nth n (upd n v l) d = v.
Proof.
  revert n; induction l as [| a l IH]; intros [| n] Hn; simpl in *; try lia; auto.
  apply IH; lia.
Qed.

Lemma nth_upd_other (n m : nat) (v d : A) (l : list A) :
  n <> m -> nth m (upd n v l) d = nth m l d.
Proof.
  revert n m; induction l as [| a l IH]; intros [| n] [| m] Hnm; simpl; auto; try lia.
Qed.

Lemma upd_upd (n : nat) (v w : A) (l : list A) : upd n w (upd n v l) = upd n w l.
Proof.
  revert n; induction l as [| a l IH]; intros [| n]; simpl; auto.
  now rewrite IH.
Qed.

Lemma ld_in (buf : list A) (i : Z) :
  (0 <= i < Z.of_nat (length buf))%Z -> ld buf i = Some (rd buf i).
Proof.
  intros Hi. unfold ld, rd.
  destruct (Z.ltb_spec i 0); [lia |].
  apply nth_error_nth'. lia.
Qed.

Lemma st_in (buf : list A) (i : Z) (v : A) :
  (0 <= i < Z.of_nat (length buf))%Z -> st buf i v = Some (upd (Z.to_nat i) v buf).
Proof.
  intros Hi. unfold st.
  destruct (Z.leb_spec 0 i); [| lia].
  destruct (Z.ltb_spec i (Z.of_nat (length buf))); [reflexivity | lia].
Qed.

Lemma rd_upd_same (buf : list A) (i : Z) (v : A) :
  (0 <= i < Z.of_nat (length buf))%Z -> rd (upd (Z.to_nat i) v buf) i = v.
Proof. intros. unfold rd. apply nth_upd_same. lia. Qed.

Lemma rd_upd_other (buf : list A) (i j : Z) (v : A) :
  (0 <= i)%Z -> (0 <= j)%Z -> i <> j -> rd (upd (Z.to_nat i) v buf) j = rd buf j.
Proof. intros. unfold rd. apply nth_upd_other. lia. Qed.

End BufferFacts.

(** * The forward kernel *)

Section ForwardKernel.

Context {A : Type} {SA : Scalar A}.

Add Ring scalar_ring_fwd : (@scalar_ring A SA).

Local Open Scope Z_scope.

Variables (f x : list A) (SEQ BATCH HIDDEN : Z).
Hypothesis HSEQ : 0 <= SEQ.
Hypothesis Hmax : (SEQ + 1) * HIDDEN * BATCH < 2 ^ 31.
Hypothesis Hf : Z.of_nat (length f) = SEQ * HIDDEN * BATCH.
Hypothesis Hx : Z.of_nat (length x) = SEQ * HIDDEN * BATCH.

Local Abbreviation o := (off HIDDEN BATCH).
Local Abbreviation fwd_value := (fwd_value f x BATCH HIDDEN).
Local Abbreviation lane_recurrence := (lane_recurrence f x SEQ BATCH HIDDEN).
Local Abbreviation off_lane := (off_lane SEQ BATCH HIDDEN).
Local Abbreviation in_range := (in_range BATCH HIDDEN).

Lemma fwd_body_spec (bid hid ts : Z) (dst : list A) :
  0 <= bid < BATCH -> 0 <= hid < HIDDEN -> 1 <= ts <= SEQ ->
  Z.of_nat (length dst) = (SEQ + 1) * HIDDEN * BATCH ->
  fwd_body f x BATCH HIDDEN bid hid ts dst
  = Some (upd (Z.to_nat (o bid hid ts))
              (fwd_value bid hid ts (rd dst (o bid hid (ts - 1)))) dst).
Proof.
  intros Hb Hh Hts Hd.
  assert (B1 := @off_bounds SEQ BATCH HIDDEN bid hid (ts - 1) ltac:(lia) Hb Hh).
  assert (B2 := @off_bounds SEQ BATCH HIDDEN bid hid ts ltac:(lia) Hb Hh).
  assert (Hne : o bid hid ts <> o bid hid (ts - 1)).
  { intros E. apply off_inj in E; auto. lia. }
  unfold fwd_body, int_sub.
  rewrite (wrap_small (ts - 1)) by nia.
  rewrite (wrap_small (ts - 0)) by nia.
  rewrite Z.sub_0_r.
  rewrite !(@lane_offset_exact SEQ) by (auto; lia).
  rewrite (ld_in f) by nia.
  rewrite (ld_in x) by nia.
  rewrite st_in by nia.
  rewrite !ld_in by (rewrite upd_length; nia).
  rewrite st_in by (rewrite upd_length; nia).
  rewrite rd_upd_same by nia.
  rewrite rd_upd_other by (auto; nia).
  rewrite upd_upd. reflexivity.
Qed.


Lemma fwd_loop_spec (bid hid : Z) (fuel : nat) :
  0 <= bid < BATCH -> 0 <= hid < HIDDEN ->
  forall (ts : Z) (dst : list A),
  1 <= ts <= SEQ + 1 -> (Z.to_nat (SEQ + 1 - ts) < fuel)%nat ->
  Z.of_nat (length dst) = (SEQ + 1) * HIDDEN * BATCH ->
  exists dst',
    fwd_loop fuel f x SEQ BATCH HIDDEN bid hid ts dst = Some dst' /\
    length dst' = length dst /\
    (forall k, off_lane bid hid ts k -> nth k dst' s0 = nth k dst s0) /\
    lane_recurrence bid hid ts dst'.
Proof.
  intros Hb Hh.
  assert (Hn : 1 <= HIDDEN * BATCH) by nia.
  assert (Hsmall : SEQ + 1 < 2 ^ 31).
  { apply Z.le_lt_trans with ((SEQ + 1) * HIDDEN * BATCH); [| exact Hmax].
    rewrite <- Z.mul_assoc. nia. }
  assert (HS : int_add SEQ 1 = SEQ + 1) by (apply wrap_small; lia).
  induction fuel as [| fuel IH]; intros ts dst Hts Hfuel Hd; [lia |].
  cbn [fwd_loop]. rewrite HS.
  destruct (Z.ltb_spec ts (SEQ + 1)) as [Hlt | Hge].
  - rewrite fwd_body_spec by (auto; lia).
    set (dst1 := upd _ _ dst).
    assert (Hinc : int_add ts 1 = ts + 1) by (apply wrap_small; lia).
    rewrite Hinc.
    destruct (IH (ts + 1) dst1) as (dst' & Hrun & Hlen & Hframe & Hrec).
    + lia.
    + lia.
    + unfold dst1. rewrite upd_length. exact Hd.
    + assert (B1 := @off_bounds SEQ BATCH HIDDEN bid hid (ts - 1) ltac:(lia) Hb Hh).
      assert (B2 := @off_bounds SEQ BATCH HIDDEN bid hid ts ltac:(lia) Hb Hh).
      assert (Hkeep : forall t', 0 <= t' <= ts -> rd dst' (o bid hid t') = rd dst1 (o bid hid t')).
      { intros t' Ht'. apply Hframe. intros t Ht E.
        assert (B3 := @off_bounds SEQ BATCH HIDDEN bid hid t' ltac:(lia) Hb Hh).
        assert (B4 := @off_bounds SEQ BATCH HIDDEN bid hid t ltac:(lia) Hb Hh).
        assert (0 <= t' * (HIDDEN * BATCH)) by nia.
        assert (0 <= t * (HIDDEN * BATCH)) by nia.
        assert (E' : o bid hid t' = o bid hid t) by lia.
        apply off_inj in E'; auto. lia. }
      exists dst'. split; [exact Hrun |]. split.
      { rewrite Hlen. unfold dst1. apply upd_length. }
      split.
      { intros k Hk. rewrite Hframe.
        - unfold dst1. apply nth_upd_other. intros E. apply (Hk ts); [lia | auto].
        - intros t Ht. apply Hk. lia. }
      intros t Ht. destruct (Z.eq_dec t ts) as [-> | Hne].
      * rewrite !Hkeep by lia. unfold dst1.
        rewrite rd_upd_same by nia.
        rewrite rd_upd_other; [reflexivity | nia | nia |].
        intros E. apply off_inj in E; auto. lia.
      * apply Hrec. lia.
  - exists dst. split; [reflexivity |]. split; [reflexivity |].
    split; [reflexivity |].
    intros t Ht. lia.
Qed.

Lemma fwd_thread_spec (th : thread) (dst : list A) :
  nonneg th ->
  Z.of_nat (length dst) = (SEQ + 1) * HIDDEN * BATCH ->
  exists dst',
    recurrent_forget_mult f x SEQ BATCH HIDDEN th dst = Some dst' /\
    length dst' = length dst /\
    (forall k, (in_range th -> off_lane (thread_bid th) (thread_hid th) 1 k) ->
               nth k dst' s0 = nth k dst s0) /\
    (in_range th -> lane_recurrence (thread_bid th) (thread_hid th) 1 dst').
Proof.
  intros [Hb0 Hh0] Hd. unfold recurrent_forget_mult.
  destruct (thread_hid th >=? HIDDEN) eqn:Eh; cbn [orb].
  { apply Z.geb_le in Eh. exists dst. repeat split; auto. intros [_ ?]. lia. }
  destruct (thread_bid th >=? BATCH) eqn:Eb; cbn [orb].
  { apply Z.geb_le in Eb. exists dst. repeat split; auto. intros [? _]. lia. }
  rewrite Z.geb_leb in Eh, Eb. apply Z.leb_gt in Eh, Eb.
  rename Eh into Hh, Eb into Hb.
  assert (H1 : int_add 0 1 = 1) by reflexivity.
  rewrite H1.
  destruct (@fwd_loop_spec (thread_bid th) (thread_hid th) (S (Z.to_nat SEQ))
              ltac:(lia) ltac:(lia) 1 dst ltac:(lia) ltac:(lia) Hd)
    as (dst' & Hrun & Hlen & Hframe & Hrec).
  exists dst'. repeat split; auto.
  intros k Hk. apply Hframe. apply Hk. split; lia.
Qed.

Lemma launch_app {S : Type} (k : thread -> S -> option S) (ths1 ths2 : list thread) (s : S) :
  launch k (ths1 ++ ths2) s
  = match launch k ths1 s with Some s' => launch k ths2 s' | None => None end.
Proof.
  revert s; induction ths1 as [| th ths1 IH]; intros s; simpl; [reflexivity |].
  destruct (k th s); auto.
Qed.

(** A whole launch: every lane some thread works on ends up obeying the
    recurrence, and row 0 of [dst] (the initial state) is left alone. *)
Lemma fwd_launch_spec (ths : list thread) (dst : list A) :
  Forall nonneg ths ->
  Z.of_nat (length dst) = (SEQ + 1) * HIDDEN * BATCH ->
  exists dst',
    launch (recurrent_forget_mult f x SEQ BATCH HIDDEN) ths dst = Some dst' /\
    length dst' = length dst /\
    (forall k, Z.of_nat k < HIDDEN * BATCH -> nth k dst' s0 = nth k dst s0) /\
    (forall bid hid, 0 <= bid < BATCH -> 0 <= hid < HIDDEN -> covered ths bid hid ->
                     lane_recurrence bid hid 1 dst').
Proof.
  induction ths as [| th ths IH] using rev_ind; intros Hnn Hd.
  - exists dst. simpl. repeat split; auto.
    intros bid hid _ _ (th & [] & _).
  - apply Forall_app in Hnn. destruct Hnn as [Hnn Hth].
    inversion Hth as [| ? ? Hth1 _]; subst.
    destruct (IH Hnn Hd) as (dst1 & Hrun1 & Hlen1 & Hrow1 & Hrec1).
    destruct (@fwd_thread_spec th dst1 Hth1 ltac:(rewrite Hlen1; exact Hd))
      as (dst' & Hrun & Hlen & Hframe & Hrec).
    exists dst'. rewrite launch_app, Hrun1. simpl. rewrite Hrun.
    split; [reflexivity |]. split; [congruence |]. split.
    + intros k Hk. rewrite Hframe; [apply Hrow1; exact Hk |].
      intros [Hb Hh] t Ht E.
      assert (B := @off_bounds SEQ BATCH HIDDEN _ _ t ltac:(lia) Hb Hh). nia.
    + intros bid hid Hb Hh Hcov.
      assert (Hlane : (thread_bid th = bid /\ thread_hid th = hid)
                      \/ (thread_bid th <> bid \/ thread_hid th <> hid)) by lia.
      destruct Hlane as [[<- <-] | Hdiff]; [apply Hrec; split; assumption |].
      assert (Hcov1 : covered ths bid hid).
      { destruct Hcov as (th' & Hin & Eb' & Eh').
        apply in_app_or in Hin. destruct Hin as [Hin | [<- | []]]; [| lia].
        exists th'; auto. }
      assert (Hkeep : forall t, 0 <= t <= SEQ ->
                rd dst' (o bid hid t) = rd dst1 (o bid hid t)).
      { intros t Ht. apply Hframe. intros [Hb' Hh'] t' Ht' E.
        apply off_to_nat_inj in E; auto; lia. }
      intros t Ht. rewrite !Hkeep by lia.
      apply (Hrec1 bid hid Hb Hh Hcov1 t Ht).
Qed.

End ForwardKernel.

(** * The spec's scan, unfolded *)

Section AdjointFacts.

Context {A : Type} {SA : Scalar A}.

Lemma adjoint_scan_cons (s : lane_step A) (later : list (lane_step A)) :
  adjoint_scan (s :: later)
  = ((step_F s * (snd (adjoint_scan later) + step_gH s),
      (step_X s - step_Hprev s) * (snd (adjoint_scan later) + step_gH s))%S
       :: fst (adjoint_scan later),
     attenuate (step_F s) (snd (adjoint_scan later) + step_gH s)%S).
Proof.
  simpl. destruct (adjoint_scan later) as [outs acc]. reflexivity.
Qed.

Lemma skipn_nth_cons {T : Type} (l : list T) (r : nat) (d : T) :
  r < length l -> skipn r l = nth r l d :: skipn (S r) l.
Proof.
  revert r; induction l as [| a l IH]; intros [| r] Hr; simpl in *; try lia; auto.
  apply IH. lia.
Qed.

(** Output [r] of the scan, from the accumulator left by the later steps. *)
Lemma adjoint_scan_nth (l : list (lane_step A)) (r : nat) (d : lane_step A) (d' : A * A) :
  r < length l ->
  let acc1 := (snd (adjoint_scan (skipn (S r) l)) + step_gH (nth r l d))%S in
  nth r (fst (adjoint_scan l)) d'
  = (step_F (nth r l d) * acc1, (step_X (nth r l d) - step_Hprev (nth r l d)) * acc1)%S.
Proof.
  revert r; induction l as [| s l IH]; intros r Hr; simpl in Hr; [lia |].
  rewrite adjoint_scan_cons. destruct r as [| r]; [reflexivity |].
  cbn [fst nth skipn]. apply IH. lia.
Qed.

Lemma adjoint_scan_length (l : list (lane_step A)) :
  length (fst (adjoint_scan l)) = length l.
Proof.
  induction l as [| s l IH]; [reflexivity |].
  rewrite adjoint_scan_cons. simpl. now rewrite IH.
Qed.

End AdjointFacts.

(** * The backward kernel *)

Section BackwardKernel.

Context {A : Type} {SA : Scalar A}.

Local Open Scope Z_scope.

Variables (h f x gh : list A) (SEQ BATCH HIDDEN : Z).
Hypothesis HSEQ : 0 <= SEQ.
Hypothesis Hmax : (SEQ + 1) * HIDDEN * BATCH < 2 ^ 31.
Hypothesis Hh : Z.of_nat (length h) = (SEQ + 1) * HIDDEN * BATCH.
Hypothesis Hf : Z.of_nat (length f) = SEQ * HIDDEN * BATCH.
Hypothesis Hx : Z.of_nat (length x) = SEQ * HIDDEN * BATCH.
Hypothesis Hgh : Z.of_nat (length gh) = SEQ * HIDDEN * BATCH.

Local Abbreviation o := (off HIDDEN BATCH).
Local Abbreviation steps := (lane_steps f x SEQ BATCH HIDDEN h gh).
Local Abbreviation bwd_sized := (bwd_sized SEQ BATCH HIDDEN).
Local Abbreviation bwd_same_elsewhere := (bwd_same_elsewhere SEQ BATCH HIDDEN).

Lemma bwd_body_spec (bid hid ts : Z) (s : bwd_state) :
  0 <= bid < BATCH -> 0 <= hid < HIDDEN -> 1 <= ts <= SEQ ->
  Z.of_nat (length (gf s)) = SEQ * HIDDEN * BATCH ->
  Z.of_nat (length (gx s)) = SEQ * HIDDEN * BATCH ->
  let i := o bid hid (ts - 1) in
  let r1 := (running_f s + rd gh i)%S in
  bwd_body h f x gh BATCH HIDDEN bid hid ts s
  = Some {| gf := upd (Z.to_nat i) ((rd x i - rd h i) * r1)%S (gf s);
            gx := upd (Z.to_nat i) (rd f i * r1)%S (gx s);
            running_f := attenuate (rd f i) r1 |}.
Proof.
  intros Hb Hhd Hts Hgf Hgx i r1.
  assert (B1 := @off_bounds SEQ BATCH HIDDEN bid hid (ts - 1) ltac:(lia) Hb Hhd).
  assert (N1 := @off_nonneg BATCH HIDDEN bid hid (ts - 1) Hb Hhd ltac:(lia)).
  assert (Hn : 1 <= HIDDEN * BATCH) by nia.
  assert (Hsmall : SEQ + 1 < 2 ^ 31).
  { apply Z.le_lt_trans with ((SEQ + 1) * HIDDEN * BATCH); [| exact Hmax].
    rewrite <- Z.mul_assoc. nia. }
  assert (Hi : i < SEQ * HIDDEN * BATCH) by (unfold i; nia).
  unfold bwd_body, int_sub.
  rewrite (wrap_small (ts - 1)) by lia.
  rewrite !(@lane_offset_exact SEQ) by (auto; lia).
  fold i.
  rewrite (ld_in gh) by lia.
  rewrite !(ld_in f) by lia.
  rewrite (st_in (gx s)) by lia.
  rewrite (ld_in x) by lia.
  rewrite (ld_in h) by nia.
  rewrite (st_in (gf s)) by lia.
  reflexivity.
Qed.

Lemma steps_length (bid hid : Z) : length (steps bid hid) = Z.to_nat SEQ.
Proof. unfold lane_steps. now rewrite length_map, length_seq. Qed.

Lemma steps_nth (bid hid : Z) (r : nat) (d : lane_step A) :
  (r < Z.to_nat SEQ)%nat ->
  nth r (steps bid hid) d
  = {| step_F := rd f (o bid hid (Z.of_nat r));
       step_X := rd x (o bid hid (Z.of_nat r));
       step_Hprev := rd h (o bid hid (Z.of_nat r));
       step_gH := rd gh (o bid hid (Z.of_nat r)) |}.
Proof.
  intros Hr. unfold lane_steps. now rewrite nth_map_seq.
Qed.

Lemma bwd_loop_spec (bid hid : Z) (fuel : nat) :
  0 <= bid < BATCH -> 0 <= hid < HIDDEN ->
  forall (ts : Z) (s : bwd_state),
  0 <= ts <= SEQ -> (Z.to_nat ts < fuel)%nat ->
  Z.of_nat (length (gf s)) = SEQ * HIDDEN * BATCH ->
  Z.of_nat (length (gx s)) = SEQ * HIDDEN * BATCH ->
  running_f s = snd (adjoint_scan (skipn (Z.to_nat ts) (steps bid hid))) ->
  exists s',
    bwd_loop fuel h f x gh BATCH HIDDEN bid hid ts s = Some s' /\
    length (gf s') = length (gf s) /\
    length (gx s') = length (gx s) /\
    running_f s' = snd (adjoint_scan (steps bid hid)) /\
    (forall k, (forall r, 0 <= r < ts -> k <> Z.to_nat (o bid hid r)) ->
       nth k (gf s') s0 = nth k (gf s) s0 /\ nth k (gx s') s0 = nth k (gx s) s0) /\
    (forall r, (r < Z.to_nat ts)%nat ->
       rd (gx s') (o bid hid (Z.of_nat r))
       = fst (nth r (fst (adjoint_scan (steps bid hid))) (s0, s0)) /\
       rd (gf s') (o bid hid (Z.of_nat r))
       = snd (nth r (fst (adjoint_scan (steps bid hid))) (s0, s0))).
Proof.
  intros Hb Hhd.
  assert (Hn : 1 <= HIDDEN * BATCH) by nia.
  assert (Hsmall : SEQ + 1 < 2 ^ 31).
  { apply Z.le_lt_trans with ((SEQ + 1) * HIDDEN * BATCH); [| exact Hmax].
    rewrite <- Z.mul_assoc. nia. }
  assert (H1 : int_add 0 1 = 1) by reflexivity.
  induction fuel as [| fuel IH]; intros ts s Hts Hfuel Hgf Hgx Hacc; [lia |].
  cbn [bwd_loop]. rewrite H1.
  destruct (ts >=? 1) eqn:Ege.
  - apply Z.geb_le in Ege.
    rewrite bwd_body_spec by (auto; lia).
    set (i := o bid hid (ts - 1)).
    set (r1 := (running_f s + rd gh i)%S).
    set (s1 := {| gf := _; gx := _; running_f := _ |}).
    assert (Hdec : int_sub ts 1 = ts - 1) by (apply wrap_small; lia).
    rewrite Hdec.
    assert (Hrow : (Z.to_nat (ts - 1) < Z.to_nat SEQ)%nat) by lia.
    assert (Hskip := @skipn_nth_cons _ (steps bid hid) (Z.to_nat (ts - 1))
                       (mkStep s0 s0 s0 s0) ltac:(rewrite steps_length; exact Hrow)).
    rewrite steps_nth in Hskip by exact Hrow.
    replace (S (Z.to_nat (ts - 1))) with (Z.to_nat ts) in Hskip by lia.
    rewrite Z2Nat.id in Hskip by lia. fold i in Hskip.
    assert (B1 := @off_bounds SEQ BATCH HIDDEN bid hid (ts - 1) ltac:(lia) Hb Hhd).
    assert (N1 := @off_nonneg BATCH HIDDEN bid hid (ts - 1) Hb Hhd ltac:(lia)).
    fold i in B1, N1.
    assert (Hi : i < SEQ * HIDDEN * BATCH) by nia.
    destruct (IH (ts - 1) s1) as (s' & Hrun & Hlgf & Hlgx & Hfin & Hframe & Hout).
    + lia.
    + lia.
    + unfold s1; cbn [gf]. rewrite upd_length. exact Hgf.
    + unfold s1; cbn [gx]. rewrite upd_length. exact Hgx.
    + unfold s1; cbn [running_f]. rewrite Hskip, adjoint_scan_cons.
      cbn [snd step_F step_gH]. rewrite <- Hacc. reflexivity.
    + exists s'. split; [exact Hrun |].
      split; [rewrite Hlgf; unfold s1; cbn [gf]; apply upd_length |].
      split; [rewrite Hlgx; unfold s1; cbn [gx]; apply upd_length |].
      split; [exact Hfin |]. split.
      * intros k Hk. destruct (Hframe k) as [Fgf Fgx].
        { intros r Hr. apply Hk. lia. }
        rewrite Fgf, Fgx. unfold s1; cbn [gf gx].
        assert (Z.to_nat i <> k) by (intros E; apply (Hk (ts - 1)); [lia | auto]).
        split; apply nth_upd_other; assumption.
      * intros r Hr. destruct (Nat.eq_dec r (Z.to_nat (ts - 1))) as [-> | Hne].
        -- rewrite Z2Nat.id by lia. fold i.
           destruct (Hframe (Z.to_nat i)) as [Fgf Fgx].
           { intros r Hr' E. apply off_to_nat_inj in E; auto; lia. }
           unfold rd. rewrite Fgf, Fgx. unfold s1; cbn [gf gx].
           rewrite !nth_upd_same by lia.
           rewrite (@adjoint_scan_nth _ _ (steps bid hid) (Z.to_nat (ts - 1))
                      (mkStep s0 s0 s0 s0) (s0, s0))
             by (rewrite steps_length; exact Hrow).
           cbn zeta. rewrite steps_nth by exact Hrow.
           replace (S (Z.to_nat (ts - 1))) with (Z.to_nat ts) by lia.
           rewrite Z2Nat.id by lia. fold i. cbn [step_F step_X step_Hprev step_gH fst snd].
           rewrite <- Hacc. fold r1. split; reflexivity.
        -- apply Hout. lia.
  - rewrite Z.geb_leb in Ege. apply Z.leb_gt in Ege.
    assert (ts = 0) by lia. subst ts.
    exists s. split; [reflexivity |]. split; [reflexivity |]. split; [reflexivity |].
    split; [exact Hacc |]. split; [auto |].
    intros r Hr. simpl in Hr. lia.
Qed.

Lemma bwd_thread_spec (th : thread) (out : list A * list A * list A) :
  nonneg th -> bwd_sized out ->
  exists out',
    bwd_recurrent_forget_mult h f x gh SEQ BATCH HIDDEN th out = Some out' /\
    bwd_sized out' /\
    (in_range BATCH HIDDEN th ->
       bwd_same_elsewhere (thread_bid th) (thread_hid th) out out' /\
       lane_adjoint f x SEQ BATCH HIDDEN h gh (thread_bid th) (thread_hid th) out') /\
    (~ in_range BATCH HIDDEN th -> out' = out).
Proof.
  intros [Hb0 Hh0] Hsz. destruct out as [[gf0 gx0] ghinit].
  destruct Hsz as (Hgf & Hgx & Hgi). cbn [fst snd] in Hgf, Hgx, Hgi.
  unfold bwd_recurrent_forget_mult.
  destruct (thread_hid th >=? HIDDEN) eqn:Eh; cbn [orb].
  { apply Z.geb_le in Eh. exists (gf0, gx0, ghinit).
    split; [reflexivity |]. split; [repeat split; assumption |].
    split; [intros [_ ?]; lia | reflexivity]. }
  destruct (thread_bid th >=? BATCH) eqn:Eb; cbn [orb].
  { apply Z.geb_le in Eb. exists (gf0, gx0, ghinit).
    split; [reflexivity |]. split; [repeat split; assumption |].
    split; [intros [? _]; lia | reflexivity]. }
  rewrite Z.geb_leb in Eh, Eb. apply Z.leb_gt in Eh, Eb.
  set (bid := thread_bid th) in *. set (hid := thread_hid th) in *.
  assert (Hb : 0 <= bid < BATCH) by lia.
  assert (Hhd : 0 <= hid < HIDDEN) by lia.
  assert (Hn : 1 <= HIDDEN * BATCH) by nia.
  assert (Hsmall : SEQ + 1 < 2 ^ 31).
  { apply Z.le_lt_trans with ((SEQ + 1) * HIDDEN * BATCH); [| exact Hmax].
    rewrite <- Z.mul_assoc. nia. }
  assert (Hinit : int_add (int_sub SEQ 1) 1 = SEQ).
  { unfold int_add, int_sub. rewrite (wrap_small (SEQ - 1)) by lia.
    rewrite wrap_small by lia. lia. }
  rewrite Hinit.
  destruct (@bwd_loop_spec bid hid (S (Z.to_nat SEQ)) Hb Hhd SEQ
              {| gf := gf0; gx := gx0; running_f := s0 |})
    as (s' & Hrun & Hlgf & Hlgx & Hfin & Hframe & Hout).
  - lia.
  - lia.
  - exact Hgf.
  - exact Hgx.
  - cbn [running_f]. rewrite skipn_all2 by (rewrite steps_length; lia). reflexivity.
  - rewrite Hrun. cbn [gf gx] in Hlgf, Hlgx.
    assert (Hidx : int_add (int_mul bid HIDDEN) hid = bid * HIDDEN + hid).
    { unfold int_add, int_mul. rewrite (wrap_small (bid * HIDDEN)) by nia.
      apply wrap_small. nia. }
    rewrite Hidx.
    assert (Hlane : 0 <= bid * HIDDEN + hid < HIDDEN * BATCH) by nia.
    rewrite st_in by lia.
    eexists. split; [reflexivity |]. split.
    { unfold bwd_sized; cbn [fst snd]. rewrite Hlgf, Hlgx, upd_length. auto. }
    split; [| intros Hnot; exfalso; apply Hnot; split; assumption].
    intros _. split.
    + split; cbn [fst snd].
      * intros k Hk. apply (Hframe k Hk).
      * intros k Hk. apply nth_upd_other. auto.
    + unfold lane_adjoint. cbn zeta. split.
      * intros r Hr. apply Hout. exact Hr.
      * rewrite rd_upd_same by lia. exact Hfin.
Qed.

(** A whole launch of the backward kernel: every lane some thread works on
    holds the outputs of the spec's scan. *)
Lemma bwd_launch_spec (ths : list thread) (out : list A * list A * list A) :
  Forall nonneg ths -> bwd_sized out ->
  exists out',
    launch (bwd_recurrent_forget_mult h f x gh SEQ BATCH HIDDEN) ths out = Some out' /\
    bwd_sized out' /\
    (forall bid hid, 0 <= bid < BATCH -> 0 <= hid < HIDDEN -> covered ths bid hid ->
       lane_adjoint f x SEQ BATCH HIDDEN h gh bid hid out').
Proof.
  induction ths as [| th ths IH] using rev_ind; intros Hnn Hsz.
  - exists out. split; [reflexivity |]. split; [exact Hsz |].
    intros bid hid _ _ (th & [] & _).
  - apply Forall_app in Hnn. destruct Hnn as [Hnn Hth].
    inversion Hth as [| ? ? Hth1 _]; subst.
    destruct (IH Hnn Hsz) as (out1 & Hrun1 & Hsz1 & Hadj1).
    destruct (@bwd_thread_spec th out1 Hth1 Hsz1) as (out' & Hrun & Hsz' & Hin & Hnot).
    exists out'. rewrite launch_app, Hrun1. cbn [launch]. rewrite Hrun.
    split; [reflexivity |]. split; [exact Hsz' |].
    intros bid hid Hb Hhd Hcov.
    assert (Hlane : (thread_bid th = bid /\ thread_hid th = hid)
                    \/ (thread_bid th <> bid \/ thread_hid th <> hid)) by lia.
    destruct Hlane as [[<- <-] | Hdiff]; [apply Hin; split; assumption |].
    assert (Hcov1 : covered ths bid hid).
    { destruct Hcov as (th' & Hi & Eb' & Eh').
      apply in_app_or in Hi. destruct Hi as [Hi | [<- | []]]; [| lia].
      exists th'; auto. }
    specialize (Hadj1 bid hid Hb Hhd Hcov1).
    assert (Hdec : in_range BATCH HIDDEN th \/ ~ in_range BATCH HIDDEN th).
    { unfold in_range. lia. }
    destruct Hdec as [Hr | Hr]; [| rewrite (Hnot Hr); exact Hadj1].
    destruct (Hin Hr) as [[Hfr1 Hfr2] _]. destruct Hr as [Hb' Hh'].
    destruct out1 as [[gf1 gx1] gi1]. destruct out' as [[gf' gx'] gi'].
    cbn [fst snd] in Hfr1, Hfr2. unfold lane_adjoint in *. cbn zeta in *.
    destruct Hadj1 as [Hrows Hacc]. split.
    + intros r Hlt. unfold rd.
      destruct (Hfr1 (Z.to_nat (o bid hid (Z.of_nat r)))) as [Egf Egx].
      { intros r' Hr' E. apply off_to_nat_inj in E; auto; lia. }
      rewrite Egf, Egx. apply Hrows. exact Hlt.
    + unfold rd. rewrite Hfr2; [exact Hacc |]. intros E.
      assert (E' : Z.to_nat (o bid hid 0) = Z.to_nat (o (thread_bid th) (thread_hid th) 0))
        by (unfold off; lia).
      apply off_to_nat_inj in E'; auto; lia.
Qed.

End BackwardKernel.

(** * Facts about shapes and broadcasting *)

Section ShapeFacts.

Context {A : Type} {SA : Scalar A}.

Lemma unravel_length (s : list nat) (k : nat) : length (unravel s k) = length s.
Proof.
  revert k; induction s as [| d s IH]; intros k; simpl; auto.
Qed.

(** Unravelling an offset and ravelling it back, through the extent-1
    rule, gives the offset again. *)
Lemma ravel_clamp_unravel (s : list nat) (k : nat) :
  k < numel s -> ravel s (clamp s (unravel s k)) = k.
Proof.
  revert k; induction s as [| d s IH]; intros k Hk.
  - simpl in *. lia.
  - cbn [numel fold_right] in Hk. fold (numel s) in Hk.
    assert (Hn : numel s <> 0) by (intros E; rewrite E in Hk; lia).
    cbn [unravel clamp ravel].
    rewrite IH by (apply Nat.mod_upper_bound; exact Hn).
    destruct (Nat.eqb_spec d 1) as [-> | Hd].
    + rewrite Nat.mod_small by lia. lia.
    + pose proof (Nat.div_mod_eq k (numel s)). lia.
Qed.

Lemma bcast_offset_same (s : list nat) (k : nat) :
  k < numel s -> bcast_offset s s k = k.
Proof.
  intros Hk. unfold bcast_offset, bcast_index.
  rewrite unravel_length, Nat.sub_diag. cbn [skipn].
  apply ravel_clamp_unravel. exact Hk.
Qed.

(** An operand of shape [s] under a result of shape [1 :: s]. *)
Lemma bcast_offset_row (s : list nat) (k : nat) :
  k < numel s -> bcast_offset s (1 :: s) k = k.
Proof.
  intros Hk. unfold bcast_offset, bcast_index.
  cbn [unravel length]. rewrite unravel_length.
  replace (S (length s) - length s) with 1 by lia. cbn [skipn].
  rewrite Nat.mod_small by exact Hk.
  apply ravel_clamp_unravel. exact Hk.
Qed.

Lemma bshape_rev_same (l : list nat) : bshape_rev l l = Some l.
Proof.
  induction l as [| d l IH]; [reflexivity |].
  simpl. rewrite Nat.eqb_refl, IH. reflexivity.
Qed.

Lemma bshape_rev_longer (l t : list nat) : bshape_rev (l ++ t) l = Some (l ++ t).
Proof.
  induction l as [| d l IH]; simpl.
  - destruct t; reflexivity.
  - rewrite Nat.eqb_refl, IH. reflexivity.
Qed.

Lemma broadcast_shapes_same (s : list nat) : broadcast_shapes s s = Some s.
Proof.
  unfold broadcast_shapes. rewrite bshape_rev_same. simpl.
  now rewrite rev_involutive.
Qed.

(** A shape against the same shape with one more leading dimension. *)
Lemma broadcast_shapes_lead (d : nat) (s : list nat) :
  broadcast_shapes (d :: s) s = Some (d :: s).
Proof.
  unfold broadcast_shapes. cbn [rev]. rewrite bshape_rev_longer. simpl.
  rewrite rev_app_distr, rev_involutive. reflexivity.
Qed.

(** Elementwise operators on operands of one shape. *)
Lemma binop_same (op : A -> A -> A) (a b : Tensor A) (s : list nat) :
  size a = s -> size b = s -> is_cuda a = is_cuda b ->
  binop op a b
  = Ok {| size := s;
          data := map (fun k => op (nth k (data a) s0) (nth k (data b) s0))
                      (seq 0 (numel s));
          is_cuda := is_cuda a |}.
Proof.
  intros Ha Hb Hdev. unfold binop.
  rewrite Hdev, Bool.eqb_reflx, Ha, Hb, broadcast_shapes_same. cbn [negb].
  f_equal. f_equal.
  apply map_ext_in. intros k Hk. apply in_seq in Hk.
  rewrite !bcast_offset_same by lia. reflexivity.
Qed.

(** A row of shape [1 :: s] against a matrix of shape [s]. *)
Lemma binop_row (op : A -> A -> A) (a b : Tensor A) (s : list nat) :
  size a = 1 :: s -> size b = s -> is_cuda a = is_cuda b ->
  binop op a b
  = Ok {| size := 1 :: s;
          data := map (fun k => op (nth k (data a) s0) (nth k (data b) s0))
                      (seq 0 (numel s));
          is_cuda := is_cuda a |}.
Proof.
  intros Ha Hb Hdev. unfold binop.
  rewrite Hdev, Bool.eqb_reflx, Ha, Hb, broadcast_shapes_lead. cbn [negb].
  assert (Hn : numel (1 :: s) = numel s) by (cbn [numel fold_right]; fold (numel s); lia).
  rewrite Hn. f_equal. f_equal.
  apply map_ext_in. intros k Hk. apply in_seq in Hk.
  rewrite bcast_offset_same by lia. rewrite bcast_offset_row by lia. reflexivity.
Qed.

Lemma nth_concat_uniform {T : Type} (n : nat) (ls : list (list T)) (t j : nat) (d : T) :
  Forall (fun l => length l = n) ls -> t < length ls -> j < n ->
  nth (t * n + j) (concat ls) d = nth j (nth t ls []) d.
Proof.
  revert t; induction ls as [| l ls IH]; intros t Hall Ht Hj; simpl in Ht; [lia |].
  inversion Hall as [| ? ? Hl Hall']; subst.
  destruct t as [| t]; cbn [concat nth].
  - simpl. apply app_nth1. lia.
  - rewrite app_nth2 by lia.
    replace (S t * length l + j - length l) with (t * length l + j) by lia.
    apply IH; auto. lia.
Qed.

Lemma length_concat_uniform {T : Type} (n : nat) (ls : list (list T)) :
  Forall (fun l => length l = n) ls -> length (concat ls) = length ls * n.
Proof.
  induction 1 as [| l ls Hl _ IH]; [reflexivity |].
  cbn [concat length]. rewrite length_app, IH, Hl. lia.
Qed.

End ShapeFacts.

(** * [CPUForgetMult.forward] computes the recurrence *)

Section CPUForward.

Context {A : Type} {SA : Scalar A}.

Add Ring scalar_ring_cpu : (@scalar_ring A SA).

Variables (F X : Tensor A) (T : nat) (s : list nat).
Hypothesis HsF : size F = T :: s.
Hypothesis HsX : size X = T :: s.
Hypothesis HwF : wf F.
Hypothesis HwX : wf X.
Hypothesis Hdev : is_cuda F = is_cuda X.

Local Abbreviation n := (numel s).
Local Abbreviation fxd :=
  (map (fun k => (nth k (data F) s0 * nth k (data X) s0)%S) (seq 0 (numel (T :: s)))).
Local Abbreviation FX :=
  {| size := T :: s; data := fxd; is_cuda := is_cuda F |}.

Lemma numel_cons (d : nat) (l : list nat) : numel (d :: l) = d * numel l.
Proof. reflexivity. Qed.

Lemma tmul_FX : tmul F X = Ok FX.
Proof. unfold tmul. now apply binop_same. Qed.

(** Element [j] of row [i] of a tensor, through the chunk [split] makes. *)
Lemma nth_narrow0 (t : Tensor A) (i j : nat) :
  j < numel (tl (size t)) ->
  nth j (data (narrow0 t i 1)) s0 = nth (i * numel (tl (size t)) + j) (data t) s0.
Proof.
  intros Hj. unfold narrow0. cbn [data].
  rewrite nth_firstn.
  destruct (Nat.ltb_spec j (1 * numel (tl (size t)))); [| lia].
  now rewrite nth_skipn.
Qed.

Lemma length_narrow0 (t : Tensor A) (i : nat) :
  wf t -> i < hd 0 (size t) -> size t <> [] ->
  length (data (narrow0 t i 1)) = numel (tl (size t)).
Proof.
  intros Hw Hi Hne. unfold narrow0. cbn [data].
  rewrite length_firstn, length_skipn. red in Hw. rewrite Hw.
  destruct (size t) as [| d l]; [congruence |].
  cbn [hd tl] in *. rewrite numel_cons. nia.
Qed.

Lemma nth_rsub (c : A) (t : Tensor A) (j : nat) :
  j < length (data t) -> nth j (data (rsub c t)) s0 = (c - nth j (data t) s0)%S.
Proof.
  intros Hj. cbn [rsub data].
  rewrite (nth_indep _ s0 (c - s0)%S) by (now rewrite length_map).
  apply (map_nth (fun v => (c - v)%S)).
Qed.

Lemma split1_rows (t : Tensor A) (d : nat) (l : list nat) :
  size t = d :: l -> 0 < d ->
  split1 t = Ok (map (fun i => narrow0 t i 1) (seq 0 d)).
Proof.
  intros Hs Hd. unfold split1. rewrite Hs. destruct d; [lia | reflexivity].
Qed.

Local Abbreviation row_like := (row_like s (is_cuda F)).

Lemma cpu_step_spec (i : nat) (prev : option (Tensor A)) (res : list (Tensor A)) :
  i < T ->
  match prev with Some p => row_like p | None => True end ->
  exists h2,
    cpu_step (map (fun i => narrow0 F i 1) (seq 0 T)) i (narrow0 FX i 1) (prev, res)
    = Ok (Some h2, res ++ [h2]) /\
    row_like h2 /\
    forall j, j < n ->
      nth j (data h2) s0
      = (nth (i * n + j) (data F) s0 * nth (i * n + j) (data X) s0
         + (s1 - nth (i * n + j) (data F) s0) * prev_value prev j)%S.
Proof.
  intros Hi Hprev.
  assert (Hchunk : forall j, j < n ->
            nth j (data (narrow0 FX i 1)) s0
            = (nth (i * n + j) (data F) s0 * nth (i * n + j) (data X) s0)%S).
  { intros j Hj. rewrite nth_narrow0 by exact Hj. cbn [size tl data].
    rewrite nth_map_seq by (rewrite numel_cons; nia). reflexivity. }
  assert (Hlen : length (data (narrow0 FX i 1)) = n).
  { apply (length_narrow0 FX i).
    - red. cbn [data size]. now rewrite length_map, length_seq.
    - exact Hi.
    - discriminate. }
  assert (Hn1 : numel (1 :: s) = n) by (rewrite numel_cons; lia).
  unfold cpu_step. destruct prev as [p |].
  - destruct Hprev as (Hps & Hpl & Hpd).
    unfold tuple_get.
    rewrite nth_error_map, nth_error_seq.
    destruct (Nat.ltb_spec i T) as [_ | ?]; [| lia].
    cbn [option_map rbind Nat.add].
    unfold tmul. rewrite (binop_row _ (rsub s1 (narrow0 F i 1)) p s).
    2: { cbn [rsub size narrow0]. now rewrite HsF. }
    2: { exact Hps. }
    2: { cbn [rsub is_cuda narrow0]. now rewrite Hpd. }
    cbn [rbind]. unfold tadd. rewrite (binop_same _ _ _ (1 :: s)).
    2: { reflexivity. }
    2: { reflexivity. }
    2: { reflexivity. }
    cbn [rbind]. unfold view. cbn [size tl data is_cuda narrow0].
    rewrite Hn1, Nat.eqb_refl. cbn [rbind].
    eexists. split; [reflexivity |]. split.
    + repeat split; cbn [size data is_cuda]. now rewrite length_map, length_seq.
    + intros j Hj. cbn [data].
      rewrite nth_map_seq by exact Hj. cbn [Nat.add].
      rewrite nth_map_seq by exact Hj. cbn [Nat.add prev_value].
      change (firstn (1 * n) (skipn (i * n) fxd)) with (data (narrow0 FX i 1)).
      rewrite Hchunk by exact Hj.
      rewrite nth_rsub.
      2: { rewrite (length_narrow0 F i); rewrite ?HsF; auto. discriminate. }
      rewrite nth_narrow0 by (rewrite HsF; exact Hj).
      rewrite HsF. reflexivity.
  - cbn [rbind]. unfold view. cbn [size tl data is_cuda narrow0].
    rewrite Hn1, Nat.eqb_refl. cbn [rbind].
    eexists. split; [reflexivity |]. split.
    + repeat split; cbn [size data is_cuda]. exact Hlen.
    + intros j Hj. cbn [data prev_value].
      change (firstn (1 * n) (skipn (i * n) fxd)) with (data (narrow0 FX i 1)).
      rewrite Hchunk by exact Hj. ring.
Qed.

Variable h0 : list A.

Local Abbreviation href := (hidden_ref n (data F) (data X) h0).
Local Abbreviation forgets := (map (fun i => narrow0 F i 1) (seq 0 T)).
Local Abbreviation no_tensor := {| size := []; data := @nil A; is_cuda := false |}.

Lemma cpu_loop_spec (m : nat) :
  forall (i : nat) (prev : option (Tensor A)) (res : list (Tensor A)),
  i + m = T ->
  match prev with Some p => row_like p | None => True end ->
  (forall j, j < n -> prev_value prev j = href i j) ->
  exists prev' res',
    cpu_loop forgets i (map (fun i => narrow0 FX i 1) (seq i m)) (prev, res)
    = Ok (prev', res ++ res') /\
    length res' = m /\
    Forall row_like res' /\
    forall t j, t < m -> j < n ->
      nth j (data (nth t res' no_tensor)) s0 = href (S (i + t)) j.
Proof.
  induction m as [| m IH]; intros i prev res Him Hprev Hval.
  - exists prev, []. cbn [seq map cpu_loop]. rewrite app_nil_r.
    repeat split; auto. intros t j Ht. lia.
  - cbn [seq map cpu_loop].
    destruct (@cpu_step_spec i prev res ltac:(lia) Hprev) as (h2 & Hstep & Hrow & Hh2).
    rewrite Hstep. cbn [rbind].
    assert (Hnext : forall j, j < n -> prev_value (Some h2) j = href (S i) j).
    { intros j Hj. cbn [prev_value hidden_ref]. rewrite Hh2 by exact Hj.
      rewrite Hval by exact Hj. reflexivity. }
    destruct (IH (S i) (Some h2) (res ++ [h2]) ltac:(lia) Hrow Hnext)
      as (prev' & res' & Hrun & Hlen & Hall & Hres).
    exists prev', (h2 :: res'). rewrite Hrun, <- app_assoc. cbn [app].
    split; [reflexivity |]. split; [cbn [length]; lia |].
    split; [constructor; assumption |].
    intros [| t] j Ht Hj; cbn [nth].
    + rewrite Nat.add_0_r. apply Hnext. exact Hj.
    + replace (S (i + S t)) with (S (S i + t)) by lia.
      apply Hres; lia.
Qed.

Lemma stack_rows (ts : list (Tensor A)) :
  ts <> [] -> Forall row_like ts ->
  stack ts = Ok {| size := length ts :: s;
                   data := concat (map data ts);
                   is_cuda := is_cuda F |}.
Proof.
  intros Hne Hall. destruct ts as [| t0 ts]; [congruence |].
  unfold stack.
  assert (H0 : row_like t0) by (inversion Hall; assumption).
  destruct H0 as (Hs0 & _ & Hd0).
  assert (Hchk : forallb (fun t => same_size t0 t && Bool.eqb (is_cuda t0) (is_cuda t))
                         (t0 :: ts) = true).
  { apply forallb_forall. intros t Hin.
    rewrite Forall_forall in Hall. destruct (Hall t Hin) as (Hs & _ & Hd).
    unfold same_size. rewrite Hs0, Hs, Hd0, Hd.
    destruct (list_eq_dec Nat.eq_dec s s); [| congruence].
    now rewrite Bool.eqb_reflx. }
  rewrite Hchk, Hs0, Hd0. reflexivity.
Qed.

(** [CPUForgetMult.forward] on inputs of one shape [T :: s], [T >= 1]:
    it returns, and element [j] of row [t] of the result is [H[t + 1]] of
    the spec's recurrence. *)
Lemma cpu_forward_ref (H0 : option (Tensor A)) :
  0 < T ->
  match H0 with Some p => row_like p | None => True end ->
  h0 = match H0 with Some p => data p | None => [] end ->
  exists out,
    CPUForgetMult_forward F X H0 = Ok out /\
    size out = T :: s /\
    is_cuda out = is_cuda F /\
    length (data out) = T * n /\
    forall t j, t < T -> j < n -> nth (t * n + j) (data out) s0 = href (S t) j.
Proof.
  intros HT HH0 Hh0. unfold CPUForgetMult_forward.
  rewrite (split1_rows F T s HsF HT). cbn [rbind].
  rewrite tmul_FX. cbn [rbind].
  rewrite (split1_rows FX T s eq_refl HT). cbn [rbind].
  destruct (@cpu_loop_spec T 0 H0 [] ltac:(lia) HH0) as (prev' & res' & Hrun & Hlen & Hall & Hres).
  { intros j Hj. cbn [hidden_ref]. rewrite Hh0.
    destruct H0 as [p |]; cbn [prev_value]; [reflexivity |].
    destruct j; reflexivity. }
  rewrite Hrun. cbn [rbind snd app].
  rewrite stack_rows; [| destruct res'; [simpl in Hlen; lia | discriminate] | exact Hall].
  assert (Huni : Forall (fun l => length l = n) (map data res')).
  { rewrite Forall_map. eapply Forall_impl; [| exact Hall].
    intros t (_ & Hl & _). exact Hl. }
  eexists. split; [reflexivity |]. cbn [size is_cuda data].
  split; [now rewrite Hlen |]. split; [reflexivity |].
  split; [rewrite (length_concat_uniform n _ Huni), length_map, Hlen; reflexivity |].
  intros t j Ht Hj.
  rewrite (nth_concat_uniform n); auto; [| rewrite length_map; lia].
  change (@nil A) with (data no_tensor). rewrite map_nth.
  apply (Hres t j Ht Hj).
Qed.

End CPUForward.

(** * Grids *)

Section GridFacts.

Local Open Scope Z_scope.

Lemma in_grid_threads (gx gy bx by_ : nat) (th : thread) :
  In th (grid_threads gx gy bx by_) <->
  exists by0 bx0 ty tx,
    (by0 < gy)%nat /\ (bx0 < gx)%nat /\ (ty < by_)%nat /\ (tx < bx)%nat /\
    th = {| blockIdx_x := Z.of_nat bx0; blockDim_x := Z.of_nat bx;
            threadIdx_x := Z.of_nat tx;
            blockIdx_y := Z.of_nat by0; blockDim_y := Z.of_nat by_;
            threadIdx_y := Z.of_nat ty |}.
Proof.
  unfold grid_threads. rewrite in_flat_map. split.
  - intros (by0 & Hby0 & H1). rewrite in_flat_map in H1.
    destruct H1 as (bx0 & Hbx0 & H2). rewrite in_flat_map in H2.
    destruct H2 as (ty & Hty & H3). rewrite in_map_iff in H3.
    destruct H3 as (tx & Heq & Htx).
    rewrite in_seq in Hby0, Hbx0, Hty, Htx.
    exists by0, bx0, ty, tx. repeat split; try lia. now symmetry.
  - intros (by0 & bx0 & ty & tx & Hby0 & Hbx0 & Hty & Htx & ->).
    exists by0. split; [apply in_seq; lia |].
    rewrite in_flat_map. exists bx0. split; [apply in_seq; lia |].
    rewrite in_flat_map. exists ty. split; [apply in_seq; lia |].
    rewrite in_map_iff. exists tx. split; [reflexivity | apply in_seq; lia].
Qed.

Lemma grid_nonneg (gx gy bx by_ : nat) :
  grid_fits gx gy bx by_ -> Forall nonneg (grid_threads gx gy bx by_).
Proof.
  intros [Hx Hy]. apply Forall_forall. intros th Hin.
  apply in_grid_threads in Hin.
  destruct Hin as (by0 & bx0 & ty & tx & Hby0 & Hbx0 & Hty & Htx & ->).
  unfold nonneg, thread_bid, thread_hid.
  cbn [blockIdx_x blockDim_x threadIdx_x blockIdx_y blockDim_y threadIdx_y].
  rewrite !wrap_small; nia.
Qed.

Lemma grid_covered (gx gy bx by_ : nat) (BATCH HIDDEN bid hid : Z) :
  grid_fits gx gy bx by_ ->
  HIDDEN <= Z.of_nat gx * Z.of_nat bx -> BATCH <= Z.of_nat gy * Z.of_nat by_ ->
  0 <= bid < BATCH -> 0 <= hid < HIDDEN ->
  covered (grid_threads gx gy bx by_) bid hid.
Proof.
  intros [Hx Hy] HH HB Hb Hh.
  assert (Hbx : 0 < Z.of_nat bx) by nia.
  assert (Hby : 0 < Z.of_nat by_) by nia.
  assert (Dx := Z.div_mod hid (Z.of_nat bx) ltac:(lia)).
  assert (Mx := Z.mod_pos_bound hid (Z.of_nat bx) Hbx).
  assert (Dy := Z.div_mod bid (Z.of_nat by_) ltac:(lia)).
  assert (My := Z.mod_pos_bound bid (Z.of_nat by_) Hby).
  assert (Qx : 0 <= hid / Z.of_nat bx < Z.of_nat gx).
  { split; [apply Z.div_pos; lia | apply Z.div_lt_upper_bound; nia]. }
  assert (Qy : 0 <= bid / Z.of_nat by_ < Z.of_nat gy).
  { split; [apply Z.div_pos; lia | apply Z.div_lt_upper_bound; nia]. }
  exists {| blockIdx_x := Z.of_nat (Z.to_nat (hid / Z.of_nat bx));
            blockDim_x := Z.of_nat bx;
            threadIdx_x := Z.of_nat (Z.to_nat (hid mod Z.of_nat bx));
            blockIdx_y := Z.of_nat (Z.to_nat (bid / Z.of_nat by_));
            blockDim_y := Z.of_nat by_;
            threadIdx_y := Z.of_nat (Z.to_nat (bid mod Z.of_nat by_)) |}.
  split.
  - apply in_grid_threads.
    exists (Z.to_nat (bid / Z.of_nat by_)), (Z.to_nat (hid / Z.of_nat bx)),
           (Z.to_nat (bid mod Z.of_nat by_)), (Z.to_nat (hid mod Z.of_nat bx)).
    repeat split; lia.
  - unfold thread_bid, thread_hid.
    cbn [blockIdx_x blockDim_x threadIdx_x blockIdx_y blockDim_y threadIdx_y].
    rewrite !Z2Nat.id by lia.
    rewrite !wrap_small; nia.
Qed.

(** The same for the grid's threads taken in any order. *)
Lemma schedule_nonneg (gx gy bx by_ : nat) (ths : list thread) :
  Permutation ths (grid_threads gx gy bx by_) ->
  grid_fits gx gy bx by_ -> Forall nonneg ths.
Proof.
  intros Hp Hfit. apply (Permutation_Forall (Permutation_sym Hp)).
  apply grid_nonneg. exact Hfit.
Qed.

Lemma schedule_covered (gx gy bx by_ : nat) (ths : list thread)
    (BATCH HIDDEN bid hid : Z) :
  Permutation ths (grid_threads gx gy bx by_) ->
  grid_fits gx gy bx by_ ->
  HIDDEN <= Z.of_nat gx * Z.of_nat bx -> BATCH <= Z.of_nat gy * Z.of_nat by_ ->
  0 <= bid < BATCH -> 0 <= hid < HIDDEN ->
  covered ths bid hid.
Proof.
  intros Hp Hfit HH HB Hb Hh.
  destruct (grid_covered gx gy bx by_ BATCH HIDDEN bid hid Hfit HH HB Hb Hh)
    as (th & Hin & E).
  exists th. split; [| exact E].
  apply (Permutation_in th (Permutation_sym Hp)). exact Hin.
Qed.

End GridFacts.

(** * The forward kernel computes the recurrence *)

Section ForwardKernelRef.

Context {A : Type} {SA : Scalar A}.

Variables (f x : list A) (T B H : nat).
Hypothesis Hmax : (Z.of_nat (T + 1) * Z.of_nat H * Z.of_nat B < 2 ^ 31)%Z.
Hypothesis Hf : length f = T * (B * H).
Hypothesis Hx : length x = T * (B * H).

Lemma to_nat_off (t b h : nat) :
  Z.to_nat (off (Z.of_nat H) (Z.of_nat B) (Z.of_nat b) (Z.of_nat h) (Z.of_nat t))
  = t * (B * H) + (b * H + h).
Proof. unfold off. nia. Qed.

Lemma hidden_ref_ext (n : nat) (fd xd h0 h0' : list A) (t j : nat) :
  nth j h0 s0 = nth j h0' s0 ->
  hidden_ref n fd xd h0 t j = hidden_ref n fd xd h0' t j.
Proof.
  intros E. induction t as [| t IH]; cbn [hidden_ref]; [exact E | now rewrite IH].
Qed.

(** A launch that covers every lane leaves in [dst] the hidden sequence of
    the spec, [H[0 .. T]], with [H[0]] what row 0 of [dst] held. *)
Lemma kernel_forward_ref (ths : list thread) (dst : list A) :
  Forall nonneg ths ->
  (forall b h, b < B -> h < H -> covered ths (Z.of_nat b) (Z.of_nat h)) ->
  length dst = (T + 1) * (B * H) ->
  exists dst',
    launch (recurrent_forget_mult f x (Z.of_nat T) (Z.of_nat B) (Z.of_nat H)) ths dst
    = Some dst' /\
    length dst' = length dst /\
    forall t b h, t <= T -> b < B -> h < H ->
      nth (t * (B * H) + (b * H + h)) dst' s0
      = hidden_ref (B * H) f x dst t (b * H + h).
Proof.
  intros Hnn Hcov Hd.
  destruct (@fwd_launch_spec A SA f x (Z.of_nat T) (Z.of_nat B) (Z.of_nat H)
              ltac:(lia) ltac:(lia) ltac:(nia) ltac:(nia) ths dst Hnn ltac:(nia))
    as (dst' & Hrun & Hlen & Hrow0 & Hrec).
  exists dst'. split; [exact Hrun |]. split; [exact Hlen |].
  intros t b h Ht Hb Hh.
  assert (Hlane : lane_recurrence f x (Z.of_nat T) (Z.of_nat B) (Z.of_nat H)
                    (Z.of_nat b) (Z.of_nat h) 1 dst').
  { apply Hrec; [lia | lia | apply Hcov; assumption]. }
  induction t as [| t IH].
  - cbn [hidden_ref Nat.mul Nat.add]. apply Hrow0. nia.
  - specialize (Hlane (Z.of_nat (S t)) ltac:(lia)).
    unfold rd, fwd_value in Hlane.
    replace (Z.of_nat (S t) - 1)%Z with (Z.of_nat t) in Hlane by lia.
    rewrite !to_nat_off in Hlane. unfold rd in Hlane. rewrite !to_nat_off in Hlane.
    rewrite Hlane. cbn [hidden_ref]. rewrite IH by lia.
    replace (t * (B * H) + (b * H + h)) with (t * (B * H) + (b * H + h)) by lia.
    reflexivity.
Qed.

End ForwardKernelRef.

(** * The backend selector *)

Section Selector.

Context {A : Type} {SA : Scalar A}.

Lemma instantiate_GPU :
  @instantiate A SA "GPUForgetMult" = Raise (NameError "GPUForgetMult").
Proof. reflexivity. Qed.

Lemma instantiate_CPU : @instantiate A SA "CPUForgetMult" = Ok CPUForgetMult_forward.
Proof. reflexivity. Qed.

Lemma selector_sequential (avail : bool) (f x : Tensor A) (h : option (Tensor A))
    (use_cuda : bool) :
  use_cuda && avail = false ->
  ForgetMult_forward avail f x h use_cuda = CPUForgetMult_forward f x h.
Proof.
  intros E. unfold ForgetMult_forward. rewrite E, instantiate_CPU.
  destruct h; reflexivity.
Qed.

End Selector.

(** * The claims *)

Section AccumulatorUpdate.

Context {A : Type} {SA : Scalar A}.

Add Ring scalar_ring_acc : (@scalar_ring A SA).

(** C4. The accumulator update of the backward loop,
    [running_f - f[i] * running_f], equals [(1 - f[i]) * running_f], in every
    commutative ring of scalars (the reals among them, [R_Scalar]). *)
Theorem attenuate_is_one_minus_f (f acc : A) :
  attenuate f acc = ((s1 - f) * acc)%S.
Proof. unfold attenuate. ring. Qed.

End AccumulatorUpdate.

(** C10. With [use_cuda] true, CUDA available and [f], [x] on a CUDA device,
    [ForgetMult.forward] raises [NameError] for [GPUForgetMult], a name the
    module does not bind; no kernel runs. *)
Theorem accelerated_branch_raises_NameError {A : Type} {SA : Scalar A}
    (f x : Tensor A) (hidden_init : option (Tensor A)) :
  is_cuda f = true -> is_cuda x = true ->
  ForgetMult_forward true f x hidden_init true = Raise (NameError "GPUForgetMult")
  /\ ~ In "GPUForgetMult"%string module_names.
Proof.
  intros Hf Hx. split.
  - unfold ForgetMult_forward. rewrite Hf, Hx. cbn [andb py_assert rbind].
    rewrite instantiate_GPU. destruct hidden_init; reflexivity.
  - intros Hin. cbn in Hin.
    repeat (destruct Hin as [Hin | Hin]; [discriminate Hin |]). exact Hin.
Qed.

Lemma accelerated_branch_raises_NameError_witness :
  ForgetMult_forward true (tz_cuda [1; 1; 1] [2%Z]) (tz_cuda [1; 1; 1] [3%Z]) None true
  = Raise (NameError "GPUForgetMult")
  /\ ~ In "GPUForgetMult"%string module_names.
Proof.
  apply (accelerated_branch_raises_NameError
           (tz_cuda [1; 1; 1] [2%Z]) (tz_cuda [1; 1; 1] [3%Z]) None);
    reflexivity.
Defined.

(** C8, as stated, fails: the accelerated backend is requested for CPU
    tensors on a system without CUDA, and the sequential backend answers. *)
Lemma selector_falls_back_silently :
  ForgetMult_forward false (tz [1; 1; 1] [2%Z]) (tz [1; 1; 1] [3%Z]) None true
  = Ok (tz [1; 1; 1] [6%Z])
  /\ CPUForgetMult_forward (tz [1; 1; 1] [2%Z]) (tz [1; 1; 1] [3%Z]) None
     = Ok (tz [1; 1; 1] [6%Z]).
Proof. split; reflexivity. Qed.

(** C8, amended. What [ForgetMult.forward] does when the accelerated backend
    is requested: without CUDA the request is dropped and the call is the
    sequential backend's; with CUDA it fails its assertion unless [f] and [x]
    are both on a CUDA device (and then meets the unbound [GPUForgetMult]). *)
Theorem selector_placement {A : Type} {SA : Scalar A}
    (avail : bool) (f x : Tensor A) (hidden_init : option (Tensor A)) :
  ForgetMult_forward avail f x hidden_init true
  = if avail
    then if is_cuda f && is_cuda x
         then Raise (NameError "GPUForgetMult")
         else Raise (AssertionError placement_msg)
    else CPUForgetMult_forward f x hidden_init.
Proof.
  destruct avail.
  - unfold ForgetMult_forward. cbn [andb].
    destruct (is_cuda f && is_cuda x); cbn [py_assert rbind]; [| reflexivity].
    rewrite instantiate_GPU. destruct hidden_init; reflexivity.
  - apply selector_sequential. reflexivity.
Qed.

(** C6. On the scenario of the [__main__] block ([T = 4], one lane,
    [H0 = 0]) the forward pass returns 0.1875, 0.265625, 0.5828125 and
    0.6696875, which round to 0.1875, 0.2656, 0.5828 and 0.6697; the kernel
    leaves the same four values after [H0] in [dst]. *)
Theorem scenario_forward :
  CPUForgetMult_forward scenario_F scenario_X (Some scenario_H0)
  = Ok (tq [4; 1; 1] [0.1875; 0.265625; 0.5828125; 0.6696875]%Q)
  /\ map round4 (data (tq [4; 1; 1] [0.1875; 0.265625; 0.5828125; 0.6696875]%Q))
     = [1875; 2656; 5828; 6697]%Z
  /\ launch (recurrent_forget_mult (data scenario_F) (data scenario_X) 4 1 1)
            (grid_threads 1 1 1 1) (data scenario_H0 ++ repeat s0 4)
     = Some (map Q2Qc [0; 0.1875; 0.265625; 0.5828125; 0.6696875]%Q).
Proof.
  split; [| split; [reflexivity |]].
  - vm_compute. do 2 f_equal.
    repeat (apply f_equal2; [apply Qc_is_canon; reflexivity |]).
    reflexivity.
  - vm_compute. f_equal.
    repeat (apply f_equal2; [apply Qc_is_canon; reflexivity |]).
    reflexivity.
Qed.

(** The spec's scan on two steps of one lane, by hand: [acc] is 1 and then
    [-2] after [t = 2], [-1] and then 0 after [t = 1]. *)
Example adjoint_scan_two_steps :
  adjoint_scan [ {| step_F := 1; step_X := 5; step_Hprev := 10; step_gH := 1 |};
                 {| step_F := 3; step_X := 7; step_Hprev := 5; step_gH := 1 |} ]%Z
  = ([(-1, 5); (3, 2)], 0)%Z.
Proof. reflexivity. Qed.

Lemma numel2 (B H : nat) : numel [B; H] = B * H.
Proof. cbn. lia. Qed.

Lemma ravel2 (B H b h : nat) : ravel [B; H] [b; h] = b * H + h.
Proof. cbn. lia. Qed.

Lemma ravel3 (T B H t b h : nat) : ravel [T; B; H] [t; b; h] = t * (B * H) + (b * H + h).
Proof. cbn. lia. Qed.

Lemma lane_lt (B H b h : nat) : b < B -> h < H -> b * H + h < B * H.
Proof. nia. Qed.

Lemma initial_value_nth {A : Type} {SA : Scalar A}
    (H0 : option (Tensor A)) (B H : nat) (dev : bool) (b h : nat) :
  match H0 with Some p => row_like [B; H] dev p | None => True end ->
  initial_value H0 b h
  = nth (b * H + h) (match H0 with Some p => data p | None => [] end) s0.
Proof.
  intros HH0. unfold initial_value. destruct H0 as [p |].
  - destruct HH0 as (Hs & _). unfold item. now rewrite Hs, ravel2.
  - now destruct (b * H + h).
Qed.

(** * The forward pass on tensors of shape [(T, batch, hidden)] *)

Section ForwardOnTensors.

Context {A : Type} {SA : Scalar A}.

Variables (F X : Tensor A) (H0 : option (Tensor A)) (T B H : nat).
Hypothesis HsF : size F = [T; B; H].
Hypothesis HsX : size X = [T; B; H].
Hypothesis HwF : wf F.
Hypothesis HwX : wf X.
Hypothesis Hdev : is_cuda F = is_cuda X.
Hypothesis HT : 0 < T.
Hypothesis HH0 : match H0 with Some p => row_like [B; H] (is_cuda F) p | None => True end.

(** The sequential backend, in the claim's own terms. *)
Lemma cpu_obeys_recurrence :
  exists out,
    CPUForgetMult_forward F X H0 = Ok out /\
    size out = [T; B; H] /\ wf out /\ is_cuda out = is_cuda F /\
    forall t b h, t < T -> b < B -> h < H ->
      item out [t; b; h]
      = (item F [t; b; h] * item X [t; b; h]
         + (s1 - item F [t; b; h])
           * match t with
             | O => initial_value H0 b h
             | S t' => item out [t'; b; h]
             end)%S.
Proof.
  destruct (@cpu_forward_ref A SA F X T [B; H] HsF HsX HwF Hdev
              (match H0 with Some p => data p | None => [] end) H0 HT HH0 eq_refl)
    as (out & Hrun & Hs & Hd & Hlen & Hval).
  rewrite numel2 in Hlen, Hval.
  exists out. split; [exact Hrun |]. split; [exact Hs |].
  split; [red; rewrite Hs, Hlen; cbn; lia |]. split; [exact Hd |].
  intros t b h Ht Hb Hh.
  pose proof (lane_lt B H b h Hb Hh) as Hj.
  unfold item at 1 2 3 4. rewrite Hs, HsF, HsX, !ravel3.
  rewrite Hval by assumption. cbn [hidden_ref]. f_equal. f_equal.
  destruct t as [| t'].
  - cbn [hidden_ref]. symmetry. apply (initial_value_nth H0 B H (is_cuda F) b h HH0).
  - unfold item. rewrite Hs, ravel3. symmetry. apply Hval; [lia | exact Hj].
Qed.

(** The kernel, in the claim's own terms: a grid that covers the lanes
    leaves row 0 of [dst] as it was and fills rows [1 .. T] by the
    recurrence. *)
Lemma kernel_obeys_recurrence (gx gy bx by_ : nat) (ths : list thread) (dst : list A) :
  Permutation ths (grid_threads gx gy bx by_) ->
  grid_fits gx gy bx by_ -> H <= gx * bx -> B <= gy * by_ ->
  (Z.of_nat (T + 1) * Z.of_nat H * Z.of_nat B < 2 ^ 31)%Z ->
  length dst = (T + 1) * (B * H) ->
  exists dst',
    launch (recurrent_forget_mult (data F) (data X) (Z.of_nat T) (Z.of_nat B) (Z.of_nat H))
           ths dst = Some dst' /\
    length dst' = length dst /\
    forall b h, b < B -> h < H ->
      nth (ravel [T + 1; B; H] [0; b; h]) dst' s0 = nth (ravel [B; H] [b; h]) dst s0 /\
      forall t, t < T ->
        nth (ravel [T + 1; B; H] [S t; b; h]) dst' s0
        = (item F [t; b; h] * item X [t; b; h]
           + (s1 - item F [t; b; h]) * nth (ravel [(T + 1)%nat; B; H] [t; b; h]) dst' s0)%S.
Proof.
  intros Hperm Hfit HgH HgB Hmax Hd.
  assert (Hlf : length (data F) = T * (B * H)).
  { red in HwF. rewrite HwF, HsF. cbn. lia. }
  assert (Hlx : length (data X) = T * (B * H)).
  { red in HwX. rewrite HwX, HsX. cbn. lia. }
  destruct (@kernel_forward_ref A SA (data F) (data X) T B H Hmax Hlf Hlx
              ths dst (schedule_nonneg gx gy bx by_ ths Hperm Hfit))
    as (dst' & Hrun & Hlen & Hval).
  { intros b h Hb Hh. apply (schedule_covered gx gy bx by_ ths (Z.of_nat B) (Z.of_nat H) _ _ Hperm Hfit); lia. }
  { exact Hd. }
  exists dst'. split; [exact Hrun |]. split; [exact Hlen |].
  intros b h Hb Hh. rewrite !ravel3, ravel2. split.
  - rewrite Hval by (auto; lia). reflexivity.
  - intros t Ht. unfold item. rewrite HsF, HsX, !ravel3.
    rewrite (Hval (S t)) by (auto; lia). cbn [hidden_ref].
    rewrite <- (Hval t) by (auto; lia). reflexivity.
Qed.

End ForwardOnTensors.

Lemma flat_index_split (T n k : nat) :
  k < T * n -> exists t j, t < T /\ j < n /\ k = t * n + j.
Proof.
  intros Hk. assert (Hn : n <> 0) by (intros ->; lia).
  exists (k / n), (k mod n).
  pose proof (Nat.div_mod_eq k n). pose proof (Nat.mod_upper_bound k n Hn).
  split; [apply Nat.Div0.div_lt_upper_bound; lia | split; [assumption | lia]].
Qed.

(** C1. For [F], [X] of shape [(T, batch, hidden)], [T >= 1], and an initial
    state that is absent (zero) or of shape [(batch, hidden)], the forward
    operation returns the sequence with
    [H[t] = F[t] * X[t] + (1 - F[t]) * H[t-1]] and [H[0] = H0], at every lane:
    the sequential backend as its result tensor, the kernel in rows
    [1 .. T] of [dst], whose row 0 holds [H[0]], in whatever order the
    threads of a grid that covers the lanes run. *)
Theorem forward_recurrence {A : Type} {SA : Scalar A}
    (F X : Tensor A) (H0 : option (Tensor A)) (T B H : nat) :
  size F = [T; B; H] -> size X = [T; B; H] -> wf F -> wf X ->
  is_cuda F = is_cuda X -> 0 < T ->
  match H0 with Some p => row_like [B; H] (is_cuda F) p | None => True end ->
  (exists out,
     CPUForgetMult_forward F X H0 = Ok out /\
     size out = [T; B; H] /\
     forall t b h, t < T -> b < B -> h < H ->
       item out [t; b; h]
       = (item F [t; b; h] * item X [t; b; h]
          + (s1 - item F [t; b; h])
            * match t with
              | O => initial_value H0 b h
              | S t' => item out [t'; b; h]
              end)%S)
  /\
  (forall (gx gy bx by_ : nat) (ths : list thread) (dst : list A),
     Permutation ths (grid_threads gx gy bx by_) ->
     grid_fits gx gy bx by_ -> H <= gx * bx -> B <= gy * by_ ->
     (Z.of_nat (T + 1) * Z.of_nat H * Z.of_nat B < 2 ^ 31)%Z ->
     length dst = (T + 1) * (B * H) ->
     exists dst',
       launch (recurrent_forget_mult (data F) (data X)
                 (Z.of_nat T) (Z.of_nat B) (Z.of_nat H))
              ths dst = Some dst' /\
       forall b h, b < B -> h < H ->
         nth (ravel [T + 1; B; H] [0; b; h]) dst' s0 = nth (ravel [B; H] [b; h]) dst s0 /\
         forall t, t < T ->
           nth (ravel [T + 1; B; H] [S t; b; h]) dst' s0
           = (item F [t; b; h] * item X [t; b; h]
              + (s1 - item F [t; b; h])
                * nth (ravel [(T + 1)%nat; B; H] [t; b; h]) dst' s0)%S).
Proof.
  intros HsF HsX HwF HwX Hdev HT HH0. split.
  - destruct (cpu_obeys_recurrence F X H0 T B H HsF HsX HwF Hdev HT HH0)
      as (out & Hrun & Hs & _ & _ & Hrec).
    exists out. auto.
  - intros gx gy bx by_ ths dst Hperm Hfit HgH HgB Hmax Hd.
    destruct (kernel_obeys_recurrence F X T B H HsF HsX HwF HwX HT gx gy bx by_ ths dst
                Hperm Hfit HgH HgB Hmax Hd) as (dst' & Hrun & _ & Hrec).
    exists dst'. auto.
Qed.

Lemma forward_recurrence_witness :
  exists out,
    CPUForgetMult_forward (tz [2; 1; 2] [1; 2; 3; 4]%Z) (tz [2; 1; 2] [5; 6; 7; 8]%Z)
                          (Some (tz [1; 2] [10; 20]%Z)) = Ok out /\
    size out = [2; 1; 2].
Proof.
  destruct (forward_recurrence
              (tz [2; 1; 2] [1; 2; 3; 4]%Z) (tz [2; 1; 2] [5; 6; 7; 8]%Z)
              (Some (tz [1; 2] [10; 20]%Z)) 2 1 2
              eq_refl eq_refl eq_refl eq_refl eq_refl ltac:(lia)
              (conj eq_refl (conj eq_refl eq_refl)))
    as [(out & Hrun & Hs & _) _].
  exists out. split; assumption.
Defined.

(** C3. On inputs of matching shapes, [T >= 1], the kernel and the
    sequential backend compute the same hidden sequence in exact
    arithmetic: rows [1 .. T] of the kernel's [dst], whose row 0 held the
    initial state (zeros when absent), are the elements of the tensor
    [CPUForgetMult.forward] returns. *)
Theorem backends_agree {A : Type} {SA : Scalar A}
    (F X : Tensor A) (H0 : option (Tensor A)) (T B H : nat)
    (gx gy bx by_ : nat) (ths : list thread) (dst : list A) :
  size F = [T; B; H] -> size X = [T; B; H] -> wf F -> wf X ->
  is_cuda F = is_cuda X -> 0 < T ->
  match H0 with Some p => row_like [B; H] (is_cuda F) p | None => True end ->
  Permutation ths (grid_threads gx gy bx by_) ->
  grid_fits gx gy bx by_ -> H <= gx * bx -> B <= gy * by_ ->
  (Z.of_nat (T + 1) * Z.of_nat H * Z.of_nat B < 2 ^ 31)%Z ->
  length dst = (T + 1) * (B * H) ->
  (forall b h, b < B -> h < H -> nth (ravel [B; H] [b; h]) dst s0 = initial_value H0 b h) ->
  exists out dst',
    CPUForgetMult_forward F X H0 = Ok out /\
    launch (recurrent_forget_mult (data F) (data X) (Z.of_nat T) (Z.of_nat B) (Z.of_nat H))
           ths dst = Some dst' /\
    skipn (B * H) dst' = data out.
Proof.
  intros HsF HsX HwF HwX Hdev HT HH0 Hperm Hfit HgH HgB Hmax Hd Hrow0.
  destruct (@cpu_forward_ref A SA F X T [B; H] HsF HsX HwF Hdev
              (match H0 with Some p => data p | None => [] end) H0 HT HH0 eq_refl)
    as (out & Hrun & Hs & _ & Hlen & Hval).
  rewrite (numel2 B H) in Hlen, Hval.
  assert (Hlf : length (data F) = T * (B * H)).
  { red in HwF. rewrite HwF, HsF. cbn. lia. }
  assert (Hlx : length (data X) = T * (B * H)).
  { red in HwX. rewrite HwX, HsX. cbn. lia. }
  destruct (@kernel_forward_ref A SA (data F) (data X) T B H Hmax Hlf Hlx
              ths dst (schedule_nonneg gx gy bx by_ ths Hperm Hfit))
    as (dst' & Hk & Hklen & Hkval).
  { intros b h Hb Hh. apply (schedule_covered gx gy bx by_ ths (Z.of_nat B) (Z.of_nat H) _ _ Hperm Hfit); lia. }
  { exact Hd. }
  exists out, dst'. split; [exact Hrun |]. split; [exact Hk |].
  apply (nth_ext _ _ s0 s0).
  - rewrite length_skipn, Hklen, Hd, Hlen. lia.
  - intros k Hk'. rewrite length_skipn, Hklen, Hd in Hk'.
    destruct (@flat_index_split T (B * H) k ltac:(lia)) as (t & j & Ht & Hj & ->).
    assert (HH : H <> 0) by (intros ->; lia).
    pose proof (Nat.div_mod_eq j H) as Ej.
    pose proof (Nat.mod_upper_bound j H HH) as Hh.
    assert (Hb : j / H < B) by (apply Nat.Div0.div_lt_upper_bound; lia).
    rewrite nth_skipn, Hval by assumption.
    replace (B * H + (t * (B * H) + j)) with (S t * (B * H) + (j / H * H + j mod H)) by lia.
    rewrite Hkval by (auto; lia).
    replace (j / H * H + j mod H) with j by lia.
    apply hidden_ref_ext.
    replace j with (j / H * H + j mod H) at 1 by lia.
    rewrite <- (ravel2 B H), Hrow0 by assumption.
    rewrite (initial_value_nth H0 B H (is_cuda F) _ _ HH0).
    f_equal. lia.
Qed.

Lemma backends_agree_witness :
  exists out dst',
    CPUForgetMult_forward (tz [2; 1; 2] [1; 2; 3; 4]%Z) (tz [2; 1; 2] [5; 6; 7; 8]%Z)
                          (Some (tz [1; 2] [10; 20]%Z)) = Ok out /\
    launch (recurrent_forget_mult [1; 2; 3; 4]%Z [5; 6; 7; 8]%Z 2 1 2)
           (grid_threads 1 1 2 1) [10; 20; 0; 0; 0; 0]%Z = Some dst' /\
    skipn 2 dst' = data out.
Proof.
  apply (backends_agree
           (tz [2; 1; 2] [1; 2; 3; 4]%Z) (tz [2; 1; 2] [5; 6; 7; 8]%Z)
           (Some (tz [1; 2] [10; 20]%Z)) 2 1 2 1 1 2 1 (grid_threads 1 1 2 1)
           [10; 20; 0; 0; 0; 0]%Z);
    try reflexivity; try lia.
  - repeat split; reflexivity.
  - split; reflexivity.
  - intros [| [| b]] [| [| [| h]]] Hb Hh; try lia; reflexivity.
Defined.

(** C5. Calling forward with no initial state returns exactly what it
    returns for an explicit all-zero [H0] of shape [(batch, hidden)], on the
    sequential backend and so through [ForgetMult.forward] whenever that
    backend is selected. *)
Theorem absent_state_is_zero_state {A : Type} {SA : Scalar A}
    (F X : Tensor A) (T B H : nat) :
  size F = [T; B; H] -> size X = [T; B; H] -> wf F ->
  is_cuda F = is_cuda X -> 0 < T ->
  exists out,
    CPUForgetMult_forward F X None = Ok out /\
    CPUForgetMult_forward F X (Some (zeros [B; H] (is_cuda F))) = Ok out /\
    forall avail use_cuda, use_cuda && avail = false ->
      ForgetMult_forward avail F X None use_cuda = Ok out /\
      ForgetMult_forward avail F X (Some (zeros [B; H] (is_cuda F))) use_cuda = Ok out.
Proof.
  intros HsF HsX HwF Hdev HT.
  destruct (@cpu_forward_ref A SA F X T [B; H] HsF HsX HwF Hdev [] None HT I eq_refl)
    as (out & Hrun & Hs & Hd & Hlen & Hval).
  destruct (@cpu_forward_ref A SA F X T [B; H] HsF HsX HwF Hdev
              (repeat s0 (numel [B; H])) (Some (zeros [B; H] (is_cuda F))) HT)
    as (out' & Hrun' & Hs' & Hd' & Hlen' & Hval').
  { repeat split. cbn [zeros data]. apply repeat_length. }
  { reflexivity. }
  assert (E : out' = out).
  { destruct out as [so do co], out' as [so' do' co'].
    cbn [size data is_cuda] in *. subst so so' co co'. f_equal.
    apply (nth_ext _ _ s0 s0); [congruence |].
    intros k Hk. rewrite Hlen' in Hk.
    destruct (flat_index_split T (numel [B; H]) k Hk) as (t & j & Ht & Hj & ->).
    rewrite Hval, Hval' by assumption.
    apply hidden_ref_ext. rewrite nth_repeat. now destruct j. }
  subst out'. exists out. split; [exact Hrun |]. split; [exact Hrun' |].
  intros avail use_cuda Hsel.
  rewrite !selector_sequential by exact Hsel. split; assumption.
Qed.

Lemma absent_state_is_zero_state_witness :
  exists out,
    CPUForgetMult_forward (tz [2; 1; 2] [1; 2; 3; 4]%Z) (tz [2; 1; 2] [5; 6; 7; 8]%Z) None
    = Ok out /\
    CPUForgetMult_forward (tz [2; 1; 2] [1; 2; 3; 4]%Z) (tz [2; 1; 2] [5; 6; 7; 8]%Z)
                          (Some (zeros [1; 2] false)) = Ok out.
Proof.
  destruct (absent_state_is_zero_state
              (tz [2; 1; 2] [1; 2; 3; 4]%Z) (tz [2; 1; 2] [5; 6; 7; 8]%Z) 2 1 2
              eq_refl eq_refl eq_refl eq_refl ltac:(lia))
    as (out & H1 & H2 & _).
  exists out. split; assumption.
Defined.

(** C2. The backward kernel, launched on a grid that covers the lanes
    (its threads in any order), returns, and
    leaves at every lane what the spec's scan computes from that lane's
    [F[t]], [X[t]], [H[t-1]] and [gH[t]]: [acc] from 0, [t] from [T] down to
    1, [acc = acc + gH[t]], [dX[t] = F[t] * acc],
    [dF[t] = (X[t] - H[t-1]) * acc], [acc = acc - F[t] * acc], and
    [dH0 = acc] after the loop. *)
Theorem backward_scan {A : Type} {SA : Scalar A}
    (h f x gh : list A) (SEQ BATCH HIDDEN : Z)
    (gx gy bx by_ : nat) (ths : list thread) (out : list A * list A * list A) :
  (0 <= SEQ)%Z -> ((SEQ + 1) * HIDDEN * BATCH < 2 ^ 31)%Z ->
  Z.of_nat (length h) = ((SEQ + 1) * HIDDEN * BATCH)%Z ->
  Z.of_nat (length f) = (SEQ * HIDDEN * BATCH)%Z ->
  Z.of_nat (length x) = (SEQ * HIDDEN * BATCH)%Z ->
  Z.of_nat (length gh) = (SEQ * HIDDEN * BATCH)%Z ->
  bwd_sized SEQ BATCH HIDDEN out ->
  Permutation ths (grid_threads gx gy bx by_) ->
  grid_fits gx gy bx by_ ->
  (HIDDEN <= Z.of_nat gx * Z.of_nat bx)%Z -> (BATCH <= Z.of_nat gy * Z.of_nat by_)%Z ->
  exists out',
    launch (bwd_recurrent_forget_mult h f x gh SEQ BATCH HIDDEN)
           ths out = Some out' /\
    bwd_sized SEQ BATCH HIDDEN out' /\
    forall bid hid, (0 <= bid < BATCH)%Z -> (0 <= hid < HIDDEN)%Z ->
      lane_adjoint f x SEQ BATCH HIDDEN h gh bid hid out'.
Proof.
  intros HSEQ Hmax Hh Hf Hx Hgh Hsz Hperm Hfit HgH HgB.
  destruct (@bwd_launch_spec A SA h f x gh SEQ BATCH HIDDEN HSEQ Hmax Hh Hf Hx Hgh
              ths out (schedule_nonneg gx gy bx by_ ths Hperm Hfit) Hsz)
    as (out' & Hrun & Hsz' & Hadj).
  exists out'. split; [exact Hrun |]. split; [exact Hsz' |].
  intros bid hid Hb Hhd. apply Hadj; auto.
  apply (schedule_covered gx gy bx by_ ths BATCH HIDDEN bid hid Hperm Hfit); assumption.
Qed.

Lemma backward_scan_witness :
  exists out',
    launch (bwd_recurrent_forget_mult [10; 20; 5; -8; 0; 0]%Z [1; 2; 3; 4]%Z
              [5; 6; 7; 8]%Z [1; 1; 1; 1]%Z 2 1 2)
           (grid_threads 1 1 2 1) ([0; 0; 0; 0]%Z, [0; 0; 0; 0]%Z, [9; 9]%Z) = Some out' /\
    lane_adjoint [1; 2; 3; 4]%Z [5; 6; 7; 8]%Z 2 1 2 [10; 20; 5; -8; 0; 0]%Z
                 [1; 1; 1; 1]%Z 0 1 out'.
Proof.
  destruct (backward_scan [10; 20; 5; -8; 0; 0]%Z [1; 2; 3; 4]%Z [5; 6; 7; 8]%Z
              [1; 1; 1; 1]%Z 2 1 2 1 1 2 1 (grid_threads 1 1 2 1)
              ([0; 0; 0; 0]%Z, [0; 0; 0; 0]%Z, [9; 9]%Z))
    as (out' & Hrun & _ & Hadj);
    try reflexivity; try lia.
  - repeat split; reflexivity.
  - split; reflexivity.
  - exists out'. split; [exact Hrun | apply Hadj; lia].
Defined.

(** * Empty sequences *)

Section EmptySequence.

Context {A : Type} {SA : Scalar A}.

Lemma view_row_of_empty (t : Tensor A) (s : list nat) :
  size t = 0 :: s -> numel s <> 0 -> view t (tl (size t)) = Raise TorchError.
Proof.
  intros Hs Hn. unfold view. rewrite Hs. cbn [tl].
  change (numel (0 :: s)) with 0.
  destruct (Nat.eqb_spec (numel s) 0); [contradiction | reflexivity].
Qed.

(** With no timestep and at least one lane, [CPUForgetMult.forward] raises:
    the single empty chunk that [split] returns cannot be viewed as a
    [(batch, hidden)] matrix. *)
Lemma cpu_forward_empty (F X : Tensor A) (H0 : option (Tensor A)) (s : list nat) (dev : bool) :
  size F = 0 :: s -> size X = 0 :: s -> numel s <> 0 ->
  match H0 with Some p => row_like s dev p | None => True end ->
  CPUForgetMult_forward F X H0 = Raise TorchError.
Proof.
  intros HsF HsX Hn HH0. unfold CPUForgetMult_forward, split1 at 1.
  rewrite HsF. cbn [rbind]. unfold tmul, binop.
  destruct (Bool.eqb (is_cuda F) (is_cuda X)); cbn [negb]; [| reflexivity].
  rewrite HsF, HsX, broadcast_shapes_same. cbn [rbind].
  unfold split1. cbn [size rbind map cpu_loop].
  unfold cpu_step. destruct H0 as [p |].
  - destruct HH0 as (Hps & _ & _).
    cbn [tuple_get nth_error rbind]. unfold tmul, binop.
    cbn [rsub narrow0 is_cuda size].
    destruct (Bool.eqb (is_cuda F) (is_cuda p)); cbn [negb rbind]; [| reflexivity].
    rewrite HsF, Hps. cbn [tl]. rewrite broadcast_shapes_lead. cbn [rbind].
    unfold tadd, binop. cbn [is_cuda size tl].
    rewrite Bool.eqb_reflx, broadcast_shapes_same. cbn [negb rbind].
    rewrite (view_row_of_empty _ s) by (auto; reflexivity). reflexivity.
  - cbn [rbind]. rewrite (view_row_of_empty _ s) by (auto; reflexivity). reflexivity.
Qed.

(** With no timestep the forward kernel stores nothing. *)
Lemma fwd_kernel_empty (f x : list A) (BATCH HIDDEN : Z) (ths : list thread) (dst : list A) :
  launch (recurrent_forget_mult f x 0 BATCH HIDDEN) ths dst = Some dst.
Proof.
  induction ths as [| th ths IH]; [reflexivity |].
  cbn [launch]. unfold recurrent_forget_mult.
  destruct ((thread_hid th >=? HIDDEN)%Z || (thread_bid th >=? BATCH)%Z); exact IH.
Qed.

End EmptySequence.

(** C7, as stated, fails: with [T = 0] and one lane the sequential forward
    raises instead of returning an empty sequence. *)
Lemma cpu_forward_rejects_no_timestep :
  CPUForgetMult_forward (tz [0; 1; 1] []) (tz [0; 1; 1] []) None = Raise TorchError.
Proof. reflexivity. Qed.

(** C7, amended. For [T = 0] the kernels do what the claim says: the forward
    kernel stores nothing, so the output rows are empty, and the backward
    kernel returns empty [dF], [dX] and [dH0 = 0] at every lane.  The
    sequential forward, [CPUForgetMult.forward], raises for [T = 0] when
    there is at least one lane. *)
Theorem empty_sequence {A : Type} {SA : Scalar A}
    (F X : Tensor A) (H0 : option (Tensor A)) (B H : nat)
    (h ghinit dst : list A) (gx gy bx by_ : nat) (ths : list thread) :
  size F = [0; B; H] -> size X = [0; B; H] -> wf F -> wf X -> B * H <> 0 ->
  match H0 with Some p => row_like [B; H] (is_cuda F) p | None => True end ->
  length h = B * H -> length ghinit = B * H ->
  (Z.of_nat H * Z.of_nat B < 2 ^ 31)%Z ->
  Permutation ths (grid_threads gx gy bx by_) ->
  grid_fits gx gy bx by_ -> H <= gx * bx -> B <= gy * by_ ->
  launch (recurrent_forget_mult (data F) (data X) 0 (Z.of_nat B) (Z.of_nat H))
         ths dst = Some dst
  /\ launch (bwd_recurrent_forget_mult h (data F) (data X) [] 0 (Z.of_nat B) (Z.of_nat H))
            ths ([], [], ghinit)
     = Some ([], [], repeat s0 (B * H))
  /\ CPUForgetMult_forward F X H0 = Raise TorchError.
Proof.
  intros HsF HsX HwF HwX Hn HH0 Hh Hgi Hmax Hperm Hfit HgH HgB.
  assert (HdF : data F = []).
  { red in HwF. rewrite HsF in HwF. now apply length_zero_iff_nil. }
  assert (HdX : data X = []).
  { red in HwX. rewrite HsX in HwX. now apply length_zero_iff_nil. }
  split; [apply fwd_kernel_empty |]. split.
  - rewrite HdF, HdX.
    destruct (@bwd_launch_spec A SA h [] [] [] 0 (Z.of_nat B) (Z.of_nat H)
                ltac:(lia) ltac:(lia) ltac:(lia) eq_refl eq_refl eq_refl
                ths ([], [], ghinit)
                (schedule_nonneg gx gy bx by_ ths Hperm Hfit))
      as (out' & Hrun & Hsz & Hadj).
    { repeat split. cbn [fst snd]. lia. }
    rewrite Hrun. destruct out' as [[gf' gx'] gi'].
    destruct Hsz as (Hgf & Hgx & Hgi'). cbn [fst snd] in Hgf, Hgx, Hgi'.
    assert (gf' = []) by (apply length_zero_iff_nil; lia).
    assert (gx' = []) by (apply length_zero_iff_nil; lia).
    subst gf' gx'. do 2 f_equal.
    apply (nth_ext _ _ s0 s0).
    + rewrite repeat_length. lia.
    + intros k Hk. rewrite nth_repeat.
      assert (HH : H <> 0) by (intros ->; lia).
      pose proof (Nat.div_mod_eq k H) as Ek.
      pose proof (Nat.mod_upper_bound k H HH) as Hlt.
      assert (Hb : k / H < B) by (apply Nat.Div0.div_lt_upper_bound; lia).
      destruct (Hadj (Z.of_nat (k / H)) (Z.of_nat (k mod H))) as [_ Hacc]; try lia.
      { apply (schedule_covered gx gy bx by_ ths (Z.of_nat B) (Z.of_nat H) _ _ Hperm Hfit); lia. }
      unfold rd in Hacc.
      replace (Z.to_nat (Z.of_nat (k / H) * Z.of_nat H + Z.of_nat (k mod H))) with k
        in Hacc by lia.
      exact Hacc.
  - apply (cpu_forward_empty F X H0 [B; H] (is_cuda F)); auto.
    rewrite numel2. exact Hn.
Qed.

Lemma empty_sequence_witness :
  launch (recurrent_forget_mult (data (tz [0; 1; 2] [])) (data (tz [0; 1; 2] []))
            0 (Z.of_nat 1) (Z.of_nat 2))
         (grid_threads 1 1 2 1) [10; 20]%Z
  = Some [10; 20]%Z
  /\ launch (bwd_recurrent_forget_mult [10; 20]%Z (data (tz [0; 1; 2] []))
               (data (tz [0; 1; 2] [])) [] 0 (Z.of_nat 1) (Z.of_nat 2))
            (grid_threads 1 1 2 1) ([], [], [9; 9]%Z)
     = Some ([], [], repeat s0 (1 * 2))
  /\ CPUForgetMult_forward (tz [0; 1; 2] []) (tz [0; 1; 2] []) None = Raise TorchError.
Proof.
  apply (empty_sequence (tz [0; 1; 2] []) (tz [0; 1; 2] []) None 1 2
           [10; 20]%Z [9; 9]%Z [10; 20]%Z 1 1 2 1 (grid_threads 1 1 2 1));
    try reflexivity; try lia; try exact I.
  split; reflexivity.
Defined.

(** * Shapes that differ and broadcast *)

Lemma bshape_rev_fits_left (a b c : list nat) :
  bshape_rev a b = Some c -> bshape_rev a c = Some c.
Proof.
  revert b c. induction a as [| x a IH]; intros b c Hc; [reflexivity |].
  destruct b as [| y b].
  - injection Hc as <-. apply bshape_rev_same.
  - cbn [bshape_rev] in Hc.
    destruct (bshape_rev a b) as [c' |] eqn:E;
      [| destruct (x =? y), (x =? 1), (y =? 1); discriminate].
    apply IH in E.
    destruct (Nat.eqb_spec x y) as [-> | Hxy].
    + injection Hc as <-. cbn [bshape_rev]. now rewrite Nat.eqb_refl, E.
    + destruct (Nat.eqb_spec x 1) as [-> | Hx1].
      * injection Hc as <-. cbn [bshape_rev].
        destruct (Nat.eqb_spec 1 y); [contradiction |]. now rewrite E.
      * destruct (Nat.eqb_spec y 1); [| discriminate].
        injection Hc as <-. cbn [bshape_rev]. now rewrite Nat.eqb_refl, E.
Qed.

(** What [a] broadcasts into without enlarging: each extent of [a] is that
    of [c] or 1, and [a] is no longer than [c]. *)
Lemma bshape_rev_fits_cons (x z : nat) (a c : list nat) :
  bshape_rev (x :: a) (z :: c) = Some (z :: c) <->
  (x = z \/ x = 1) /\ bshape_rev a c = Some c.
Proof.
  cbn [bshape_rev]. split.
  - intros Hc.
    destruct (bshape_rev a c) as [c' |] eqn:E;
      [| destruct (x =? z), (x =? 1), (z =? 1); discriminate].
    destruct (Nat.eqb_spec x z) as [-> | Hxz].
    + injection Hc as <-. auto.
    + destruct (Nat.eqb_spec x 1) as [-> | Hx1].
      * injection Hc as <-. auto.
      * destruct (Nat.eqb_spec z 1); [| discriminate]. injection Hc as -> <-.
        contradiction.
  - intros [Hx ->]. destruct (Nat.eqb_spec x z) as [-> | Hxz]; [reflexivity |].
    destruct Hx as [-> | ->]; [contradiction | reflexivity].
Qed.

Lemma bshape_rev_fits_nil (a : list nat) : bshape_rev a [] = Some [] -> a = [].
Proof. destruct a; [reflexivity | discriminate]. Qed.

Lemma bshape_rev_cons_fits (z y : nat) (c b : list nat) :
  bshape_rev (z :: c) (y :: b) = Some (z :: c) <->
  (y = z \/ y = 1) /\ bshape_rev c b = Some c.
Proof.
  cbn [bshape_rev]. split.
  - intros Hc.
    destruct (bshape_rev c b) as [c' |] eqn:E;
      [| destruct (z =? y), (z =? 1), (y =? 1); discriminate].
    destruct (Nat.eqb_spec z y) as [-> | Hzy].
    + injection Hc as <-. auto.
    + destruct (Nat.eqb_spec z 1) as [-> | Hz1].
      * injection Hc as -> <-. contradiction.
      * destruct (Nat.eqb_spec y 1) as [-> |]; [| discriminate].
        injection Hc as <-. auto.
  - intros [Hy ->]. destruct (Nat.eqb_spec z y) as [-> | Hzy]; [reflexivity |].
    destruct Hy as [-> | ->]; [contradiction |].
    destruct (Nat.eqb_spec z 1) as [-> | Hz1]; [contradiction | reflexivity].
Qed.

Lemma bshape_rev_fits_sym (a c : list nat) :
  bshape_rev a c = Some c -> bshape_rev c a = Some c.
Proof.
  revert c. induction a as [| x a IH]; intros c Hc.
  - destruct c; reflexivity.
  - destruct c as [| z c]; [discriminate |].
    apply bshape_rev_fits_cons in Hc. destruct Hc as [Hx Hc].
    apply bshape_rev_cons_fits. split; [exact Hx | apply IH, Hc].
Qed.

(** Two shapes that fit [c] broadcast together, to a shape that fits [c]. *)
Lemma bshape_rev_fits_both (a b c : list nat) :
  bshape_rev a c = Some c -> bshape_rev c b = Some c ->
  exists r, bshape_rev a b = Some r /\ bshape_rev c r = Some c.
Proof.
  revert b c. induction a as [| x a IH]; intros b c Ha Hb.
  - exists b. split; [reflexivity | exact Hb].
  - destruct c as [| z c]; [discriminate |].
    destruct b as [| y b].
    + exists (x :: a). split; [reflexivity | apply bshape_rev_fits_sym, Ha].
    + apply bshape_rev_fits_cons in Ha. destruct Ha as [Hx Ha].
      apply bshape_rev_cons_fits in Hb. destruct Hb as [Hy Hb].
      destruct (IH b c Ha Hb) as (r & Hr & Hcr).
      cbn [bshape_rev]. rewrite Hr. cbn [option_map].
      destruct (Nat.eqb_spec x y) as [-> | Hxy].
      * eexists. split; [reflexivity |].
        apply bshape_rev_cons_fits. auto.
      * destruct (Nat.eqb_spec x 1) as [-> | Hx1].
        -- eexists. split; [reflexivity |]. apply bshape_rev_cons_fits. auto.
        -- destruct (Nat.eqb_spec y 1) as [-> | Hy1].
           ++ eexists. split; [reflexivity |]. apply bshape_rev_cons_fits. auto.
           ++ destruct Hx as [-> | ->], Hy as [-> | ->]; contradiction.
Qed.

Lemma bshape_rev_snoc (a b c : list nat) (d : nat) :
  length a = length b -> bshape_rev a b = Some c ->
  bshape_rev (a ++ [d]) (b ++ [d]) = Some (c ++ [d]) /\ length c = length a.
Proof.
  revert b c. induction a as [| x a IH]; intros [| y b] c Hl Hc; try discriminate.
  - injection Hc as <-. cbn. now rewrite Nat.eqb_refl.
  - cbn [bshape_rev app] in Hc |- *. injection Hl as Hl.
    destruct (bshape_rev a b) as [c' |] eqn:E;
      [| destruct (x =? y), (x =? 1), (y =? 1); discriminate].
    destruct (IH b c' Hl E) as [-> Hlen].
    destruct (x =? y); [| destruct (x =? 1); [| destruct (y =? 1); [| discriminate]]];
      injection Hc as <-; cbn; auto.
Qed.

Lemma broadcast_shapes_rev (a b c : list nat) :
  broadcast_shapes a b = Some c <-> bshape_rev (rev a) (rev b) = Some (rev c).
Proof.
  unfold broadcast_shapes. split.
  - destruct (bshape_rev (rev a) (rev b)) as [r |]; [| discriminate].
    intros E. injection E as <-. now rewrite rev_involutive.
  - intros ->. cbn. now rewrite rev_involutive.
Qed.

(** [F] and [X] of [T] timesteps each broadcast when their timesteps do. *)
Lemma broadcast_shapes_timesteps (T : nat) (sF sX s : list nat) :
  length sF = length sX -> broadcast_shapes sF sX = Some s ->
  broadcast_shapes (T :: sF) (T :: sX) = Some (T :: s).
Proof.
  intros Hl Hs. apply broadcast_shapes_rev in Hs. apply broadcast_shapes_rev.
  cbn [rev]. apply bshape_rev_snoc; [now rewrite !length_rev | exact Hs].
Qed.

(** One timestep of [F] fits one timestep of [F * X]. *)
Lemma broadcast_shapes_gate_row (sF sX s : list nat) :
  length sF = length sX -> broadcast_shapes sF sX = Some s ->
  broadcast_shapes (1 :: sF) (1 :: s) = Some (1 :: s).
Proof.
  intros Hl Hs. apply broadcast_shapes_rev in Hs. apply broadcast_shapes_rev.
  cbn [rev].
  destruct (bshape_rev_snoc (rev sF) (rev sX) (rev s) 1) as [_ Hlen];
    [now rewrite !length_rev | exact Hs |].
  apply bshape_rev_snoc; [now symmetry | eapply bshape_rev_fits_left, Hs].
Qed.

Lemma broadcast_shapes_fits_both (a b c : list nat) :
  broadcast_shapes a c = Some c -> broadcast_shapes c b = Some c ->
  exists r, broadcast_shapes a b = Some r /\ broadcast_shapes c r = Some c.
Proof.
  intros Ha Hb. apply broadcast_shapes_rev in Ha, Hb.
  destruct (bshape_rev_fits_both _ _ _ Ha Hb) as (r & Hr & Hcr).
  exists (rev r). split; apply broadcast_shapes_rev; rewrite rev_involutive; assumption.
Qed.

Section BroadcastAccepted.

Context {A : Type} {SA : Scalar A}.

Lemma binop_returns (op : A -> A -> A) (a b : Tensor A) (r : list nat) :
  is_cuda a = is_cuda b -> broadcast_shapes (size a) (size b) = Some r ->
  exists c, binop op a b = Ok c /\ size c = r /\ is_cuda c = is_cuda a.
Proof.
  intros Hdev Hr. unfold binop. rewrite Hdev, Bool.eqb_reflx, Hr. cbn [negb].
  eexists. split; [reflexivity |]. cbn [size is_cuda]. auto.
Qed.

Lemma view_row (t : Tensor A) (s : list nat) :
  size t = 1 :: s ->
  view t (tl (size t)) = Ok {| size := s; data := data t; is_cuda := is_cuda t |}.
Proof.
  intros Hs. unfold view. rewrite Hs. cbn [tl].
  rewrite numel_cons, Nat.mul_1_l, Nat.eqb_refl. reflexivity.
Qed.

Lemma cpu_step_accepts (sF s : list nat) (d : bool) (forgets : list (Tensor A))
    (i : nat) (fi h : Tensor A) (prev : option (Tensor A)) (res : list (Tensor A)) :
  broadcast_shapes (1 :: sF) (1 :: s) = Some (1 :: s) ->
  nth_error forgets i = Some fi -> size fi = 1 :: sF -> is_cuda fi = d ->
  size h = 1 :: s -> is_cuda h = d ->
  absorbed s d prev ->
  exists h2,
    cpu_step forgets i h (prev, res) = Ok (Some h2, res ++ [h2]) /\
    size h2 = s /\ is_cuda h2 = d.
Proof.
  intros Hgate Hnth Hsf Hdf Hsh Hdh Hprev. unfold cpu_step.
  destruct prev as [p |].
  - destruct Hprev as [Hfit Hdp].
    unfold tuple_get. rewrite Hnth. cbn [rbind].
    destruct (broadcast_shapes_fits_both (1 :: sF) (size p) (1 :: s) Hgate Hfit)
      as (r & Hr & Hcr).
    destruct (binop_returns smul (rsub s1 fi) p r) as (g & Hg & Hsg & Hdg).
    { cbn [rsub is_cuda]. congruence. }
    { cbn [rsub size]. now rewrite Hsf. }
    unfold tmul. rewrite Hg. cbn [rbind].
    destruct (binop_returns sadd h g (1 :: s)) as (h1 & Hh1 & Hsh1 & Hdh1).
    { rewrite Hdg. cbn [rsub is_cuda]. congruence. }
    { now rewrite Hsh, Hsg. }
    unfold tadd. rewrite Hh1. cbn [rbind].
    rewrite (view_row h1 s Hsh1). cbn [rbind].
    eexists. split; [reflexivity |]. cbn [size is_cuda]. split; congruence.
  - cbn [rbind]. rewrite (view_row h s Hsh). cbn [rbind].
    eexists. split; [reflexivity |]. cbn [size is_cuda]. auto.
Qed.

Lemma nth_error_rows (t : Tensor A) (T i : nat) :
  i < T -> nth_error (map (fun i => narrow0 t i 1) (seq 0 T)) i = Some (narrow0 t i 1).
Proof.
  intros Hi. rewrite nth_error_map, nth_error_seq.
  destruct (Nat.ltb_spec i T); [reflexivity | lia].
Qed.

Lemma cpu_loop_accepts (F FX : Tensor A) (T : nat) (sF s : list nat) (m : nat) :
  size F = T :: sF -> size FX = T :: s -> is_cuda FX = is_cuda F ->
  broadcast_shapes (1 :: sF) (1 :: s) = Some (1 :: s) ->
  forall (i : nat) (prev : option (Tensor A)) (res : list (Tensor A)),
  i + m = T ->
  absorbed s (is_cuda F) prev ->
  Forall (fun t => size t = s /\ is_cuda t = is_cuda F) res ->
  exists prev' res',
    cpu_loop (map (fun i => narrow0 F i 1) (seq 0 T)) i
             (map (fun i => narrow0 FX i 1) (seq i m)) (prev, res)
    = Ok (prev', res') /\
    length res' = length res + m /\
    Forall (fun t => size t = s /\ is_cuda t = is_cuda F) res'.
Proof.
  intros HsF HsFX HdFX Hgate.
  induction m as [| m IH]; intros i prev res Him Hprev Hres.
  - exists prev, res. cbn. split; [reflexivity |]. split; [lia | exact Hres].
  - cbn [seq map cpu_loop].
    destruct (cpu_step_accepts sF s (is_cuda F)
                (map (fun i => narrow0 F i 1) (seq 0 T)) i
                (narrow0 F i 1) (narrow0 FX i 1) prev res Hgate)
      as (h2 & Hstep & Hs2 & Hd2); try reflexivity.
    + apply nth_error_rows. lia.
    + cbn [narrow0 size]. now rewrite HsF.
    + cbn [narrow0 size]. now rewrite HsFX.
    + exact HdFX.
    + exact Hprev.
    + rewrite Hstep. cbn [rbind].
      destruct (IH (S i) (Some h2) (res ++ [h2])) as (prev' & res' & Hrun & Hlen & Hall).
      * lia.
      * cbn [absorbed]. rewrite Hs2. split; [apply broadcast_shapes_lead | exact Hd2].
      * apply Forall_app. split; [exact Hres |]. constructor; [auto | constructor].
      * exists prev', res'. split; [exact Hrun |].
        split; [rewrite Hlen, length_app; cbn; lia | exact Hall].
Qed.

Lemma stack_same_shape (ts : list (Tensor A)) (s : list nat) (d : bool) :
  ts <> [] -> Forall (fun t => size t = s /\ is_cuda t = d) ts ->
  exists out, stack ts = Ok out /\ size out = length ts :: s /\ is_cuda out = d.
Proof.
  intros Hne Hall. destruct ts as [| t0 ts]; [congruence |].
  unfold stack.
  assert (H0 : size t0 = s /\ is_cuda t0 = d) by (inversion Hall; assumption).
  destruct H0 as [Hs0 Hd0].
  assert (Hok : forallb (fun t => same_size t0 t && Bool.eqb (is_cuda t0) (is_cuda t))
                        (t0 :: ts) = true).
  { apply forallb_forall. intros t Hin.
    rewrite Forall_forall in Hall. destruct (Hall t Hin) as [Hs Hd].
    unfold same_size. rewrite Hs0, Hs, Hd0, Hd, Bool.eqb_reflx.
    destruct (list_eq_dec Nat.eq_dec s s); [reflexivity | contradiction]. }
  rewrite Hok. eexists. split; [reflexivity |]. cbn [size is_cuda]. now rewrite Hs0.
Qed.

(** [CPUForgetMult.forward] on [F] and [X] of [T >= 1] timesteps whose
    shapes broadcast timestep by timestep, with an initial state that one
    timestep of the result absorbs: it returns. *)
Lemma cpu_forward_accepts (F X : Tensor A) (H0 : option (Tensor A)) (T : nat)
    (sF sX s : list nat) :
  size F = T :: sF -> size X = T :: sX -> length sF = length sX -> 0 < T ->
  is_cuda F = is_cuda X ->
  broadcast_shapes sF sX = Some s ->
  absorbed s (is_cuda F) H0 ->
  exists out,
    CPUForgetMult_forward F X H0 = Ok out /\ size out = T :: s /\
    is_cuda out = is_cuda F.
Proof.
  intros HsF HsX Hl HT Hdev Hs HH0. unfold CPUForgetMult_forward.
  rewrite (split1_rows F T sF HsF HT). cbn [rbind].
  destruct (binop_returns smul F X (T :: s) Hdev) as (FX & Hfx & HsFX & HdFX).
  { rewrite HsF, HsX. now apply broadcast_shapes_timesteps. }
  unfold tmul. rewrite Hfx. cbn [rbind].
  rewrite (split1_rows FX T s HsFX HT). cbn [rbind].
  destruct (cpu_loop_accepts F FX T sF s T HsF HsFX HdFX
              (broadcast_shapes_gate_row sF sX s Hl Hs) 0 H0 [] eq_refl HH0
              (Forall_nil _))
    as (prev' & res' & Hrun & Hlen & Hall).
  rewrite Hrun. cbn [rbind snd].
  destruct (stack_same_shape res' s (is_cuda F)) as (out & Hst & Hso & Hdo);
    [destruct res'; [cbn in Hlen; lia | discriminate] | exact Hall |].
  exists out. split; [exact Hst |]. split; [| exact Hdo].
  rewrite Hso, Hlen. reflexivity.
Qed.

End BroadcastAccepted.

(** C9, as stated, fails: [F] of shape (2, 1, 1), [X] of shape (2, 1, 2) and
    [H0] of shape (1) differ in shape, and the forward pass returns a
    result. *)
Lemma shape_mismatch_accepted :
  CPUForgetMult_forward (tz [2; 1; 1] [1; 2]%Z) (tz [2; 1; 2] [5; 6; 7; 8]%Z)
                        (Some (tz [1] [10%Z]))
  = Ok (tz [2; 1; 2] [5; 6; 9; 10]%Z).
Proof. reflexivity. Qed.

(** C9, amended. [CPUForgetMult.forward] checks no shape itself.  It raises,
    with an error of the tensor library and no output, when the shapes of
    [F] and [X] do not broadcast together, and, for [F] and [X] of one shape
    with [T >= 1], when the shape of [H0] does not broadcast with one
    timestep of them.  Shapes that differ are not an error by themselves:
    when [F] and [X] have the same number of dimensions and the same number
    [T >= 1] of timesteps, their timesteps broadcast together to a shape
    [s], both are on one device, and [H0] is absent or on that device and of
    a shape that broadcasts against [1 :: s] to [1 :: s] itself, it returns
    a result of shape [T :: s]. *)
Theorem shape_errors {A : Type} {SA : Scalar A}
    (F X : Tensor A) (H0 : option (Tensor A)) :
  (broadcast_shapes (size F) (size X) = None ->
   CPUForgetMult_forward F X H0 = Raise TorchError)
  /\
  (forall T s p,
     size F = T :: s -> size X = T :: s -> 0 < T -> H0 = Some p ->
     broadcast_shapes (1 :: s) (size p) = None ->
     CPUForgetMult_forward F X H0 = Raise TorchError)
  /\
  (forall T sF sX s,
     size F = T :: sF -> size X = T :: sX -> length sF = length sX -> 0 < T ->
     is_cuda F = is_cuda X ->
     broadcast_shapes sF sX = Some s ->
     absorbed s (is_cuda F) H0 ->
     exists out, CPUForgetMult_forward F X H0 = Ok out /\ size out = T :: s).
Proof.
  split; [| split].
  - intros Hb. unfold CPUForgetMult_forward.
    destruct (split1 F) as [forgets | e] eqn:Es.
    + cbn [rbind]. unfold tmul, binop. rewrite Hb.
      destruct (negb (Bool.eqb (is_cuda F) (is_cuda X))); reflexivity.
    + unfold split1 in Es. destruct (size F) as [| [| d] l]; discriminate.
  - intros T s p HsF HsX HT -> Hb.
    destruct T as [| T']; [lia |].
    unfold CPUForgetMult_forward, split1 at 1. rewrite HsF. cbn [rbind].
    unfold tmul at 1, binop.
    destruct (Bool.eqb (is_cuda F) (is_cuda X)); cbn [negb]; [| reflexivity].
    rewrite HsF, HsX, broadcast_shapes_same. cbn [rbind].
    unfold split1. cbn [size rbind seq map cpu_loop]. unfold cpu_step.
    cbn [tuple_get nth_error rbind]. unfold tmul, binop.
    cbn [rsub narrow0 size is_cuda]. rewrite HsF. cbn [tl]. rewrite Hb.
    destruct (negb (Bool.eqb (is_cuda F) (is_cuda p))); reflexivity.
  - intros T sF sX s HsF HsX Hl HT Hdev Hs HH0.
    destruct (cpu_forward_accepts F X H0 T sF sX s HsF HsX Hl HT Hdev Hs HH0)
      as (out & Hrun & Hso & _).
    exists out. split; assumption.
Qed.

Lemma shape_errors_witness :
  CPUForgetMult_forward (tz [2; 1; 3] [1; 2; 3; 4; 5; 6]%Z) (tz [2; 1; 2] [5; 6; 7; 8]%Z) None
  = Raise TorchError
  /\ CPUForgetMult_forward (tz [2; 1; 2] [1; 2; 3; 4]%Z) (tz [2; 1; 2] [5; 6; 7; 8]%Z)
                           (Some (tz [3] [1; 1; 1]%Z))
     = Raise TorchError
  /\ exists out,
       CPUForgetMult_forward (tz [2; 1; 1] [1; 2]%Z) (tz [2; 1; 2] [5; 6; 7; 8]%Z)
                             (Some (tz [1] [10%Z])) = Ok out
       /\ size out = [2; 1; 2].
Proof.
  split; [| split].
  - apply (proj1 (shape_errors (tz [2; 1; 3] [1; 2; 3; 4; 5; 6]%Z)
                               (tz [2; 1; 2] [5; 6; 7; 8]%Z) None)).
    reflexivity.
  - apply (proj1 (proj2 (shape_errors (tz [2; 1; 2] [1; 2; 3; 4]%Z)
                                      (tz [2; 1; 2] [5; 6; 7; 8]%Z)
                                      (Some (tz [3] [1; 1; 1]%Z))))
             2 [1; 2] (tz [3] [1; 1; 1]%Z));
      try reflexivity. lia.
  - apply (proj2 (proj2 (shape_errors (tz [2; 1; 1] [1; 2]%Z)
                                      (tz [2; 1; 2] [5; 6; 7; 8]%Z)
                                      (Some (tz [1] [10%Z]))))
             2 [1; 1] [1; 2] [1; 2]);
      try reflexivity; try lia.
    split; reflexivity.
Defined.

(** * Further properties of the selector *)

(** X1. [ForgetMult.forward] returns a result only through the sequential
    backend: whenever it returns, the accelerated backend was not selected
    and the result is [CPUForgetMult.forward]'s. *)
Theorem selector_returns_sequential_result {A : Type} {SA : Scalar A}
    (avail : bool) (f x : Tensor A) (hidden_init : option (Tensor A))
    (use_cuda : bool) (out : Tensor A) :
  ForgetMult_forward avail f x hidden_init use_cuda = Ok out ->
  use_cuda && avail = false /\ CPUForgetMult_forward f x hidden_init = Ok out.
Proof.
  intros Hrun. destruct (use_cuda && avail) eqn:Esel.
  - exfalso. unfold ForgetMult_forward in Hrun. rewrite Esel in Hrun.
    destruct (is_cuda f && is_cuda x); cbn [py_assert rbind] in Hrun;
      [| discriminate Hrun].
    rewrite instantiate_GPU in Hrun. destruct hidden_init; discriminate Hrun.
  - split; [reflexivity |]. rewrite selector_sequential in Hrun; assumption.
Qed.

Lemma selector_returns_sequential_result_witness :
  true && false = false
  /\ CPUForgetMult_forward (tz [1; 1; 1] [2%Z]) (tz [1; 1; 1] [3%Z]) None
     = Ok (tz [1; 1; 1] [6%Z]).
Proof.
  apply (selector_returns_sequential_result false
           (tz [1; 1; 1] [2%Z]) (tz [1; 1; 1] [3%Z]) None true (tz [1; 1; 1] [6%Z])).
  reflexivity.
Defined.

(** * A gate sequence with a single timestep *)

Section SingleGateRow.

Context {A : Type} {SA : Scalar A}.

Lemma bshape_rev_common_prefix (l a b : list nat) :
  bshape_rev (l ++ a) (l ++ b) = option_map (app l) (bshape_rev a b).
Proof.
  induction l as [| d l IH]; cbn [app].
  - destruct (bshape_rev a b); reflexivity.
  - cbn [bshape_rev]. rewrite Nat.eqb_refl, IH.
    destruct (bshape_rev a b); reflexivity.
Qed.

(** One row broadcasts against [T] rows. *)
Lemma broadcast_shapes_one_row (T : nat) (s : list nat) :
  broadcast_shapes (1 :: s) (T :: s) = Some (T :: s).
Proof.
  unfold broadcast_shapes. cbn [rev]. rewrite bshape_rev_common_prefix.
  cbn [bshape_rev]. destruct (1 =? T) eqn:E.
  - apply Nat.eqb_eq in E. subst T. cbn. now rewrite rev_app_distr, rev_involutive.
  - cbn. now rewrite rev_app_distr, rev_involutive.
Qed.

End SingleGateRow.

(** X2. When [F] has a single timestep and [X] has two or more (the same
    trailing shape and device, so that [F * X] broadcasts), the forward pass
    raises [IndexError]: the second turn of the loop indexes [forgets] past
    its only chunk. *)
Theorem single_gate_row_raises_IndexError {A : Type} {SA : Scalar A}
    (F X : Tensor A) (T : nat) (s : list nat) :
  size F = 1 :: s -> size X = T :: s -> 2 <= T -> is_cuda F = is_cuda X ->
  CPUForgetMult_forward F X None = Raise IndexError.
Proof.
  intros HsF HsX HT Hdev.
  destruct T as [| [| T']]; try lia.
  unfold CPUForgetMult_forward, split1 at 1. rewrite HsF. cbn [rbind seq map].
  unfold tmul, binop.
  rewrite Hdev, Bool.eqb_reflx, HsF, HsX, broadcast_shapes_one_row. cbn [negb rbind].
  unfold split1. cbn [size rbind seq map cpu_loop].
  unfold cpu_step at 1. cbn [rbind].
  rewrite (view_row _ s) by reflexivity. cbn [rbind].
  unfold cpu_step. cbn [tuple_get nth_error rbind]. reflexivity.
Qed.

Lemma single_gate_row_raises_IndexError_witness :
  CPUForgetMult_forward (tz [1; 1; 2] [1; 2]%Z) (tz [2; 1; 2] [5; 6; 7; 8]%Z) None
  = Raise IndexError.
Proof.
  apply (single_gate_row_raises_IndexError
           (tz [1; 1; 2] [1; 2]%Z) (tz [2; 1; 2] [5; 6; 7; 8]%Z) 2 [1; 2]);
    try reflexivity; lia.
Defined.

(** * Gates at the ends of their range, lanes, and bounds *)

Section GateFacts.

Context {A : Type} {SA : Scalar A}.

Add Ring scalar_ring_gate : (@scalar_ring A SA).

(** Two well-formed tensors of shape [(T, B, H)] on one device with the
    same elements are the same tensor. *)
Lemma tensor3_ext (a b : Tensor A) (T B H : nat) :
  size a = [T; B; H] -> size b = [T; B; H] -> wf a -> wf b ->
  is_cuda a = is_cuda b ->
  (forall t i j, t < T -> i < B -> j < H -> item a [t; i; j] = item b [t; i; j]) ->
  a = b.
Proof.
  intros Hsa Hsb Hwa Hwb Hdev Hitem.
  destruct a as [sa da ca], b as [sb db cb]. cbn [size data is_cuda] in *.
  unfold wf in Hwa, Hwb. cbn [size data] in Hwa, Hwb. subst sa sb ca.
  f_equal. apply (nth_ext _ _ s0 s0); [congruence |].
  intros k Hk. rewrite Hwa in Hk. cbn [numel fold_right] in Hk.
  destruct (flat_index_split T (B * H) k ltac:(lia)) as (t & l & Ht & Hl & ->).
  assert (HH : H <> 0) by (intros ->; lia).
  pose proof (Nat.div_mod_eq l H) as El.
  pose proof (Nat.mod_upper_bound l H HH) as Hj.
  assert (Hi : l / H < B) by (apply Nat.Div0.div_lt_upper_bound; lia).
  specialize (Hitem t (l / H) (l mod H) Ht Hi Hj).
  unfold item in Hitem. cbn [size data] in Hitem. rewrite !ravel3 in Hitem.
  replace (l / H * H + l mod H) with l in Hitem by lia. exact Hitem.
Qed.

Variables (F X : Tensor A) (H0 : option (Tensor A)) (T B H : nat).
Hypothesis HsF : size F = [T; B; H].
Hypothesis HsX : size X = [T; B; H].
Hypothesis HwF : wf F.
Hypothesis Hdev : is_cuda F = is_cuda X.
Hypothesis HT : 0 < T.
Hypothesis HH0 : match H0 with Some p => row_like [B; H] (is_cuda F) p | None => True end.

(** With every gate at 1 the hidden state is replaced at each step: the
    result is [X]. *)
Lemma unit_gate_result :
  wf X ->
  (forall t b h, t < T -> b < B -> h < H -> item F [t; b; h] = s1) ->
  CPUForgetMult_forward F X H0 = Ok X.
Proof.
  intros HwX Hone.
  destruct (cpu_obeys_recurrence F X H0 T B H HsF HsX HwF Hdev HT HH0)
    as (out & Hrun & Hs & Hw & Hd & Hrec).
  rewrite Hrun. f_equal.
  apply (tensor3_ext out X T B H); auto; [congruence |].
  intros t b h Ht Hb Hh. rewrite Hrec, Hone by assumption. ring.
Qed.

(** With every gate at 0 the hidden state is frozen: each timestep of the
    result is the initial state. *)
Lemma zero_gate_result :
  (forall t b h, t < T -> b < B -> h < H -> item F [t; b; h] = s0) ->
  exists out,
    CPUForgetMult_forward F X H0 = Ok out /\
    size out = [T; B; H] /\
    forall t b h, t < T -> b < B -> h < H -> item out [t; b; h] = initial_value H0 b h.
Proof.
  intros Hzero.
  destruct (cpu_obeys_recurrence F X H0 T B H HsF HsX HwF Hdev HT HH0)
    as (out & Hrun & Hs & Hw & Hd & Hrec).
  exists out. split; [exact Hrun |]. split; [exact Hs |].
  intros t b h Ht Hb Hh. induction t as [| t IH].
  - rewrite Hrec, Hzero by assumption. ring.
  - rewrite Hrec, Hzero by assumption. rewrite IH by lia. ring.
Qed.

End GateFacts.

(** X3. Unit gate: when every element of [F] is 1, the forward pass returns
    [X] itself, whatever the initial state. *)
Theorem unit_gate_returns_X {A : Type} {SA : Scalar A}
    (F X : Tensor A) (H0 : option (Tensor A)) (T B H : nat) :
  size F = [T; B; H] -> size X = [T; B; H] -> wf F -> wf X ->
  is_cuda F = is_cuda X -> 0 < T ->
  match H0 with Some p => row_like [B; H] (is_cuda F) p | None => True end ->
  (forall t b h, t < T -> b < B -> h < H -> item F [t; b; h] = s1) ->
  CPUForgetMult_forward F X H0 = Ok X.
Proof.
  intros HsF HsX HwF HwX Hdev HT HH0 Hone.
  apply (unit_gate_result F X H0 T B H); assumption.
Qed.

Lemma unit_gate_returns_X_witness :
  CPUForgetMult_forward (tz [2; 1; 2] [1; 1; 1; 1]%Z) (tz [2; 1; 2] [5; 6; 7; 8]%Z)
                        (Some (tz [1; 2] [10; 20]%Z))
  = Ok (tz [2; 1; 2] [5; 6; 7; 8]%Z).
Proof.
  apply (unit_gate_returns_X (tz [2; 1; 2] [1; 1; 1; 1]%Z) (tz [2; 1; 2] [5; 6; 7; 8]%Z)
           (Some (tz [1; 2] [10; 20]%Z)) 2 1 2);
    try reflexivity; try lia.
  - repeat split; reflexivity.
  - intros [| [| t]] [| b] [| [| h]] Ht Hb Hh; try lia; reflexivity.
Defined.

(** X4. Zero gate: when every element of [F] is 0, every timestep of the
    result is the initial state (zero when none is given). *)
Theorem zero_gate_freezes_state {A : Type} {SA : Scalar A}
    (F X : Tensor A) (H0 : option (Tensor A)) (T B H : nat) :
  size F = [T; B; H] -> size X = [T; B; H] -> wf F ->
  is_cuda F = is_cuda X -> 0 < T ->
  match H0 with Some p => row_like [B; H] (is_cuda F) p | None => True end ->
  (forall t b h, t < T -> b < B -> h < H -> item F [t; b; h] = s0) ->
  exists out,
    CPUForgetMult_forward F X H0 = Ok out /\
    size out = [T; B; H] /\
    forall t b h, t < T -> b < B -> h < H -> item out [t; b; h] = initial_value H0 b h.
Proof.
  intros HsF HsX HwF Hdev HT HH0 Hzero.
  apply (zero_gate_result F X H0 T B H); assumption.
Qed.

Lemma zero_gate_freezes_state_witness :
  exists out,
    CPUForgetMult_forward (tz [2; 1; 2] [0; 0; 0; 0]%Z) (tz [2; 1; 2] [5; 6; 7; 8]%Z)
                          (Some (tz [1; 2] [10; 20]%Z)) = Ok out /\
    size out = [2; 1; 2].
Proof.
  destruct (zero_gate_freezes_state
              (tz [2; 1; 2] [0; 0; 0; 0]%Z) (tz [2; 1; 2] [5; 6; 7; 8]%Z)
              (Some (tz [1; 2] [10; 20]%Z)) 2 1 2)
    as (out & Hrun & Hs & _);
    try reflexivity; try lia.
  - repeat split; reflexivity.
  - intros [| [| t]] [| b] [| [| h]] Ht Hb Hh; try lia; reflexivity.
  - exists out. split; assumption.
Defined.

(** X5. Lanes do not mix: the result at lane [(b, h)] depends only on that
    lane of [F], [X] and the initial state.  Two calls whose inputs agree on
    one lane return results that agree on it at every timestep. *)
Theorem lanes_are_independent {A : Type} {SA : Scalar A}
    (F X F' X' : Tensor A) (H0 H0' : option (Tensor A)) (T B H b h : nat) :
  size F = [T; B; H] -> size X = [T; B; H] -> wf F -> is_cuda F = is_cuda X ->
  size F' = [T; B; H] -> size X' = [T; B; H] -> wf F' -> is_cuda F' = is_cuda X' ->
  0 < T -> b < B -> h < H ->
  match H0 with Some p => row_like [B; H] (is_cuda F) p | None => True end ->
  match H0' with Some p => row_like [B; H] (is_cuda F') p | None => True end ->
  (forall t, t < T -> item F [t; b; h] = item F' [t; b; h]) ->
  (forall t, t < T -> item X [t; b; h] = item X' [t; b; h]) ->
  initial_value H0 b h = initial_value H0' b h ->
  exists out out',
    CPUForgetMult_forward F X H0 = Ok out /\
    CPUForgetMult_forward F' X' H0' = Ok out' /\
    forall t, t < T -> item out [t; b; h] = item out' [t; b; h].
Proof.
  intros HsF HsX HwF Hdev HsF' HsX' HwF' Hdev' HT Hb Hh HH0 HH0' EF EX E0.
  destruct (cpu_obeys_recurrence F X H0 T B H HsF HsX HwF Hdev HT HH0)
    as (out & Hrun & _ & _ & _ & Hrec).
  destruct (cpu_obeys_recurrence F' X' H0' T B H HsF' HsX' HwF' Hdev' HT HH0')
    as (out' & Hrun' & _ & _ & _ & Hrec').
  exists out, out'. split; [exact Hrun |]. split; [exact Hrun' |].
  intros t Ht. induction t as [| t IH].
  - rewrite Hrec, Hrec', EF, EX, E0 by assumption. reflexivity.
  - rewrite Hrec, Hrec', EF, EX by assumption. rewrite IH by lia. reflexivity.
Qed.

Lemma lanes_are_independent_witness :
  exists out out',
    CPUForgetMult_forward (tz [2; 1; 2] [1; 2; 3; 4]%Z) (tz [2; 1; 2] [5; 6; 7; 8]%Z) None
    = Ok out /\
    CPUForgetMult_forward (tz [2; 1; 2] [1; 9; 3; 9]%Z) (tz [2; 1; 2] [5; 0; 7; 0]%Z)
                          (Some (tz [1; 2] [0; 20]%Z)) = Ok out' /\
    forall t, t < 2 -> item out [t; 0; 0] = item out' [t; 0; 0].
Proof.
  apply (lanes_are_independent
           (tz [2; 1; 2] [1; 2; 3; 4]%Z) (tz [2; 1; 2] [5; 6; 7; 8]%Z)
           (tz [2; 1; 2] [1; 9; 3; 9]%Z) (tz [2; 1; 2] [5; 0; 7; 0]%Z)
           None (Some (tz [1; 2] [0; 20]%Z)) 2 1 2 0 0);
    try reflexivity; try lia; try exact I.
  - repeat split; reflexivity.
  - intros [| [| t]] Ht; try lia; reflexivity.
  - intros [| [| t]] Ht; try lia; reflexivity.
Defined.

(** X6. Weighted averaging, on real numbers: when every gate lies in
    [0, 1] and every element of [X] and of the initial state (0 when none is
    given) lies in [lo, hi], so does every element of the result. *)
Theorem result_stays_within_bounds
    (F X : Tensor R) (H0 : option (Tensor R)) (T B H : nat) (lo hi : R) :
  size F = [T; B; H] -> size X = [T; B; H] -> wf F -> is_cuda F = is_cuda X ->
  0 < T ->
  match H0 with Some p => row_like [B; H] (is_cuda F) p | None => True end ->
  (forall t b h, t < T -> b < B -> h < H -> (0 <= item F [t; b; h] <= 1)%R) ->
  (forall t b h, t < T -> b < B -> h < H -> (lo <= item X [t; b; h] <= hi)%R) ->
  (forall b h, b < B -> h < H -> (lo <= initial_value H0 b h <= hi)%R) ->
  exists out,
    CPUForgetMult_forward F X H0 = Ok out /\
    forall t b h, t < T -> b < B -> h < H -> (lo <= item out [t; b; h] <= hi)%R.
Proof.
  intros HsF HsX HwF Hdev HT HH0 HF HX Hinit.
  destruct (cpu_obeys_recurrence F X H0 T B H HsF HsX HwF Hdev HT HH0)
    as (out & Hrun & _ & _ & _ & Hrec).
  exists out. split; [exact Hrun |].
  intros t b h Ht Hb Hh. induction t as [| t IH].
  - rewrite Hrec by assumption. cbn [sadd smul ssub s1 R_Scalar].
    specialize (HF 0 b h Ht Hb Hh). specialize (HX 0 b h Ht Hb Hh).
    specialize (Hinit b h Hb Hh). nra.
  - rewrite Hrec by assumption. cbn [sadd smul ssub s1 R_Scalar].
    specialize (HF (S t) b h Ht Hb Hh). specialize (HX (S t) b h Ht Hb Hh).
    specialize (IH ltac:(lia)). nra.
Qed.

Lemma result_stays_within_bounds_witness :
  exists out,
    CPUForgetMult_forward (tr [2; 1; 1] [1 / 2; 1 / 4]%R) (tr [2; 1; 1] [3; 1]%R) None
    = Ok out /\
    forall t b h, t < 2 -> b < 1 -> h < 1 -> (0 <= item out [t; b; h] <= 3)%R.
Proof.
  apply (result_stays_within_bounds
           (tr [2; 1; 1] [1 / 2; 1 / 4]%R) (tr [2; 1; 1] [3; 1]%R) None 2 1 1 0%R 3%R);
    try reflexivity; try lia; try exact I.
  - intros [| [| t]] [| b] [| h] Ht Hb Hh; try lia; unfold item; cbn; lra.
  - intros [| [| t]] [| b] [| h] Ht Hb Hh; try lia; unfold item; cbn; lra.
  - intros b h Hb Hh. cbn. lra.
Defined.

(** * The backward kernel computes the gradient of the forward kernel *)

Section ScanIsAdjoint.

Context {A : Type} {SA : Scalar A}.

Add Ring scalar_ring_adj : (@scalar_ring A SA).

(** The scan is the transpose of the recurrence's linearisation: for a
    sequence [D] driven through the steps by
    [D[t] = F[t] * dx[t] + (X[t] - H[t-1]) * df[t] + (1 - F[t]) * D[t-1]],
    the [gH]-weighted sum of [D] is the sum of [dX * dx + dF * df] plus
    [dH0 * D[0]]. *)
Lemma scan_dot (mk : nat -> lane_step A) (dx df D : nat -> A) (m : nat) :
  forall a,
  (forall r, a <= r < a + m ->
     D (S r) = (step_F (mk r) * dx r + (step_X (mk r) - step_Hprev (mk r)) * df r
                + (s1 - step_F (mk r)) * D r)%S) ->
  ssum (map (fun r => (step_gH (mk r) * D (S r))%S) (seq a m))
  = (ssum (map (fun r =>
                  (fst (nth (r - a) (fst (adjoint_scan (map mk (seq a m)))) (s0, s0)) * dx r
                   + snd (nth (r - a) (fst (adjoint_scan (map mk (seq a m)))) (s0, s0)) * df r)%S)
               (seq a m))
     + snd (adjoint_scan (map mk (seq a m))) * D a)%S.
Proof.
  induction m as [| m IH]; intros a HD.
  - cbn. ring.
  - cbn [seq map ssum]. rewrite adjoint_scan_cons.
    specialize (IH (S a) ltac:(intros r Hr; apply HD; lia)).
    set (later := adjoint_scan (map mk (seq (S a) m))) in *.
    set (o := ((step_F (mk a) * (snd later + step_gH (mk a)))%S,
               ((step_X (mk a) - step_Hprev (mk a)) * (snd later + step_gH (mk a)))%S)).
    cbn [fst snd].
    assert (Hmap :
      map (fun r => (fst (nth (r - a) (o :: fst later) (s0, s0)) * dx r
                     + snd (nth (r - a) (o :: fst later) (s0, s0)) * df r)%S)
          (seq (S a) m)
      = map (fun r => (fst (nth (r - S a) (fst later) (s0, s0)) * dx r
                       + snd (nth (r - S a) (fst later) (s0, s0)) * df r)%S)
            (seq (S a) m)).
    { apply map_ext_in. intros r Hr. apply in_seq in Hr.
      replace (r - a) with (S (r - S a)) by lia. reflexivity. }
    rewrite Hmap, IH, Nat.sub_diag. cbn [nth]. unfold o. cbn [fst snd].
    rewrite (HD a) by lia. unfold attenuate. ring.
Qed.

End ScanIsAdjoint.

Lemma off_of_nat (T B H t b h : nat) :
  Z.to_nat (off (Z.of_nat H) (Z.of_nat B) (Z.of_nat b) (Z.of_nat h) (Z.of_nat t))
  = t * (B * H) + (b * H + h).
Proof. unfold off. nia. Qed.

Section BackwardKernelRef.

Context {A : Type} {SA : Scalar A}.

(** The backward kernel on element lists of [T] timesteps of [B * H] lanes:
    a launch that covers every lane returns, and holds at each lane the
    outputs of the spec's scan over that lane's rows. *)
Lemma kernel_backward_ref (h f x gh gf0 gx0 gi0 : list A) (T B H : nat)
    (ths : list thread) :
  (Z.of_nat (T + 1) * Z.of_nat H * Z.of_nat B < 2 ^ 31)%Z ->
  length h = (T + 1) * (B * H) ->
  length f = T * (B * H) -> length x = T * (B * H) -> length gh = T * (B * H) ->
  length gf0 = T * (B * H) -> length gx0 = T * (B * H) -> length gi0 = B * H ->
  Forall nonneg ths ->
  (forall b h, b < B -> h < H -> covered ths (Z.of_nat b) (Z.of_nat h)) ->
  exists gf' gx' gi',
    launch (bwd_recurrent_forget_mult h f x gh (Z.of_nat T) (Z.of_nat B) (Z.of_nat H))
           ths (gf0, gx0, gi0) = Some (gf', gx', gi') /\
    length gf' = T * (B * H) /\ length gx' = T * (B * H) /\ length gi' = B * H /\
    forall b l, b < B -> l < H ->
      (forall r, r < T ->
         nth (r * (B * H) + (b * H + l)) gx' s0
         = fst (nth r (fst (adjoint_scan (lane_rows (B * H) T (b * H + l) h f x gh)))
                    (s0, s0)) /\
         nth (r * (B * H) + (b * H + l)) gf' s0
         = snd (nth r (fst (adjoint_scan (lane_rows (B * H) T (b * H + l) h f x gh)))
                    (s0, s0))) /\
      nth (b * H + l) gi' s0
      = snd (adjoint_scan (lane_rows (B * H) T (b * H + l) h f x gh)).
Proof.
  intros Hmax Hh Hf Hx Hgh Hgf Hgx Hgi Hnn Hcov.
  destruct (@bwd_launch_spec A SA h f x gh (Z.of_nat T) (Z.of_nat B) (Z.of_nat H)
              ltac:(lia) ltac:(lia) ltac:(nia) ltac:(nia) ltac:(nia) ltac:(nia)
              ths (gf0, gx0, gi0) Hnn)
    as (out' & Hrun & Hsz & Hadj).
  { repeat split; cbn [fst snd]; nia. }
  destruct out' as [[gf' gx'] gi']. destruct Hsz as (Sgf & Sgx & Sgi).
  cbn [fst snd] in Sgf, Sgx, Sgi.
  exists gf', gx', gi'. split; [exact Hrun |].
  split; [nia |]. split; [nia |]. split; [nia |].
  intros b l Hb Hl.
  specialize (Hadj (Z.of_nat b) (Z.of_nat l) ltac:(lia) ltac:(lia) (Hcov b l Hb Hl)).
  unfold lane_adjoint in Hadj. cbn zeta in Hadj.
  assert (Esteps : lane_steps f x (Z.of_nat T) (Z.of_nat B) (Z.of_nat H) h gh
                     (Z.of_nat b) (Z.of_nat l)
                   = lane_rows (B * H) T (b * H + l) h f x gh).
  { unfold lane_steps, lane_rows. rewrite Nat2Z.id.
    apply map_ext. intros r. unfold rd. rewrite (off_of_nat T). reflexivity. }
  rewrite Esteps in Hadj. destruct Hadj as [Hrows Hacc]. split.
  - intros r Hr. specialize (Hrows r ltac:(lia)).
    unfold rd in Hrows. rewrite (off_of_nat T) in Hrows. exact Hrows.
  - unfold rd in Hacc.
    replace (Z.to_nat (Z.of_nat b * Z.of_nat H + Z.of_nat l)) with (b * H + l)
      in Hacc by lia.
    exact Hacc.
Qed.

End BackwardKernelRef.

Section ExactGradients.

Context {A : Type} {SA : Scalar A}.

Add Ring scalar_ring_grad : (@scalar_ring A SA).

Lemma ssum_map_ext (g g' : nat -> A) (l : list nat) :
  (forall r, In r l -> g r = g' r) -> ssum (map g l) = ssum (map g' l).
Proof. intros E. now rewrite (map_ext_in g g' l E). Qed.

(** A sum with a single non-zero term. *)
Lemma ssum_single (c : nat -> A) (d : A) (s m : nat) :
  forall a, a <= s < a + m ->
  ssum (map (fun r => (c r * (if r =? s then d else s0))%S) (seq a m)) = (c s * d)%S.
Proof.
  induction m as [| m IH]; intros a Hs; [lia |].
  cbn [seq map ssum]. destruct (Nat.eqb_spec a s) as [-> | Hne].
  - rewrite (ssum_map_ext _ (fun _ => s0)).
    + assert (Z0 : forall l : list nat, ssum (map (fun _ => s0) l) = s0).
      { induction l as [| ? l IHl]; cbn [map ssum]; [reflexivity | rewrite IHl; ring]. }
      rewrite Z0. ring.
    + intros r Hr. apply in_seq in Hr.
      destruct (Nat.eqb_spec r s); [lia | ring].
  - rewrite IH by lia. ring.
Qed.

Variables (f x gh : list A) (T B H : nat).
Hypothesis Hmax : (Z.of_nat (T + 1) * Z.of_nat H * Z.of_nat B < 2 ^ 31)%Z.
Hypothesis Hf : length f = T * (B * H).
Hypothesis Hx : length x = T * (B * H).
Hypothesis Hgh : length gh = T * (B * H).

Variable ths : list thread.
Hypothesis Hnn : Forall nonneg ths.
Hypothesis Hcov : forall b h, b < B -> h < H -> covered ths (Z.of_nat b) (Z.of_nat h).

Local Abbreviation n := (B * H).

(** The loss changes by exactly [dX . (x' - x) + dH0 . (h0' - h0)] when [X]
    and the initial state change: the forward pass is affine in them. *)
Lemma gradient_X_H0 (x' dst0 dst0' dF0 dX0 dH00 : list A) :
  length x' = T * n -> length dst0 = (T + 1) * n -> length dst0' = (T + 1) * n ->
  length dF0 = T * n -> length dX0 = T * n -> length dH00 = n ->
  exists hs hs' dF dX dH0,
    launch (recurrent_forget_mult f x (Z.of_nat T) (Z.of_nat B) (Z.of_nat H)) ths dst0
    = Some hs /\
    launch (recurrent_forget_mult f x' (Z.of_nat T) (Z.of_nat B) (Z.of_nat H)) ths dst0'
    = Some hs' /\
    launch (bwd_recurrent_forget_mult hs f x gh (Z.of_nat T) (Z.of_nat B) (Z.of_nat H))
           ths (dF0, dX0, dH00) = Some (dF, dX, dH0) /\
    forall b l, b < B -> l < H ->
      loss_change n T (b * H + l) gh hs hs'
      = (gradient_dot n T (b * H + l) dX x x'
         + nth (b * H + l) dH0 s0
           * (nth (b * H + l) dst0' s0 - nth (b * H + l) dst0 s0))%S.
Proof.
  intros Hx' Hd Hd' HdF HdX HdH.
  destruct (@kernel_forward_ref A SA f x T B H Hmax Hf Hx ths dst0 Hnn Hcov Hd)
    as (hs & Hrun & Hlen & Hval).
  destruct (@kernel_forward_ref A SA f x' T B H Hmax Hf Hx' ths dst0' Hnn Hcov Hd')
    as (hs' & Hrun' & Hlen' & Hval').
  destruct (@kernel_backward_ref A SA hs f x gh dF0 dX0 dH00 T B H ths Hmax
              ltac:(lia) Hf Hx Hgh HdF HdX HdH Hnn Hcov)
    as (dF & dX & dH0 & Hbwd & _ & _ & _ & Hadj).
  exists hs, hs', dF, dX, dH0.
  split; [exact Hrun |]. split; [exact Hrun' |]. split; [exact Hbwd |].
  intros b l Hb Hl. destruct (Hadj b l Hb Hl) as [Hrows Hacc].
  set (j := b * H + l) in *.
  pose proof (@scan_dot A SA
                (fun r => {| step_F := nth (r * n + j) f s0;
                             step_X := nth (r * n + j) x s0;
                             step_Hprev := nth (r * n + j) hs s0;
                             step_gH := nth (r * n + j) gh s0 |})
                (fun r => (nth (r * n + j) x' s0 - nth (r * n + j) x s0)%S)
                (fun _ => s0)
                (fun t => (nth (t * n + j) hs' s0 - nth (t * n + j) hs s0)%S)
                T 0) as Hdot.
  cbn beta in Hdot. cbn [step_F step_X step_Hprev step_gH] in Hdot.
  fold (lane_rows n T j hs f x gh) in Hdot.
  unfold loss_change, gradient_dot. rewrite Hdot.
  - rewrite Hacc. f_equal.
    + apply ssum_map_ext. intros r Hr. apply in_seq in Hr.
      rewrite Nat.sub_0_r. destruct (Hrows r ltac:(lia)) as [-> _]. ring.
    + f_equal.
      pose proof (Hval 0 b l ltac:(lia) Hb Hl) as E0.
      pose proof (Hval' 0 b l ltac:(lia) Hb Hl) as E0'.
      cbn [hidden_ref Nat.mul Nat.add] in E0, E0' |- *.
      fold j in E0, E0'. rewrite E0, E0'. reflexivity.
  - intros r Hr. unfold j.
    rewrite (Hval (S r) b l), (Hval' (S r) b l) by (auto; lia).
    rewrite (Hval r b l), (Hval' r b l) by (auto; lia).
    cbn [hidden_ref]. ring.
Qed.

(** The loss changes by exactly [dF[s] * (v - F[s])] when one gate, of
    timestep [s + 1] and lane [(b, l)], is set to [v]: the forward pass is
    affine in each single gate. *)
Lemma gradient_F_cell (dst0 dF0 dX0 dH00 : list A) (s b l : nat) (v : A) :
  length dst0 = (T + 1) * n ->
  length dF0 = T * n -> length dX0 = T * n -> length dH00 = n ->
  s < T -> b < B -> l < H ->
  exists hs hs' dF dX dH0,
    launch (recurrent_forget_mult f x (Z.of_nat T) (Z.of_nat B) (Z.of_nat H)) ths dst0
    = Some hs /\
    launch (recurrent_forget_mult (upd (s * n + (b * H + l)) v f) x
              (Z.of_nat T) (Z.of_nat B) (Z.of_nat H)) ths dst0
    = Some hs' /\
    launch (bwd_recurrent_forget_mult hs f x gh (Z.of_nat T) (Z.of_nat B) (Z.of_nat H))
           ths (dF0, dX0, dH00) = Some (dF, dX, dH0) /\
    loss_change n T (b * H + l) gh hs hs'
    = (nth (s * n + (b * H + l)) dF s0 * (v - nth (s * n + (b * H + l)) f s0))%S.
Proof.
  intros Hd HdF HdX HdH Hs Hb Hl.
  set (j := b * H + l).
  assert (Hj : j < n) by (unfold j; nia).
  set (f' := upd (s * n + j) v f).
  assert (Hf' : length f' = T * n) by (unfold f'; rewrite upd_length; exact Hf).
  destruct (@kernel_forward_ref A SA f x T B H Hmax Hf Hx ths dst0 Hnn Hcov Hd)
    as (hs & Hrun & Hlen & Hval).
  destruct (@kernel_forward_ref A SA f' x T B H Hmax Hf' Hx ths dst0 Hnn Hcov Hd)
    as (hs' & Hrun' & Hlen' & Hval').
  destruct (@kernel_backward_ref A SA hs f x gh dF0 dX0 dH00 T B H ths Hmax
              ltac:(lia) Hf Hx Hgh HdF HdX HdH Hnn Hcov)
    as (dF & dX & dH0 & Hbwd & _ & _ & _ & Hadj).
  exists hs, hs', dF, dX, dH0.
  split; [exact Hrun |]. split; [exact Hrun' |]. split; [exact Hbwd |].
  destruct (Hadj b l Hb Hl) as [Hrows Hacc]. fold j in Hrows, Hacc.
  assert (Hother : forall r, r <> s -> nth (r * n + j) f' s0 = nth (r * n + j) f s0).
  { intros r Hr. unfold f'. apply nth_upd_other. nia. }
  assert (Hcell : nth (s * n + j) f' s0 = v).
  { unfold f'. apply nth_upd_same. nia. }
  assert (Hsame : forall t, t <= s -> nth (t * n + j) hs' s0 = nth (t * n + j) hs s0).
  { intros t Ht. unfold j. rewrite (Hval t b l), (Hval' t b l) by (auto; lia).
    fold j. induction t as [| t IH]; [reflexivity |].
    cbn [hidden_ref]. rewrite IH by lia. rewrite Hother by lia. reflexivity. }
  pose proof (@scan_dot A SA
                (fun r => {| step_F := nth (r * n + j) f s0;
                             step_X := nth (r * n + j) x s0;
                             step_Hprev := nth (r * n + j) hs s0;
                             step_gH := nth (r * n + j) gh s0 |})
                (fun _ => s0)
                (fun r => if r =? s then (v - nth (s * n + j) f s0)%S else s0)
                (fun t => (nth (t * n + j) hs' s0 - nth (t * n + j) hs s0)%S)
                T 0) as Hdot.
  cbn beta in Hdot. cbn [step_F step_X step_Hprev step_gH] in Hdot.
  fold (lane_rows n T j hs f x gh) in Hdot.
  unfold loss_change. rewrite Hdot.
  - rewrite (Hsame 0) by lia.
    rewrite (ssum_map_ext _
               (fun r => (snd (nth r (fst (adjoint_scan (lane_rows n T j hs f x gh))) (s0, s0))
                          * (if r =? s then (v - nth (s * n + j) f s0) else s0))%S)).
    2: { intros r Hr. rewrite Nat.sub_0_r. ring. }
    rewrite (ssum_single _ _ s T 0) by lia.
    destruct (Hrows s Hs) as [_ ->]. ring.
  - intros r Hr. unfold j at 1 2.
    rewrite (Hval (S r) b l), (Hval' (S r) b l) by (auto; lia). fold j.
    cbn [hidden_ref].
    assert (Er : hidden_ref n f x dst0 r j = nth (r * n + j) hs s0).
    { unfold j. symmetry. apply Hval; auto; lia. }
    assert (Er' : hidden_ref n f' x dst0 r j = nth (r * n + j) hs' s0).
    { unfold j. symmetry. apply Hval'; auto; lia. }
    rewrite Er, Er'. destruct (Nat.eqb_spec r s) as [-> | Hne].
    + rewrite Hcell, (Hsame s) by lia. ring.
    + rewrite Hother by exact Hne. ring.
Qed.

End ExactGradients.

(** X7. The backward kernel returns the exact gradient with respect to [X]
    and the initial state.  Run the forward kernel on [(f, x, dst0)] and on
    [(f, x', dst0')], and the backward kernel on the first run's hidden
    sequence with upstream gradient [gh]: at every lane the loss
    [sum of gH[t] * H[t]] changes by
    [sum of dX[t] * (x'[t] - x[t]) + dH0 * (h0' - h0)]. *)
Theorem backward_is_exact_gradient_in_X_and_H0 {A : Type} {SA : Scalar A}
    (f x x' gh dst0 dst0' dF0 dX0 dH00 : list A) (T B H : nat)
    (gx gy bx by_ : nat) (ths : list thread) :
  (Z.of_nat (T + 1) * Z.of_nat H * Z.of_nat B < 2 ^ 31)%Z ->
  length f = T * (B * H) -> length x = T * (B * H) -> length gh = T * (B * H) ->
  length x' = T * (B * H) ->
  length dst0 = (T + 1) * (B * H) -> length dst0' = (T + 1) * (B * H) ->
  length dF0 = T * (B * H) -> length dX0 = T * (B * H) -> length dH00 = B * H ->
  Permutation ths (grid_threads gx gy bx by_) ->
  grid_fits gx gy bx by_ -> H <= gx * bx -> B <= gy * by_ ->
  exists hs hs' dF dX dH0,
    launch (recurrent_forget_mult f x (Z.of_nat T) (Z.of_nat B) (Z.of_nat H)) ths dst0
    = Some hs /\
    launch (recurrent_forget_mult f x' (Z.of_nat T) (Z.of_nat B) (Z.of_nat H)) ths dst0'
    = Some hs' /\
    launch (bwd_recurrent_forget_mult hs f x gh (Z.of_nat T) (Z.of_nat B) (Z.of_nat H))
           ths (dF0, dX0, dH00) = Some (dF, dX, dH0) /\
    forall b l, b < B -> l < H ->
      loss_change (B * H) T (b * H + l) gh hs hs'
      = (gradient_dot (B * H) T (b * H + l) dX x x'
         + nth (b * H + l) dH0 s0
           * (nth (b * H + l) dst0' s0 - nth (b * H + l) dst0 s0))%S.
Proof.
  intros Hmax Hf Hx Hgh Hx' Hd Hd' HdF HdX HdH Hperm Hfit HgH HgB.
  apply (@gradient_X_H0 A SA f x gh T B H Hmax Hf Hx Hgh ths); auto.
  - apply (schedule_nonneg gx gy bx by_ ths Hperm Hfit).
  - intros b h Hb Hh.
    apply (schedule_covered gx gy bx by_ ths (Z.of_nat B) (Z.of_nat H) _ _ Hperm Hfit); lia.
Qed.

Lemma backward_is_exact_gradient_in_X_and_H0_witness :
  exists hs hs' dF dX dH0,
    launch (recurrent_forget_mult [1; 2; 3; 4]%Z [5; 6; 7; 8]%Z
              (Z.of_nat 2) (Z.of_nat 1) (Z.of_nat 2))
           (grid_threads 1 1 2 1) [10; 20; 0; 0; 0; 0]%Z = Some hs /\
    launch (recurrent_forget_mult [1; 2; 3; 4]%Z [6; 6; 9; 8]%Z
              (Z.of_nat 2) (Z.of_nat 1) (Z.of_nat 2))
           (grid_threads 1 1 2 1) [11; 20; 0; 0; 0; 0]%Z = Some hs' /\
    launch (bwd_recurrent_forget_mult hs [1; 2; 3; 4]%Z [5; 6; 7; 8]%Z [1; 1; 1; 1]%Z
              (Z.of_nat 2) (Z.of_nat 1) (Z.of_nat 2))
           (grid_threads 1 1 2 1) ([0; 0; 0; 0]%Z, [0; 0; 0; 0]%Z, [0; 0]%Z)
    = Some (dF, dX, dH0) /\
    forall b l, b < 1 -> l < 2 ->
      loss_change (1 * 2) 2 (b * 2 + l) [1; 1; 1; 1]%Z hs hs'
      = (gradient_dot (1 * 2) 2 (b * 2 + l) dX [5; 6; 7; 8]%Z [6; 6; 9; 8]%Z
         + nth (b * 2 + l) dH0 s0
           * (nth (b * 2 + l) [11; 20; 0; 0; 0; 0]%Z s0
              - nth (b * 2 + l) [10; 20; 0; 0; 0; 0]%Z s0))%S.
Proof.
  apply (backward_is_exact_gradient_in_X_and_H0
           [1; 2; 3; 4]%Z [5; 6; 7; 8]%Z [6; 6; 9; 8]%Z [1; 1; 1; 1]%Z
           [10; 20; 0; 0; 0; 0]%Z [11; 20; 0; 0; 0; 0]%Z
           [0; 0; 0; 0]%Z [0; 0; 0; 0]%Z [0; 0]%Z 2 1 2 1 1 2 1 (grid_threads 1 1 2 1));
    try reflexivity; try lia.
  split; reflexivity.
Defined.

(** X8. The backward kernel returns the exact gradient with respect to each
    gate.  Set the gate of one timestep and lane to [v] and run the forward
    kernel again: at that lane the loss [sum of gH[t] * H[t]] changes by
    [dF] of that cell times [v - f], with [dF] computed from the first run's
    hidden sequence. *)
Theorem backward_is_exact_gradient_in_each_gate {A : Type} {SA : Scalar A}
    (f x gh dst0 dF0 dX0 dH00 : list A) (T B H : nat) (s b l : nat) (v : A)
    (gx gy bx by_ : nat) (ths : list thread) :
  (Z.of_nat (T + 1) * Z.of_nat H * Z.of_nat B < 2 ^ 31)%Z ->
  length f = T * (B * H) -> length x = T * (B * H) -> length gh = T * (B * H) ->
  length dst0 = (T + 1) * (B * H) ->
  length dF0 = T * (B * H) -> length dX0 = T * (B * H) -> length dH00 = B * H ->
  s < T -> b < B -> l < H ->
  Permutation ths (grid_threads gx gy bx by_) ->
  grid_fits gx gy bx by_ -> H <= gx * bx -> B <= gy * by_ ->
  exists hs hs' dF dX dH0,
    launch (recurrent_forget_mult f x (Z.of_nat T) (Z.of_nat B) (Z.of_nat H)) ths dst0
    = Some hs /\
    launch (recurrent_forget_mult (upd (s * (B * H) + (b * H + l)) v f) x
              (Z.of_nat T) (Z.of_nat B) (Z.of_nat H)) ths dst0
    = Some hs' /\
    launch (bwd_recurrent_forget_mult hs f x gh (Z.of_nat T) (Z.of_nat B) (Z.of_nat H))
           ths (dF0, dX0, dH00) = Some (dF, dX, dH0) /\
    loss_change (B * H) T (b * H + l) gh hs hs'
    = (nth (s * (B * H) + (b * H + l)) dF s0
       * (v - nth (s * (B * H) + (b * H + l)) f s0))%S.
Proof.
  intros Hmax Hf Hx Hgh Hd HdF HdX HdH Hs Hb Hl Hperm Hfit HgH HgB.
  apply (@gradient_F_cell A SA f x gh T B H Hmax Hf Hx Hgh ths); auto.
  - apply (schedule_nonneg gx gy bx by_ ths Hperm Hfit).
  - intros b' h' Hb' Hh'.
    apply (schedule_covered gx gy bx by_ ths (Z.of_nat B) (Z.of_nat H) _ _ Hperm Hfit); lia.
Qed.

Lemma backward_is_exact_gradient_in_each_gate_witness :
  exists hs hs' dF dX dH0,
    launch (recurrent_forget_mult [1; 2; 3; 4]%Z [5; 6; 7; 8]%Z
              (Z.of_nat 2) (Z.of_nat 1) (Z.of_nat 2))
           (grid_threads 1 1 2 1) [10; 20; 0; 0; 0; 0]%Z = Some hs /\
    launch (recurrent_forget_mult (upd (0 * (1 * 2) + (0 * 2 + 1)) 7%Z [1; 2; 3; 4]%Z)
              [5; 6; 7; 8]%Z (Z.of_nat 2) (Z.of_nat 1) (Z.of_nat 2))
           (grid_threads 1 1 2 1) [10; 20; 0; 0; 0; 0]%Z = Some hs' /\
    launch (bwd_recurrent_forget_mult hs [1; 2; 3; 4]%Z [5; 6; 7; 8]%Z [1; 1; 1; 1]%Z
              (Z.of_nat 2) (Z.of_nat 1) (Z.of_nat 2))
           (grid_threads 1 1 2 1) ([0; 0; 0; 0]%Z, [0; 0; 0; 0]%Z, [0; 0]%Z)
    = Some (dF, dX, dH0) /\
    loss_change (1 * 2) 2 (0 * 2 + 1) [1; 1; 1; 1]%Z hs hs'
    = (nth (0 * (1 * 2) + (0 * 2 + 1)) dF s0
       * (7%Z - nth (0 * (1 * 2) + (0 * 2 + 1)) [1; 2; 3; 4]%Z s0))%S.
Proof.
  apply (backward_is_exact_gradient_in_each_gate
           [1; 2; 3; 4]%Z [5; 6; 7; 8]%Z [1; 1; 1; 1]%Z [10; 20; 0; 0; 0; 0]%Z
           [0; 0; 0; 0]%Z [0; 0; 0; 0]%Z [0; 0]%Z 2 1 2 0 0 1 7%Z
           1 1 2 1 (grid_threads 1 1 2 1));
    try reflexivity; try lia.
  split; reflexivity.
Defined.

(** * Launch configurations *)

Lemma lane_split (B H j : nat) :
  j < B * H -> exists b l, b < B /\ l < H /\ j = b * H + l.
Proof.
  intros Hj. destruct (flat_index_split B H j Hj) as (b & l & Hb & Hl & E).
  exists b, l. auto.
Qed.

(** X9. The kernels' results do not depend on the launch configuration:
    two grids that cover the lanes, of whatever block and grid sizes whose
    thread coordinates fit an [int], with their threads run in whatever
    order, leave the same [dst], and the same [(gf, gx, ghinit)]. *)
Theorem kernels_ignore_launch_configuration {A : Type} {SA : Scalar A}
    (h f x gh dst gf0 gx0 gi0 : list A) (T B H : nat)
    (gx1 gy1 bx1 by1 gx2 gy2 bx2 by2 : nat) (ths1 ths2 : list thread) :
  (Z.of_nat (T + 1) * Z.of_nat H * Z.of_nat B < 2 ^ 31)%Z ->
  length h = (T + 1) * (B * H) ->
  length f = T * (B * H) -> length x = T * (B * H) -> length gh = T * (B * H) ->
  length dst = (T + 1) * (B * H) ->
  length gf0 = T * (B * H) -> length gx0 = T * (B * H) -> length gi0 = B * H ->
  Permutation ths1 (grid_threads gx1 gy1 bx1 by1) ->
  grid_fits gx1 gy1 bx1 by1 -> H <= gx1 * bx1 -> B <= gy1 * by1 ->
  Permutation ths2 (grid_threads gx2 gy2 bx2 by2) ->
  grid_fits gx2 gy2 bx2 by2 -> H <= gx2 * bx2 -> B <= gy2 * by2 ->
  (exists dst',
     launch (recurrent_forget_mult f x (Z.of_nat T) (Z.of_nat B) (Z.of_nat H)) ths1 dst
     = Some dst' /\
     launch (recurrent_forget_mult f x (Z.of_nat T) (Z.of_nat B) (Z.of_nat H)) ths2 dst
     = Some dst')
  /\
  (exists out',
     launch (bwd_recurrent_forget_mult h f x gh (Z.of_nat T) (Z.of_nat B) (Z.of_nat H))
            ths1 (gf0, gx0, gi0) = Some out' /\
     launch (bwd_recurrent_forget_mult h f x gh (Z.of_nat T) (Z.of_nat B) (Z.of_nat H))
            ths2 (gf0, gx0, gi0) = Some out').
Proof.
  intros Hmax Hh Hf Hx Hgh Hd Hgf Hgx Hgi Hp1 Hfit1 HH1 HB1 Hp2 Hfit2 HH2 HB2.
  pose proof (schedule_nonneg gx1 gy1 bx1 by1 ths1 Hp1 Hfit1) as Hnn1.
  pose proof (schedule_nonneg gx2 gy2 bx2 by2 ths2 Hp2 Hfit2) as Hnn2.
  assert (Hcov1 : forall b l, b < B -> l < H -> covered ths1 (Z.of_nat b) (Z.of_nat l)).
  { intros b l Hb Hl.
    apply (schedule_covered gx1 gy1 bx1 by1 ths1 (Z.of_nat B) (Z.of_nat H) _ _ Hp1 Hfit1); lia. }
  assert (Hcov2 : forall b l, b < B -> l < H -> covered ths2 (Z.of_nat b) (Z.of_nat l)).
  { intros b l Hb Hl.
    apply (schedule_covered gx2 gy2 bx2 by2 ths2 (Z.of_nat B) (Z.of_nat H) _ _ Hp2 Hfit2); lia. }
  split.
  - destruct (@kernel_forward_ref A SA f x T B H Hmax Hf Hx ths1 dst Hnn1 Hcov1 Hd)
      as (d1 & Hrun1 & Hlen1 & Hval1).
    destruct (@kernel_forward_ref A SA f x T B H Hmax Hf Hx ths2 dst Hnn2 Hcov2 Hd)
      as (d2 & Hrun2 & Hlen2 & Hval2).
    exists d1. split; [exact Hrun1 |]. rewrite Hrun2. f_equal.
    apply (nth_ext _ _ s0 s0); [congruence |].
    intros k Hk. rewrite Hlen2, Hd in Hk.
    destruct (flat_index_split (T + 1) (B * H) k Hk) as (t & j & Ht & Hj & ->).
    destruct (lane_split B H j Hj) as (b & l & Hb & Hl & ->).
    rewrite Hval1, Hval2 by (auto; lia). reflexivity.
  - destruct (@kernel_backward_ref A SA h f x gh gf0 gx0 gi0 T B H ths1 Hmax
                Hh Hf Hx Hgh Hgf Hgx Hgi Hnn1 Hcov1)
      as (gf1 & gx1' & gi1 & Hrun1 & Lf1 & Lx1 & Li1 & Hadj1).
    destruct (@kernel_backward_ref A SA h f x gh gf0 gx0 gi0 T B H ths2 Hmax
                Hh Hf Hx Hgh Hgf Hgx Hgi Hnn2 Hcov2)
      as (gf2 & gx2' & gi2 & Hrun2 & Lf2 & Lx2 & Li2 & Hadj2).
    exists (gf1, gx1', gi1). split; [exact Hrun1 |]. rewrite Hrun2.
    assert (Egf : gf2 = gf1).
    { apply (nth_ext _ _ s0 s0); [congruence |].
      intros k Hk. rewrite Lf2 in Hk.
      destruct (flat_index_split T (B * H) k Hk) as (r & j & Hr & Hj & ->).
      destruct (lane_split B H j Hj) as (b & l & Hb & Hl & ->).
      destruct (Hadj1 b l Hb Hl) as [R1 _]. destruct (Hadj2 b l Hb Hl) as [R2 _].
      destruct (R1 r Hr) as [_ ->]. destruct (R2 r Hr) as [_ ->]. reflexivity. }
    assert (Egx : gx2' = gx1').
    { apply (nth_ext _ _ s0 s0); [congruence |].
      intros k Hk. rewrite Lx2 in Hk.
      destruct (flat_index_split T (B * H) k Hk) as (r & j & Hr & Hj & ->).
      destruct (lane_split B H j Hj) as (b & l & Hb & Hl & ->).
      destruct (Hadj1 b l Hb Hl) as [R1 _]. destruct (Hadj2 b l Hb Hl) as [R2 _].
      destruct (R1 r Hr) as [-> _]. destruct (R2 r Hr) as [-> _]. reflexivity. }
    assert (Egi : gi2 = gi1).
    { apply (nth_ext _ _ s0 s0); [congruence |].
      intros k Hk. rewrite Li2 in Hk.
      destruct (lane_split B H k Hk) as (b & l & Hb & Hl & ->).
      destruct (Hadj1 b l Hb Hl) as [_ ->]. destruct (Hadj2 b l Hb Hl) as [_ ->].
      reflexivity. }
    now rewrite Egf, Egx, Egi.
Qed.

Lemma kernels_ignore_launch_configuration_witness :
  exists dst',
    launch (recurrent_forget_mult [1; 2; 3; 4]%Z [5; 6; 7; 8]%Z
              (Z.of_nat 2) (Z.of_nat 1) (Z.of_nat 2))
           (grid_threads 1 1 2 1) [10; 20; 0; 0; 0; 0]%Z = Some dst' /\
    launch (recurrent_forget_mult [1; 2; 3; 4]%Z [5; 6; 7; 8]%Z
              (Z.of_nat 2) (Z.of_nat 1) (Z.of_nat 2))
           (rev (grid_threads 3 2 1 1)) [10; 20; 0; 0; 0; 0]%Z = Some dst'.
Proof.
  apply (proj1 (kernels_ignore_launch_configuration
                  [10; 20; 5; -8; 11; 56]%Z [1; 2; 3; 4]%Z [5; 6; 7; 8]%Z [1; 1; 1; 1]%Z
                  [10; 20; 0; 0; 0; 0]%Z [0; 0; 0; 0]%Z [0; 0; 0; 0]%Z [0; 0]%Z 2 1 2
                  1 1 2 1 3 2 1 1 (grid_threads 1 1 2 1) (rev (grid_threads 3 2 1 1))
                  ltac:(lia) eq_refl eq_refl eq_refl eq_refl eq_refl eq_refl eq_refl eq_refl
                  (Permutation_refl _) (conj eq_refl eq_refl) ltac:(lia) ltac:(lia)
                  (Permutation_sym (Permutation_rev _)) (conj eq_refl eq_refl)
                  ltac:(lia) ltac:(lia))).
Defined.

(** * What the backward kernel reads of [h] *)

Lemma lane_rows_ext_h {A : Type} {SA : Scalar A}
    (n T j : nat) (h h' f x gh : list A) :
  j < n ->
  (forall k, k < T * n -> nth k h s0 = nth k h' s0) ->
  lane_rows n T j h f x gh = lane_rows n T j h' f x gh.
Proof.
  intros Hj E. unfold lane_rows. apply map_ext_in.
  intros r Hr. apply in_seq in Hr. rewrite (E (r * n + j)) by nia. reflexivity.
Qed.

(** X10. The backward kernel never reads the last timestep of [h]: two
    hidden sequences [H[0 .. T]] that agree on [H[0 .. T-1]] give the same
    [(gf, gx, ghinit)], whatever their [H[T]]. *)
Theorem backward_ignores_final_hidden_state {A : Type} {SA : Scalar A}
    (h h' f x gh gf0 gx0 gi0 : list A) (T B H : nat)
    (gx_ gy_ bx_ by_ : nat) (ths : list thread) :
  (Z.of_nat (T + 1) * Z.of_nat H * Z.of_nat B < 2 ^ 31)%Z ->
  length h = (T + 1) * (B * H) -> length h' = (T + 1) * (B * H) ->
  length f = T * (B * H) -> length x = T * (B * H) -> length gh = T * (B * H) ->
  length gf0 = T * (B * H) -> length gx0 = T * (B * H) -> length gi0 = B * H ->
  Permutation ths (grid_threads gx_ gy_ bx_ by_) ->
  grid_fits gx_ gy_ bx_ by_ -> H <= gx_ * bx_ -> B <= gy_ * by_ ->
  (forall k, k < T * (B * H) -> nth k h s0 = nth k h' s0) ->
  exists out',
    launch (bwd_recurrent_forget_mult h f x gh (Z.of_nat T) (Z.of_nat B) (Z.of_nat H))
           ths (gf0, gx0, gi0) = Some out' /\
    launch (bwd_recurrent_forget_mult h' f x gh (Z.of_nat T) (Z.of_nat B) (Z.of_nat H))
           ths (gf0, gx0, gi0) = Some out'.
Proof.
  intros Hmax Hh Hh' Hf Hx Hgh Hgf Hgx Hgi Hp Hfit HH HB E.
  pose proof (schedule_nonneg gx_ gy_ bx_ by_ ths Hp Hfit) as Hnn.
  assert (Hcov : forall b l, b < B -> l < H -> covered ths (Z.of_nat b) (Z.of_nat l)).
  { intros b l Hb Hl.
    apply (schedule_covered gx_ gy_ bx_ by_ ths (Z.of_nat B) (Z.of_nat H) _ _ Hp Hfit); lia. }
  destruct (@kernel_backward_ref A SA h f x gh gf0 gx0 gi0 T B H ths Hmax
              Hh Hf Hx Hgh Hgf Hgx Hgi Hnn Hcov)
    as (gf1 & gx1 & gi1 & Hrun1 & Lf1 & Lx1 & Li1 & Hadj1).
  destruct (@kernel_backward_ref A SA h' f x gh gf0 gx0 gi0 T B H ths Hmax
              Hh' Hf Hx Hgh Hgf Hgx Hgi Hnn Hcov)
    as (gf2 & gx2 & gi2 & Hrun2 & Lf2 & Lx2 & Li2 & Hadj2).
  exists (gf1, gx1, gi1). split; [exact Hrun1 |]. rewrite Hrun2.
  assert (Erows : forall b l, b < B -> l < H ->
            lane_rows (B * H) T (b * H + l) h f x gh
            = lane_rows (B * H) T (b * H + l) h' f x gh).
  { intros b l Hb Hl. apply lane_rows_ext_h; [apply lane_lt; assumption | exact E]. }
  assert (Egf : gf2 = gf1).
  { apply (nth_ext _ _ s0 s0); [congruence |].
    intros k Hk. rewrite Lf2 in Hk.
    destruct (flat_index_split T (B * H) k Hk) as (r & j & Hr & Hj & ->).
    destruct (lane_split B H j Hj) as (b & l & Hb & Hl & ->).
    destruct (Hadj1 b l Hb Hl) as [R1 _]. destruct (Hadj2 b l Hb Hl) as [R2 _].
    destruct (R1 r Hr) as [_ ->]. destruct (R2 r Hr) as [_ ->].
    now rewrite Erows. }
  assert (Egx : gx2 = gx1).
  { apply (nth_ext _ _ s0 s0); [congruence |].
    intros k Hk. rewrite Lx2 in Hk.
    destruct (flat_index_split T (B * H) k Hk) as (r & j & Hr & Hj & ->).
    destruct (lane_split B H j Hj) as (b & l & Hb & Hl & ->).
    destruct (Hadj1 b l Hb Hl) as [R1 _]. destruct (Hadj2 b l Hb Hl) as [R2 _].
    destruct (R1 r Hr) as [-> _]. destruct (R2 r Hr) as [-> _].
    now rewrite Erows. }
  assert (Egi : gi2 = gi1).
  { apply (nth_ext _ _ s0 s0); [congruence |].
    intros k Hk. rewrite Li2 in Hk.
    destruct (lane_split B H k Hk) as (b & l & Hb & Hl & ->).
    destruct (Hadj1 b l Hb Hl) as [_ ->]. destruct (Hadj2 b l Hb Hl) as [_ ->].
    now rewrite Erows. }
  now rewrite Egf, Egx, Egi.
Qed.

Lemma backward_ignores_final_hidden_state_witness :
  exists out',
    launch (bwd_recurrent_forget_mult [10; 20; 5; -8; 11; 56]%Z [1; 2; 3; 4]%Z
              [5; 6; 7; 8]%Z [1; 1; 1; 1]%Z (Z.of_nat 2) (Z.of_nat 1) (Z.of_nat 2))
           (grid_threads 1 1 2 1) ([0; 0; 0; 0]%Z, [0; 0; 0; 0]%Z, [0; 0]%Z) = Some out' /\
    launch (bwd_recurrent_forget_mult [10; 20; 5; -8; 0; 0]%Z [1; 2; 3; 4]%Z
              [5; 6; 7; 8]%Z [1; 1; 1; 1]%Z (Z.of_nat 2) (Z.of_nat 1) (Z.of_nat 2))
           (grid_threads 1 1 2 1) ([0; 0; 0; 0]%Z, [0; 0; 0; 0]%Z, [0; 0]%Z) = Some out'.
Proof.
  apply (backward_ignores_final_hidden_state
           [10; 20; 5; -8; 11; 56]%Z [10; 20; 5; -8; 0; 0]%Z [1; 2; 3; 4]%Z [5; 6; 7; 8]%Z
           [1; 1; 1; 1]%Z [0; 0; 0; 0]%Z [0; 0; 0; 0]%Z [0; 0]%Z 2 1 2 1 1 2 1
           (grid_threads 1 1 2 1));
    try reflexivity; try lia.
  - split; reflexivity.
  - intros [| [| [| [| k]]]] Hk; try reflexivity. simpl in Hk. lia.
Defined.

(** * The extra timestep of [dst] *)

Lemma st_length {A : Type} (buf buf' : list A) (i : Z) (v : A) :
  st buf i v = Some buf' -> length buf' = length buf.
Proof.
  unfold st. destruct (_ && _)%bool; [| discriminate].
  intros E. injection E as <-. apply upd_length.
Qed.

Lemma fwd_body_length {A : Type} {SA : Scalar A}
    (f x : list A) (BATCH HIDDEN bid hid ts : Z) (dst dst' : list A) :
  fwd_body f x BATCH HIDDEN bid hid ts dst = Some dst' -> length dst' = length dst.
Proof.
  unfold fwd_body.
  generalize (lane_offset (int_sub ts 1) HIDDEN BATCH bid hid).
  generalize (lane_offset (int_sub ts 0) HIDDEN BATCH bid hid).
  intros di i. cbv zeta.
  destruct (ld f i); [| discriminate]. destruct (ld x i); [| discriminate].
  destruct (st dst di _) as [dst1 |] eqn:E1; [| discriminate].
  destruct (ld dst1 di); [| discriminate]. destruct (ld dst1 i); [| discriminate].
  intros E2. apply st_length in E1, E2. rewrite E2. exact E1.
Qed.

Lemma seq_bound (SEQ BATCH HIDDEN : Z) :
  (0 < BATCH -> 0 < HIDDEN -> 0 <= SEQ ->
   (SEQ + 1) * HIDDEN * BATCH < 2 ^ 31 -> SEQ + 1 < 2 ^ 31)%Z.
Proof.
  intros HB HH HS Hmax.
  assert (1 <= HIDDEN * BATCH)%Z by nia.
  assert (SEQ + 1 <= (SEQ + 1) * (HIDDEN * BATCH))%Z by nia.
  rewrite Z.mul_assoc in *. lia.
Qed.

(** The last turn of the loop stores at row [SEQ] of [dst]. *)
Lemma fwd_body_last_faults {A : Type} {SA : Scalar A}
    (f x : list A) (SEQ BATCH HIDDEN bid hid : Z) (dst : list A) :
  (1 <= SEQ -> 0 <= bid < BATCH -> 0 <= hid < HIDDEN ->
   (SEQ + 1) * HIDDEN * BATCH < 2 ^ 31 ->
   Z.of_nat (length dst) <= SEQ * HIDDEN * BATCH ->
   fwd_body f x BATCH HIDDEN bid hid SEQ dst = None)%Z.
Proof.
  intros HS Hb Hh Hmax Hd.
  pose proof (seq_bound SEQ BATCH HIDDEN ltac:(lia) ltac:(lia) ltac:(lia) Hmax) as HS'.
  unfold fwd_body, int_sub. rewrite Z.sub_0_r.
  rewrite (wrap_small SEQ) by lia. rewrite (wrap_small (SEQ - 1)) by lia.
  rewrite (lane_offset_exact SEQ BATCH HIDDEN bid hid SEQ) by lia.
  destruct (ld f _); [| reflexivity]. destruct (ld x _); [| reflexivity].
  unfold st at 1.
  destruct (off HIDDEN BATCH bid hid SEQ <? Z.of_nat (length dst))%Z eqn:E.
  - apply Z.ltb_lt in E. unfold off in E.
    assert (0 <= bid * HIDDEN)%Z by nia. lia.
  - rewrite Bool.andb_false_r. reflexivity.
Qed.

Lemma fwd_loop_short_dst {A : Type} {SA : Scalar A}
    (f x : list A) (SEQ BATCH HIDDEN bid hid : Z) (fuel : nat) :
  (1 <= SEQ -> 0 <= bid < BATCH -> 0 <= hid < HIDDEN ->
   (SEQ + 1) * HIDDEN * BATCH < 2 ^ 31 ->
   forall (ts : Z) (dst : list A),
     1 <= ts <= SEQ ->
     Z.of_nat (length dst) <= SEQ * HIDDEN * BATCH ->
     fwd_loop fuel f x SEQ BATCH HIDDEN bid hid ts dst = None)%Z.
Proof.
  intros HS Hb Hh Hmax.
  pose proof (seq_bound SEQ BATCH HIDDEN ltac:(lia) ltac:(lia) ltac:(lia) Hmax) as HS'.
  induction fuel as [| fuel IH]; intros ts dst Hts Hd; [reflexivity |].
  cbn [fwd_loop]. unfold int_add at 1. rewrite (wrap_small (SEQ + 1)) by lia.
  destruct (ts <? SEQ + 1)%Z eqn:E; [| apply Z.ltb_ge in E; lia].
  destruct (Z.eq_dec ts SEQ) as [-> | Hne].
  - rewrite fwd_body_last_faults by assumption. reflexivity.
  - destruct (fwd_body f x BATCH HIDDEN bid hid ts dst) as [dst' |] eqn:Eb; [| reflexivity].
    apply fwd_body_length in Eb.
    unfold int_add. rewrite (wrap_small (ts + 1)) by lia.
    apply IH; [lia | rewrite Eb; exact Hd].
Qed.

Lemma fwd_launch_short_dst {A : Type} {SA : Scalar A}
    (f x : list A) (SEQ BATCH HIDDEN : Z) (ths : list thread) (dst : list A) :
  (1 <= SEQ)%Z -> ((SEQ + 1) * HIDDEN * BATCH < 2 ^ 31)%Z ->
  Forall nonneg ths ->
  (exists th, In th ths /\ (thread_bid th < BATCH)%Z /\ (thread_hid th < HIDDEN)%Z) ->
  (Z.of_nat (length dst) <= SEQ * HIDDEN * BATCH)%Z ->
  launch (recurrent_forget_mult f x SEQ BATCH HIDDEN) ths dst = None.
Proof.
  intros HS Hmax Hnn (th0 & Hin & Hb0 & Hh0) Hd.
  induction ths as [| th ths IH]; [destruct Hin |].
  cbn [launch]. unfold recurrent_forget_mult at 1.
  apply Forall_cons_iff in Hnn. destruct Hnn as [[Hnb Hnh] Hnn].
  destruct ((thread_hid th >=? HIDDEN) || (thread_bid th >=? BATCH))%Z eqn:E.
  - apply IH; [exact Hnn |].
    destruct Hin as [-> | Hin]; [| exact Hin].
    apply Bool.orb_true_iff in E. rewrite !Z.geb_le in E. lia.
  - apply Bool.orb_false_iff in E. destruct E as [E1 E2].
    rewrite Z.geb_leb in E1, E2. apply Z.leb_gt in E1, E2.
    unfold int_add. rewrite (wrap_small (0 + 1)) by lia.
    rewrite (fwd_loop_short_dst f x SEQ BATCH HIDDEN (thread_bid th) (thread_hid th)
               (S (Z.to_nat SEQ)) HS ltac:(lia) ltac:(lia) Hmax (0 + 1)%Z dst ltac:(lia) Hd).
    reflexivity.
Qed.

(** X11. The forward kernel needs the extra timestep its comment asks for:
    on a [dst] of only [T] rows a launch that covers the lanes indexes past
    the end of [dst], while with any one more row the same launch returns. *)
Theorem forward_kernel_needs_extra_timestep {A : Type} {SA : Scalar A}
    (f x dst : list A) (T B H : nat) (gx_ gy_ bx_ by_ : nat) (ths : list thread) :
  (Z.of_nat (T + 1) * Z.of_nat H * Z.of_nat B < 2 ^ 31)%Z ->
  0 < T -> 0 < B -> 0 < H ->
  length f = T * (B * H) -> length x = T * (B * H) ->
  length dst = T * (B * H) ->
  Permutation ths (grid_threads gx_ gy_ bx_ by_) ->
  grid_fits gx_ gy_ bx_ by_ -> H <= gx_ * bx_ -> B <= gy_ * by_ ->
  launch (recurrent_forget_mult f x (Z.of_nat T) (Z.of_nat B) (Z.of_nat H)) ths dst = None
  /\
  forall row, length row = B * H ->
    exists dst',
      launch (recurrent_forget_mult f x (Z.of_nat T) (Z.of_nat B) (Z.of_nat H))
             ths (dst ++ row) = Some dst'.
Proof.
  intros Hmax HT HB HH Hf Hx Hd Hp Hfit HHg HBg.
  pose proof (schedule_nonneg gx_ gy_ bx_ by_ ths Hp Hfit) as Hnn.
  assert (Hcov : forall b l, b < B -> l < H -> covered ths (Z.of_nat b) (Z.of_nat l)).
  { intros b l Hb Hl.
    apply (schedule_covered gx_ gy_ bx_ by_ ths (Z.of_nat B) (Z.of_nat H) _ _ Hp Hfit); lia. }
  split.
  - apply fwd_launch_short_dst; [lia | lia | exact Hnn | | nia].
    destruct (Hcov 0 0 HB HH) as (th & Hin & Eb & Eh).
    exists th. split; [exact Hin |]. lia.
  - intros row Hrow.
    destruct (@kernel_forward_ref A SA f x T B H Hmax Hf Hx ths (dst ++ row) Hnn Hcov)
      as (dst' & Hrun & _).
    + rewrite length_app, Hd, Hrow. lia.
    + exists dst'. exact Hrun.
Qed.

Lemma forward_kernel_needs_extra_timestep_witness :
  launch (recurrent_forget_mult [1; 2; 3; 4]%Z [5; 6; 7; 8]%Z
            (Z.of_nat 2) (Z.of_nat 1) (Z.of_nat 2))
         (grid_threads 1 1 2 1) [10; 20; 0; 0]%Z = None.
Proof.
  apply (proj1 (forward_kernel_needs_extra_timestep
                  [1; 2; 3; 4]%Z [5; 6; 7; 8]%Z [10; 20; 0; 0]%Z 2 1 2 1 1 2 1
                  (grid_threads 1 1 2 1)
                  ltac:(lia) ltac:(lia) ltac:(lia) ltac:(lia) eq_refl eq_refl eq_refl
                  (Permutation_refl _) (conj eq_refl eq_refl) ltac:(lia) ltac:(lia))).
Defined.

(** * Sequences given in chunks *)

Section Chunks.

Context {A : Type} {SA : Scalar A}.

(** The recurrence over the first chunk does not look at the second. *)
Lemma hidden_ref_app_prefix (n T1 : nat) (f1 f2 x1 x2 h0 : list A) (t j : nat) :
  length f1 = T1 * n -> length x1 = T1 * n -> j < n -> t <= T1 ->
  hidden_ref n (f1 ++ f2) (x1 ++ x2) h0 t j = hidden_ref n f1 x1 h0 t j.
Proof.
  intros Lf Lx Hj. induction t as [| t IH]; intros Ht; [reflexivity |].
  cbn [hidden_ref]. rewrite IH by lia.
  rewrite !app_nth1 by nia. reflexivity.
Qed.

(** Over the second chunk it restarts from the state the first one ends in. *)
Lemma hidden_ref_app_suffix (n T1 : nat) (f1 f2 x1 x2 h0 hm : list A) (t j : nat) :
  length f1 = T1 * n -> length x1 = T1 * n -> j < n ->
  nth j hm s0 = hidden_ref n f1 x1 h0 T1 j ->
  hidden_ref n (f1 ++ f2) (x1 ++ x2) h0 (T1 + t) j = hidden_ref n f2 x2 hm t j.
Proof.
  intros Lf Lx Hj Hm. induction t as [| t IH].
  - rewrite Nat.add_0_r. cbn [hidden_ref]. rewrite Hm.
    apply (hidden_ref_app_prefix n T1); auto.
  - replace (T1 + S t) with (S (T1 + t)) by lia.
    cbn [hidden_ref]. rewrite IH.
    rewrite !app_nth2 by nia.
    replace ((T1 + t) * n + j - length f1) with (t * n + j) by nia.
    replace ((T1 + t) * n + j - length x1) with (t * n + j) by nia.
    reflexivity.
Qed.

End Chunks.

(** X12. The hidden state carries across chunks.  Running
    [CPUForgetMult.forward] on the first [T1] timesteps, then on the next
    [T2] with the last timestep of the first result as initial state, gives
    the two parts of the one result of running it on all [T1 + T2]
    timesteps. *)
Theorem hidden_state_carries_across_chunks {A : Type} {SA : Scalar A}
    (F1 X1 F2 X2 : Tensor A) (H0 : option (Tensor A)) (T1 T2 : nat) (s : list nat)
    (out1 : Tensor A) :
  size F1 = T1 :: s -> size X1 = T1 :: s -> wf F1 -> wf X1 ->
  is_cuda F1 = is_cuda X1 ->
  size F2 = T2 :: s -> size X2 = T2 :: s -> wf F2 ->
  is_cuda F2 = is_cuda X2 -> is_cuda F2 = is_cuda F1 ->
  0 < T1 -> 0 < T2 ->
  match H0 with Some p => row_like s (is_cuda F1) p | None => True end ->
  CPUForgetMult_forward F1 X1 H0 = Ok out1 ->
  exists out2,
    CPUForgetMult_forward F2 X2 (Some (last_timestep out1)) = Ok out2 /\
    CPUForgetMult_forward (cat0 F1 F2) (cat0 X1 X2) H0 = Ok (cat0 out1 out2).
Proof.
  intros HsF1 HsX1 HwF1 HwX1 Hdev1 HsF2 HsX2 HwF2 Hdev2 Hdev12 HT1 HT2 HH0 Hrun1.
  set (n := numel s).
  set (h0 := match H0 with Some p => data p | None => [] end).
  destruct (cpu_forward_ref F1 X1 T1 s HsF1 HsX1 HwF1 Hdev1 h0 H0 HT1 HH0 eq_refl)
    as (o1 & Hrun1' & Hs1 & Hd1 & Hl1 & Hv1).
  rewrite Hrun1 in Hrun1'. injection Hrun1' as <-. fold n in Hl1, Hv1.
  assert (Elast : last_timestep out1
                  = {| size := s; data := skipn ((T1 - 1) * n) (data out1);
                       is_cuda := is_cuda out1 |}).
  { unfold last_timestep. rewrite Hs1. reflexivity. }
  assert (Hrow : row_like s (is_cuda F2) (last_timestep out1)).
  { rewrite Elast. unfold row_like. cbn [size data is_cuda].
    split; [reflexivity |]. split; [| congruence].
    rewrite length_skipn, Hl1. fold n. nia. }
  destruct (cpu_forward_ref F2 X2 T2 s HsF2 HsX2 HwF2 Hdev2
              (data (last_timestep out1)) (Some (last_timestep out1)) HT2 Hrow eq_refl)
    as (out2 & Hrun2 & Hs2 & Hd2 & Hl2 & Hv2).
  fold n in Hl2, Hv2.
  exists out2. split; [exact Hrun2 |].
  assert (LF1 : length (data F1) = T1 * n) by (rewrite HwF1, HsF1; reflexivity).
  assert (LX1 : length (data X1) = T1 * n) by (rewrite HwX1, HsX1; reflexivity).
  assert (LF2 : length (data F2) = T2 * n) by (rewrite HwF2, HsF2; reflexivity).
  assert (HsF : size (cat0 F1 F2) = (T1 + T2) :: s).
  { unfold cat0. cbn [size]. now rewrite HsF1, HsF2. }
  assert (HsX : size (cat0 X1 X2) = (T1 + T2) :: s).
  { unfold cat0. cbn [size]. now rewrite HsX1, HsX2. }
  assert (HwF : wf (cat0 F1 F2)).
  { red. rewrite HsF. unfold cat0 at 1. cbn [data].
    rewrite length_app, LF1, LF2. rewrite numel_cons. fold n. lia. }
  assert (Hdev : is_cuda (cat0 F1 F2) = is_cuda (cat0 X1 X2)) by exact Hdev1.
  destruct (cpu_forward_ref (cat0 F1 F2) (cat0 X1 X2) (T1 + T2) s HsF HsX HwF Hdev
              h0 H0 ltac:(lia) HH0 eq_refl)
    as (out & Hrun & Hs & Hd & Hl & Hv).
  fold n in Hl, Hv. rewrite Hrun. f_equal.
  assert (Hm : forall j, j < n ->
            nth j (data (last_timestep out1)) s0
            = hidden_ref n (data F1) (data X1) h0 T1 j).
  { intros j Hj. rewrite Elast. cbn [data]. rewrite nth_skipn.
    rewrite (Hv1 (T1 - 1) j) by lia.
    replace (S (T1 - 1)) with T1 by lia. reflexivity. }
  assert (Ed : data out = data out1 ++ data out2).
  { apply (nth_ext _ _ s0 s0); [rewrite length_app, Hl, Hl1, Hl2; lia |].
    intros k Hk. rewrite Hl in Hk.
    destruct (flat_index_split (T1 + T2) n k Hk) as (t & j & Ht & Hj & ->).
    rewrite Hv by assumption. unfold cat0 at 1 2. cbn [data].
    destruct (Nat.lt_ge_cases t T1) as [Hlt | Hge].
    - rewrite app_nth1 by (rewrite Hl1; nia).
      rewrite Hv1 by assumption.
      apply (hidden_ref_app_prefix n T1); auto.
    - rewrite app_nth2 by (rewrite Hl1; nia).
      replace (t * n + j - length (data out1)) with ((t - T1) * n + j)
        by (rewrite Hl1; nia).
      rewrite Hv2 by (auto; lia).
      replace (S t) with (T1 + S (t - T1)) by lia.
      apply (hidden_ref_app_suffix n T1); auto. }
  destruct out as [so do co]. cbn [size data is_cuda] in Hs, Hd, Ed.
  unfold cat0. rewrite Hs1, Hs2. subst so do co.
  unfold cat0 at 1. cbn [is_cuda]. now rewrite Hd1.
Qed.

Lemma hidden_state_carries_across_chunks_witness :
  exists out2,
    CPUForgetMult_forward (tz [1; 1; 2] [3; 4]%Z) (tz [1; 1; 2] [7; 8]%Z)
                          (Some (last_timestep (tz [1; 1; 2] [5; -8]%Z))) = Ok out2 /\
    CPUForgetMult_forward (cat0 (tz [1; 1; 2] [1; 2]%Z) (tz [1; 1; 2] [3; 4]%Z))
                          (cat0 (tz [1; 1; 2] [5; 6]%Z) (tz [1; 1; 2] [7; 8]%Z))
                          (Some (tz [1; 2] [10; 20]%Z))
    = Ok (cat0 (tz [1; 1; 2] [5; -8]%Z) out2).
Proof.
  apply (hidden_state_carries_across_chunks
           (tz [1; 1; 2] [1; 2]%Z) (tz [1; 1; 2] [5; 6]%Z)
           (tz [1; 1; 2] [3; 4]%Z) (tz [1; 1; 2] [7; 8]%Z)
           (Some (tz [1; 2] [10; 20]%Z)) 1 1 [1; 2] (tz [1; 1; 2] [5; -8]%Z));
    try reflexivity; try lia.
  repeat split; reflexivity.
Defined.

(** * Superposition *)

Section Superposition.

Context {A : Type} {SA : Scalar A}.

Add Ring scalar_ring_super : (@scalar_ring A SA).

(** X13. For a fixed gate [F] the forward pass is linear in [X] and the
    initial state together: on the inputs [a * X + c * X'] and
    [a * H0 + c * H0'] it returns [a * out + c * out'], where [out] and
    [out'] are what it returns on [(X, H0)] and [(X', H0')]. *)
Theorem forward_is_linear_in_X_and_H0
    (F X X' X'' : Tensor A) (H0 H0' H0'' : option (Tensor A)) (a c : A) (T B H : nat) :
  size F = [T; B; H] -> wf F -> 0 < T ->
  size X = [T; B; H] -> size X' = [T; B; H] -> size X'' = [T; B; H] ->
  is_cuda F = is_cuda X -> is_cuda F = is_cuda X' -> is_cuda F = is_cuda X'' ->
  match H0 with Some p => row_like [B; H] (is_cuda F) p | None => True end ->
  match H0' with Some p => row_like [B; H] (is_cuda F) p | None => True end ->
  match H0'' with Some p => row_like [B; H] (is_cuda F) p | None => True end ->
  (forall t b h, t < T -> b < B -> h < H ->
     item X'' [t; b; h] = (a * item X [t; b; h] + c * item X' [t; b; h])%S) ->
  (forall b h, b < B -> h < H ->
     initial_value H0'' b h = (a * initial_value H0 b h + c * initial_value H0' b h)%S) ->
  exists out out' out'',
    CPUForgetMult_forward F X H0 = Ok out /\
    CPUForgetMult_forward F X' H0' = Ok out' /\
    CPUForgetMult_forward F X'' H0'' = Ok out'' /\
    forall t b h, t < T -> b < B -> h < H ->
      item out'' [t; b; h] = (a * item out [t; b; h] + c * item out' [t; b; h])%S.
Proof.
  intros HsF HwF HT HsX HsX' HsX'' Hdev Hdev' Hdev'' HH0 HH0' HH0'' EX E0.
  destruct (cpu_obeys_recurrence F X H0 T B H HsF HsX HwF Hdev HT HH0)
    as (out & Hrun & _ & _ & _ & Hrec).
  destruct (cpu_obeys_recurrence F X' H0' T B H HsF HsX' HwF Hdev' HT HH0')
    as (out' & Hrun' & _ & _ & _ & Hrec').
  destruct (cpu_obeys_recurrence F X'' H0'' T B H HsF HsX'' HwF Hdev'' HT HH0'')
    as (out'' & Hrun'' & _ & _ & _ & Hrec'').
  exists out, out', out''.
  split; [exact Hrun |]. split; [exact Hrun' |]. split; [exact Hrun'' |].
  intros t b h Ht Hb Hh. induction t as [| t IH].
  - rewrite Hrec'', Hrec, Hrec', EX, E0 by assumption. ring.
  - rewrite Hrec'', Hrec, Hrec', EX by assumption. rewrite IH by lia. ring.
Qed.

End Superposition.

Lemma forward_is_linear_in_X_and_H0_witness :
  exists out out' out'',
    CPUForgetMult_forward (tz [2; 1; 2] [1; 2; 3; 4]%Z) (tz [2; 1; 2] [5; 6; 7; 8]%Z)
                          (Some (tz [1; 2] [10; 20]%Z)) = Ok out /\
    CPUForgetMult_forward (tz [2; 1; 2] [1; 2; 3; 4]%Z) (tz [2; 1; 2] [1; 0; 2; 0]%Z)
                          None = Ok out' /\
    CPUForgetMult_forward (tz [2; 1; 2] [1; 2; 3; 4]%Z) (tz [2; 1; 2] [13; 12; 20; 16]%Z)
                          (Some (tz [1; 2] [20; 40]%Z)) = Ok out'' /\
    forall t b h, t < 2 -> b < 1 -> h < 2 ->
      item out'' [t; b; h] = (2%Z * item out [t; b; h] + 3%Z * item out' [t; b; h])%S.
Proof.
  apply (forward_is_linear_in_X_and_H0
           (tz [2; 1; 2] [1; 2; 3; 4]%Z) (tz [2; 1; 2] [5; 6; 7; 8]%Z)
           (tz [2; 1; 2] [1; 0; 2; 0]%Z) (tz [2; 1; 2] [13; 12; 20; 16]%Z)
           (Some (tz [1; 2] [10; 20]%Z)) None (Some (tz [1; 2] [20; 40]%Z))
           2%Z 3%Z 2 1 2);
    try reflexivity; try lia; try exact I.
  - repeat split; reflexivity.
  - repeat split; reflexivity.
  - intros [| [| t]] [| b] [| [| h]] Ht Hb Hh; try lia; reflexivity.
  - intros [| b] [| [| h]] Hb Hh; try lia; reflexivity.
Defined.
